(** * Home-automation operator scripts: the image checker and the volume sync

    A shallow embedding of
    - [scripts/check_compose_images.py]: [split_suffix], [parse_semverish],
      [semver_sort_key], [choose_newer_tag], [_split_image],
      [normalize_image], [find_compose_files], [dockerhub_list_tags] and
      [main];
    - [scripts/docker_volume_sync.py]: the methods [should_include_file],
      [get_docker_volume_path], [files_identical], [sync_volume_to_config],
      [clean_orphaned_files], [git_status], [git_add_and_commit] and
      [sync_all_volumes] of [DockerVolumeSync].

    Python [str] values are modelled by [string]: sequences of code points
    below 256, and every statement below is about such texts.  On that
    range the regular-expression class [\d] is exactly the ASCII digits.
    Python integers are unbounded and modelled by [Z]; [int] of a string of
    digits raises [ValueError] beyond the interpreter's default limit of
    4300 digits.  A call that may raise returns an [outcome]. *)

From Stdlib Require Import ZArith List Ascii String Bool Lia DecimalString Sorted.
From stdpp Require Import base option list strings gmap.

Local Open Scope Z_scope.

(** ** Python string primitives used by the scripts *)

Module PyStr.

(** [c in s] for a one-character needle. *)
Fixpoint contains (c : ascii) (s : string) : bool :=
  match s with
  | EmptyString => false
  | String a s' => Ascii.eqb a c || contains c s'
  end.

(** [s.split(c, 1)] when [c] occurs in [s]: the text before the first
    occurrence and the text after it.  [None] when [c] does not occur
    (Python then returns the one-element list [[s]]). *)
Fixpoint split_once (c : ascii) (s : string) : option (string * string) :=
  match s with
  | EmptyString => None
  | String a s' =>
      if Ascii.eqb a c then Some (EmptyString, s')
      else match split_once c s' with
           | Some (b, r) => Some (String a b, r)
           | None => None
           end
  end.

(** [s.startswith(p)]. *)
Definition startswith (p s : string) : bool := String.prefix p s.

Definition is_empty (s : string) : bool :=
  match s with EmptyString => true | String _ _ => false end.

(** The class [\d] on code points below 256: ['0'] .. ['9']. *)
Definition is_digit (c : ascii) : bool :=
  let n := Z.of_nat (nat_of_ascii c) in (48 <=? n) && (n <=? 57).

Definition digit_val (c : ascii) : Z := Z.of_nat (nat_of_ascii c) - 48.

(** The number that a string of decimal digits stands for, most
    significant first. *)
Fixpoint int_acc (acc : Z) (s : string) : Z :=
  match s with
  | EmptyString => acc
  | String a s' => int_acc (10 * acc + digit_val a) s'
  end.

Definition int_value (s : string) : Z := int_acc 0 s.

(** The exceptions that the scripts meet, each with the text that [str]
    gives for it. *)
Inductive exception : Type :=
| ValueError (msg : string)
| OSError (msg : string).

Definition str_of_exception (e : exception) : string :=
  match e with
  | ValueError msg => msg
  | OSError msg => msg
  end.

(** What a call comes to: it returns a value or raises. *)
Inductive outcome (A : Type) : Type :=
| Returns (x : A)
| Raises (e : exception).

Arguments Returns {A} x.
Arguments Raises {A} e.

Definition and_then {A B : Type} (m : outcome A) (k : A -> outcome B)
  : outcome B :=
  match m with
  | Returns x => k x
  | Raises e => Raises e
  end.

Notation "'let!' x ':=' m 'in' k" := (and_then m (fun x => k))
  (at level 10, x name, m at level 100, k at level 200,
   format "'[v' 'let!'  x  ':='  m  'in' '/' k ']'").

(** [sys.int_info.default_max_str_digits]: the interpreter's limit on the
    number of digits of a string that [int] converts. *)
Definition default_max_str_digits : Z := 4300.

Definition exceeds_limit (s : string) : bool :=
  Z.of_nat (String.length s) >? default_max_str_digits.

Definition limit_message (s : string) : string :=
  "Exceeds the limit (4300 digits) for integer string conversion: value has "
    +:+ NilZero.string_of_int (Z.to_int (Z.of_nat (String.length s)))
    +:+ " digits; use sys.set_int_max_str_digits() to increase the limit".

(** [int(s)] for a string of decimal digits: the number they stand for,
    or [ValueError] when there are more of them than the limit allows
    (zeros in front count). *)
Definition int (s : string) : outcome Z :=
  if exceeds_limit s then Raises (ValueError (limit_message s))
  else Returns (int_value s).

(** The longest prefix matched by [\d*], and what follows it. *)
Fixpoint span_digits (s : string) : string * string :=
  match s with
  | EmptyString => (EmptyString, EmptyString)
  | String a s' =>
      if is_digit a
      then let '(d, r) := span_digits s' in (String a d, r)
      else (EmptyString, s)
  end.

(** [str.isspace] on code points below 256. *)
Definition is_space (c : ascii) : bool :=
  let n := Z.of_nat (nat_of_ascii c) in
  ((9 <=? n) && (n <=? 13)) || ((28 <=? n) && (n <=? 32))
  || (n =? 133) || (n =? 160).

Fixpoint lstrip (p : ascii -> bool) (s : string) : string :=
  match s with
  | EmptyString => EmptyString
  | String a s' => if p a then lstrip p s' else s
  end.

Fixpoint rstrip (p : ascii -> bool) (s : string) : string :=
  match s with
  | EmptyString => EmptyString
  | String a s' =>
      let r := rstrip p s' in
      if is_empty r && p a then EmptyString else String a r
  end.

(** [s.strip()] and [s.strip(c)] for a one-character [c]. *)
Definition strip (s : string) : string := rstrip is_space (lstrip is_space s).
Definition strip_char (c : ascii) (s : string) : string :=
  rstrip (Ascii.eqb c) (lstrip (Ascii.eqb c) s).

(** [s.rfind(c)]: the index of the last occurrence of [c], [-1] when there
    is none.  [rfind_from i] numbers the first character of [s] by [i]. *)
Fixpoint rfind_from (i : Z) (c : ascii) (s : string) : Z :=
  match s with
  | EmptyString => -1
  | String a s' =>
      let r := rfind_from (i + 1) c s' in
      if r >=? 0 then r else if Ascii.eqb a c then i else -1
  end.

Definition rfind (c : ascii) (s : string) : Z := rfind_from 0 c s.

(** The slices [s[:n]] and [s[n:]] for [0 <= n]. *)
Fixpoint take (n : nat) (s : string) : string :=
  match n, s with
  | S n', String a s' => String a (take n' s')
  | _, _ => EmptyString
  end.

Fixpoint drop (n : nat) (s : string) : string :=
  match n, s with
  | S n', String _ s' => drop n' s'
  | _, _ => s
  end.

(** [sorted(l)] and [sorted(l, key=...)] for a strict order [lt] on the
    elements (or on their keys).  Python's sort is stable and compares
    with [<] only; the result of a stable sort is determined by its input,
    so it is modelled by a stable insertion sort: an element is put in
    front of the first element that is not smaller than it. *)
Section Sorted.
Context {A : Type} (lt : A -> A -> bool).

Fixpoint insert_by (x : A) (l : list A) : list A :=
  match l with
  | [] => [x]
  | y :: l' => if lt y x then y :: insert_by x l' else x :: y :: l'
  end.

Fixpoint sorted_by (l : list A) : list A :=
  match l with
  | [] => []
  | x :: l' => insert_by x (sorted_by l')
  end.

(** [a] is not after [b]: [b < a] fails. *)
Definition not_after (a b : A) : Prop := lt b a = false.
End Sorted.

End PyStr.

(** ** check_compose_images.py: version heuristics *)

Module Images.
Import PyStr.

(** One optional group [(?:\.(\d+))?] of [SEMVER_RE]: the captured digits
    (if the group takes part in the match) and the remaining input. *)
Definition opt_dot_digits (s : string) : option string * string :=
  match s with
  | String "."%char s' =>
      let '(d, r) := span_digits s' in
      if is_empty d then (None, s) else (Some d, r)
  | _ => (None, s)
  end.

(** [$] without [re.MULTILINE]: the end of the string, or just before a
    newline that is the last character. *)
Definition at_dollar (s : string) : bool :=
  match s with
  | EmptyString => true
  | String "010"%char EmptyString => true
  | _ => false
  end.

(** [SEMVER_RE.match(s)] with
    [SEMVER_RE = ^v?(\d+)(?:\.(\d+))?(?:\.(\d+))?$]: the three groups when
    the string matches.  Every quantifier is greedy and no shorter choice
    can lead to a match (the character after a shortened digit run is a
    digit, after a skipped ["v"] a ["v"], after a skipped group a ["."]),
    so one left-to-right scan decides the match. *)
Definition SEMVER_RE_match (s : string)
  : option (string * option string * option string) :=
  let s1 := match s with String "v"%char s' => s' | _ => s end in
  let '(g1, r1) := span_digits s1 in
  if is_empty g1 then None
  else
    let '(g2, r2) := opt_dot_digits r1 in
    let '(g3, r3) := opt_dot_digits r2 in
    if at_dollar r3 then Some (g1, g2, g3) else None.

(** Split ['2.7-alpine'] into [('2.7', 'alpine')], ['v1.7.0'] into
    [('v1.7.0', None)]. *)
Definition split_suffix (tag : string) : string * option string :=
  if contains "-"%char tag && negb (startswith "sha256:" tag) then
    match split_once "-"%char tag with
    | Some (base, suffix) => (base, Some suffix)
    | None => (tag, None) (* not reached: "-" occurs in [tag] *)
    end
  else (tag, None).

(** [(maj, min, pat, had_v_prefix)]. *)
Definition version : Type := Z * Z * Z * bool.

Definition parse_semverish (s : string) : outcome (option version) :=
  match SEMVER_RE_match s with
  | None => Returns None
  | Some (g1, g2, g3) =>
      let had_v := startswith "v" s in
      let! maj := int g1 in
      let! minor := match g2 with Some d => int d | None => Returns (-1) end in
      let! patch := match g3 with Some d => int d | None => Returns (-1) end in
      Returns (Some (maj, minor, patch, had_v))
  end.

Definition semver_sort_key (v : version) : Z * Z * Z :=
  let '(maj, minor, patch, _) := v in
  (maj, Z.max minor 0, Z.max patch 0).

(** Python's ordering of equal-length tuples of integers: decided by the
    first position where the two differ. *)
Definition key_ltb (a b : Z * Z * Z) : bool :=
  let '(a1, a2, a3) := a in
  let '(b1, b2, b3) := b in
  if negb (a1 =? b1) then a1 <? b1
  else if negb (a2 =? b2) then a2 <? b2
  else a3 <? b3.

Definition key_leb (a b : Z * Z * Z) : bool :=
  let '(a1, a2, a3) := a in
  let '(b1, b2, b3) := b in
  if negb (a1 =? b1) then a1 <=? b1
  else if negb (a2 =? b2) then a2 <=? b2
  else a3 <=? b3.

(** [sorted(l, key=lambda x: semver_sort_key(x[1]))] is
    [sorted_by] (see [PyStr]) at the order of the keys. *)
Definition by_key (x y : string * version) : bool :=
  key_ltb (semver_sort_key (snd x)) (semver_sort_key (snd y)).

Definition candidate : Type := string * version.

(** The loop filling [candidates]: tags with the old tag's suffix whose
    base is semver-like, in the order of [all_tags].  The first base that
    [parse_semverish] raises for ends the loop. *)
Fixpoint filter_candidates (old_suffix : option string)
    (all_tags : list string) : outcome (list candidate) :=
  match all_tags with
  | [] => Returns []
  | t :: ts =>
      let '(b, sfx) := split_suffix t in
      if negb (bool_decide (old_suffix = sfx)) then
        filter_candidates old_suffix ts
      else
        let! pv := parse_semverish b in
        let! candidates := filter_candidates old_suffix ts in
        Returns match pv with
                | None => candidates
                | Some pv => (t, pv) :: candidates
                end
  end.

(** The loop filling [preferred] and [fallback]. *)
Fixpoint split_pools (old_maj old_min : Z) (candidates : list candidate)
  : list candidate * list candidate :=
  match candidates with
  | [] => ([], [])
  | (t, pv) :: cs =>
      let '(preferred, fallback) := split_pools old_maj old_min cs in
      let '(maj, minor, _patch, _) := pv in
      if negb (maj =? old_maj) then (preferred, fallback)
      else if old_min >=? 0 then
        if minor =? old_min then ((t, pv) :: preferred, fallback)
        else (preferred, (t, pv) :: fallback)
      else ((t, pv) :: preferred, fallback)
  end.

(** [pool = preferred if preferred else fallback]. *)
Definition choose_pool (preferred fallback : list candidate)
  : list candidate :=
  match preferred with
  | [] => fallback
  | _ :: _ => preferred
  end.

(** [sorted(pool, key=lambda x: semver_sort_key(x[1]))[-1]]; [None] for
    the empty pool and for it alone (see [pick_best_None]), so that in
    [choose_newer_tag] the case [None] is the branch of [if not pool]. *)
Definition pick_best (pool : list candidate) : option candidate :=
  last (sorted_by by_key pool).

Definition choose_newer_tag (old_tag : string) (all_tags : list string)
  : outcome (option string * string) :=
  if (old_tag =? "latest")%string || (old_tag =? "stable")%string then
    Returns (None, "'" +:+ old_tag +:+ "' is not a version tag")
  else
    let '(old_base, old_suffix) := split_suffix old_tag in
    let! old_v := parse_semverish old_base in
    match old_v with
    | None => Returns (None, "tag not semver-like; no safe upgrade suggestion")
    | Some old_v =>
        let '(old_maj, old_min, _old_pat, _) := old_v in
        let! candidates := filter_candidates old_suffix all_tags in
        match candidates with
        | [] => Returns (None, "no semver-like candidate tags found")
        | _ :: _ =>
            let '(preferred, fallback) :=
              split_pools old_maj old_min candidates in
            let pool := choose_pool preferred fallback in
            match pick_best pool with
            | None => Returns (None, "no newer tag found in same major")
            | Some (best_tag, best_v) =>
                if key_leb (semver_sort_key best_v) (semver_sort_key old_v)
                then Returns (None, "already at newest matching tag")
                else Returns (Some best_tag, "newer version available")
            end
        end
    end.

(** [t in ("latest", "stable")]. *)
Definition is_floating (t : string) : bool :=
  (t =? "latest")%string || (t =? "stable")%string.

(** *** Notions used to state the properties of the heuristic *)

Definition base_of (tag : string) : string := fst (split_suffix tag).
Definition suffix_of (tag : string) : option string := snd (split_suffix tag).

(** The part of a tag after its first hyphen, if it has one. *)
Definition after_first_hyphen (tag : string) : option string :=
  snd <$> split_once "-"%char tag.

Definition major_of (v : version) : Z := let '(maj, _, _, _) := v in maj.
Definition minor_of (v : version) : Z := let '(_, minor, _, _) := v in minor.

(** The lexicographic order on (major, minor-or-0, patch-or-0). *)
Definition lex_lt (a b : Z * Z * Z) : Prop :=
  let '(a1, a2, a3) := a in
  let '(b1, b2, b3) := b in
  a1 < b1 \/ (a1 = b1 /\ (a2 < b2 \/ (a2 = b2 /\ a3 < b3))).

(** The two pools as filters of the candidate list. *)
Definition in_preferred (old_maj old_min : Z) (c : candidate) : bool :=
  (major_of (snd c) =? old_maj)
  && (negb (old_min >=? 0) || (minor_of (snd c) =? old_min)).

Definition in_fallback (old_maj old_min : Z) (c : candidate) : bool :=
  (major_of (snd c) =? old_maj)
  && (old_min >=? 0) && negb (minor_of (snd c) =? old_min).

(** The candidates of the old tag's major and minor. *)
Definition minor_matching (old_v : version) (candidates : list candidate)
  : list candidate :=
  List.filter
    (fun c => (major_of (snd c) =? major_of old_v)
              && (minor_of (snd c) =? minor_of old_v))
    candidates.

(** The old tag's version and the candidate picked from the pool, when
    the heuristic gets as far as picking one: nothing has been raised and
    the pool is not empty. *)
Definition selection (old_tag : string) (all_tags : list string)
  : option (version * candidate) :=
  if is_floating old_tag then None
  else
    match parse_semverish (base_of old_tag) with
    | Returns (Some old_v) =>
        match filter_candidates (suffix_of old_tag) all_tags with
        | Returns candidates =>
            let '(preferred, fallback) :=
              split_pools (major_of old_v) (minor_of old_v) candidates in
            match pick_best (choose_pool preferred fallback) with
            | None => None
            | Some best => Some (old_v, best)
            end
        | Raises _ => None
        end
    | _ => None
    end.

(** The outcome for a picked candidate: the last step of the heuristic. *)
Definition verdict (old_v : version) (best : candidate)
  : option string * string :=
  if key_leb (semver_sort_key (snd best)) (semver_sort_key old_v)
  then (None, "already at newest matching tag")
  else (Some (fst best), "newer version available").

(** A non-empty run of decimal digits. *)
Fixpoint all_digits (d : string) : bool :=
  match d with
  | EmptyString => true
  | String c d' => is_digit c && all_digits d'
  end.

Definition digits (d : string) : bool := negb (is_empty d) && all_digits d.

(** A text at whose front a run of digits ends. *)
Definition no_digit_head (r : string) : bool :=
  match r with
  | EmptyString => true
  | String a _ => negb (is_digit a)
  end.

(** The texts of the pattern [v?MAJOR(.MINOR)?(.PATCH)?]: an optional
    ["v"], the major digits, and then nothing, a minor, or a minor and a
    patch. *)
Definition semver_text (had_v : bool) (major : string)
    (rest : option (string * option string)) : string :=
  (if had_v then "v" else EmptyString)
  +:+ major
  +:+ match rest with
      | None => EmptyString
      | Some (minor, None) => "." +:+ minor
      | Some (minor, Some patch) => "." +:+ minor +:+ "." +:+ patch
      end.

Definition rest_digits (rest : option (string * option string)) : bool :=
  match rest with
  | None => true
  | Some (minor, None) => digits minor
  | Some (minor, Some patch) => digits minor && digits patch
  end.

Definition minor_text (rest : option (string * option string))
  : option string := fst <$> rest.
Definition patch_text (rest : option (string * option string))
  : option string := rest ≫= snd.

(** Two tags that differ at most in the ["v"] in front of the base: the
    same suffix, and bases for which [parse_semverish] returns, both times
    [None] or both times the same three numbers. *)
Definition same_but_prefix (t t' : string) : Prop :=
  suffix_of t = suffix_of t'
  /\ exists v v',
       parse_semverish (base_of t) = Returns v
       /\ parse_semverish (base_of t') = Returns v'
       /\ fst <$> v = fst <$> v'.

(** Two candidates with the same three numbers whose tags are related by
    [P]. *)
Definition alike (P : string -> string -> Prop) (c c' : candidate) : Prop :=
  P (fst c) (fst c') /\ fst (snd c) = fst (snd c').

(** *** Image references *)

Record ImageRef : Type := {
  raw : string;
  registry : string;   (* docker.io, ghcr.io, ... *)
  repo : string;       (* library/nginx, user/app *)
  tag : string;        (* default 'latest' if absent *)
  normalized : string  (* registry/repo:tag *)
}.

(** Returns [(registry, repo, tag)]; a digest after ["@"] is dropped. *)
Definition _split_image (s : string) : string * string * string :=
  let s := strip_char "'"%char (strip_char "034"%char (strip s)) in
  let s :=
    if contains "@"%char s then
      match split_once "@"%char s with
      | Some (before, _) => strip before
      | None => s (* not reached: "@" occurs in [s] *)
      end
    else s in
  (* tag split (a registry port is not a tag) *)
  let last_slash := rfind "/"%char s in
  let last_colon := rfind ":"%char s in
  let '(tag, name) :=
    if last_colon >? last_slash then
      (strip (drop (Z.to_nat (last_colon + 1)) s),
       strip (take (Z.to_nat last_colon) s))
    else ("latest", s) in
  (* registry vs repo *)
  match split_once "/"%char name with
  | None => ("docker.io", "library/" +:+ name, tag)
  | Some (first, rest) =>
      if contains "."%char first || contains ":"%char first
         || (first =? "localhost")%string
      then (first, rest, tag)
      else ("docker.io", name, tag)
  end.

Definition normalize_image (raw : string) : ImageRef :=
  let '(registry, repo, tag) := _split_image raw in
  {| raw := raw; registry := registry; repo := repo; tag := tag;
     normalized := registry +:+ "/" +:+ repo +:+ ":" +:+ tag |}.

(** *** The entry point

    What [main] meets outside the process is gathered in a [world]: the
    path functions [os.path.abspath], [os.path.join], [os.path.relpath]
    and [os.path.isfile]; the paths [glob.glob] returns for a pattern;
    what [extract_images_from_compose_yaml] comes to for a file: the
    images, or the exception of [open] or [read], which are outside its
    [try]; and what [dockerhub_list_tags] comes to for a repository: the
    tag rows, an [urllib.error.HTTPError] with its code, any other
    exception with its text, or nothing at all ([None]) when the loop over
    the pages never ends (see [Registry.list_tags_loop]).  The path
    functions, [glob.glob] and printing are taken to return. *)

Inductive hub_reply : Type :=
| TagRows (rows : list (string * option string))
| HTTPError (code : Z)
| OtherError (msg : string).

Record world : Type := {
  abspath : string -> string;
  join : string -> string -> string;
  relpath : string -> string -> string;
  isfile : string -> bool;
  glob_recursive : string -> list string;
  extract_images_from_compose_yaml : string -> outcome (list string);
  dockerhub_list_tags : string -> option hub_reply
}.

Definition find_compose_files (w : world) (root pattern : string)
  : list string :=
  let full_pat := join w root pattern in
  let files := glob_recursive w full_pat in
  sorted_by String.ltb (List.filter (isfile w) files).

Inductive status : Type := UPGRADE | CURRENT | FLOATING | UNSUPPORTED | ERROR.

(** One printed table entry: the status line and the "used in:" line. *)
Record row : Type := {
  row_status : status;
  row_registry : string;
  row_image : string;
  row_old : string;
  row_new : option string;
  row_note : string;
  row_used_in : list string
}.

Record run : Type := {
  exit_code : Z;
  stderr : list string;
  table : list row
}.

(** How a run of the script ends.  [main] returns, and the process exits
    with the value returned ([raise SystemExit(main())]); or an exception
    leaves [main], and the interpreter prints the traceback and exits
    with status 1; or the run never ends. *)
Inductive ending : Type :=
| Exits (r : run)
| Uncaught (e : exception)
| NeverEnds.

(** The exit status of the process, when it ends. *)
Definition exit_status (e : ending) : option Z :=
  match e with
  | Exits r => Some (exit_code r)
  | Uncaught _ => Some 1
  | NeverEnds => None
  end.

(** [usage.setdefault(img, set()).add(rel)] for every image of a file. *)
Definition add_usage (rel : string) (usage : gmap string (gset string))
    (img : string) : gmap string (gset string) :=
  <[img := default ∅ (usage !! img) ∪ {[rel]}]> usage.

(** The loop filling [usage]: image_raw -> set(relpaths).  An exception
    of [extract_images_from_compose_yaml] ends the loop. *)
Fixpoint collect_usage (w : world) (root : string) (files : list string)
    (usage : gmap string (gset string))
  : outcome (gmap string (gset string)) :=
  match files with
  | [] => Returns usage
  | f :: files' =>
      let! imgs := extract_images_from_compose_yaml w f in
      collect_usage w root files'
        (fold_left (add_usage (relpath w f root)) imgs usage)
  end.

(** [[normalize_image(raw) for raw in sorted(usage.keys())]]. *)
Definition image_refs (usage : gmap string (gset string)) : list ImageRef :=
  map normalize_image (sorted_by String.ltb (elements (dom usage))).

(** The body of the loop over [refs]: the tag-list cache before and after,
    and the entry printed for [ref]; [None] when listing the tags never
    ends.  The [try] block covers the registry call and the heuristic: an
    exception of either is handled, the handlers set the status and the
    note and leave [new_tag] at [None].  When the heuristic raises, the
    tag list is in the cache already. *)
Definition check_ref (w : world) (usage : gmap string (gset string))
    (hub_cache : gmap string (list string)) (ref : ImageRef)
  : option (gmap string (list string) * row) :=
  let rel_files :=
    sorted_by String.ltb (elements (default ∅ (usage !! raw ref))) in
  let entry st new note :=
    {| row_status := st; row_registry := registry ref;
       row_image := repo ref; row_old := tag ref; row_new := new;
       row_note := note; row_used_in := rel_files |} in
  if (registry ref =? "docker.io")%string then
    let fetched :=
      match hub_cache !! repo ref with
      | Some tags => Some (inr (hub_cache, tags))
      | None =>
          match dockerhub_list_tags w (repo ref) with
          | None => None
          | Some (TagRows tag_rows) =>
              let tags := map fst tag_rows in
              Some (inr (<[repo ref := tags]> hub_cache, tags))
          | Some (HTTPError code) =>
              Some (inl ("Docker Hub HTTP "
                           +:+ NilZero.string_of_int (Z.to_int code)))
          | Some (OtherError msg) => Some (inl ("Docker Hub error: " +:+ msg))
          end
      end in
    match fetched with
    | None => None
    | Some (inr (hub_cache', tags)) =>
        match choose_newer_tag (tag ref) tags with
        | Returns (new_tag, note) =>
            let st :=
              if is_floating (tag ref) then FLOATING
              else match new_tag with
                   | Some t => if is_empty t then CURRENT else UPGRADE
                   | None => CURRENT
                   end in
            Some (hub_cache', entry st new_tag note)
        | Raises e =>
            Some (hub_cache',
                  entry ERROR None
                    ("Docker Hub error: " +:+ str_of_exception e))
        end
    | Some (inl note) => Some (hub_cache, entry ERROR None note)
    end
  else
    Some (hub_cache,
          entry UNSUPPORTED None
            "non-Docker Hub registry; tag listing not implemented").

(** The loop over [refs], threading [hub_cache]. *)
Fixpoint check_refs (w : world) (usage : gmap string (gset string))
    (hub_cache : gmap string (list string)) (refs : list ImageRef)
  : option (list row) :=
  match refs with
  | [] => Some []
  | ref :: refs' =>
      match check_ref w usage hub_cache ref with
      | None => None
      | Some (hub_cache', r) =>
          match check_refs w usage hub_cache' refs' with
          | None => None
          | Some rows => Some (r :: rows)
          end
      end
  end.

(** [main] for the command line arguments [--root args_root] and
    [--glob args_glob]. *)
Definition main (args_root args_glob : string) (w : world) : ending :=
  let root := abspath w args_root in
  let files := find_compose_files w root args_glob in
  match files with
  | [] =>
      Exits {| exit_code := 2;
               stderr := ["No compose files found under " +:+ root
                            +:+ " matching " +:+ args_glob];
               table := [] |}
  | _ :: _ =>
      match collect_usage w root files ∅ with
      | Raises e => Uncaught e
      | Returns usage =>
          let refs := image_refs usage in
          match check_refs w usage ∅ refs with
          | None => NeverEnds
          | Some rows =>
              Exits {| exit_code := 0; stderr := []; table := rows |}
          end
      end
  end.

(** Listing the tags of a repository raises: the registry has no tag rows
    for it. *)
Definition listing_fails (w : world) (repository : string) : Prop :=
  exists reply,
    dockerhub_list_tags w repository = Some reply
    /\ forall tag_rows, reply <> TagRows tag_rows.

(** Listing the tags ends, with the rows or with an exception, for every
    repository of Docker Hub among the references. *)
Definition listings_end (w : world) (refs : list ImageRef) : Prop :=
  forall ref,
    In ref refs -> registry ref = "docker.io" ->
    is_Some (dockerhub_list_tags w (repo ref)).

(** The cache holds tag lists of repositories the registry answered for. *)
Definition cache_sound (w : world) (hub_cache : gmap string (list string))
  : Prop :=
  forall repository tags,
    hub_cache !! repository = Some tags ->
    exists tag_rows,
      dockerhub_list_tags w repository = Some (TagRows tag_rows).

(** What a table entry owes to its image reference: it shows the
    reference, and its status is [ERROR] when the reference is on Docker
    Hub and listing the tags of its repository fails. *)
Definition entry_of (w : world) (ref : ImageRef) (r : row) : Prop :=
  row_registry r = registry ref /\ row_image r = repo ref
  /\ row_old r = tag ref
  /\ (registry ref = "docker.io" -> listing_fails w (repo ref) ->
      row_status r = ERROR /\ row_new r = None).

(** The sentence on the exit code, read for every run: [main] returns 2
    when no compose file matches, and 0 otherwise. *)
Definition exits_2_or_0 (args_root args_glob : string) (w : world) : Prop :=
  exists r,
    main args_root args_glob w = Exits r
    /\ exit_code r
       = match find_compose_files w (abspath w args_root) args_glob with
         | [] => 2
         | _ :: _ => 0
         end.

(** A world to run [main] in: one compose file with three images, and a
    registry that fails for one repository and answers for another. *)
Definition example_world : world :=
  {| abspath := fun p => p;
     join := fun a b => a +:+ "/" +:+ b;
     relpath := fun p start => drop (S (String.length start)) p;
     isfile := fun p => negb (p =? "/srv/stacks/docker-compose.d")%string;
     glob_recursive := fun pat =>
       if (pat =? "/srv/stacks/**/docker-compose*.yml")%string
       then ["/srv/stacks/web/docker-compose.yml";
             "/srv/stacks/docker-compose.d"]
       else [];
     extract_images_from_compose_yaml := fun _ =>
       Returns ["nginx:1.25"; "redis:7"; "ghcr.io/foo/bar:1.2"];
     dockerhub_list_tags := fun repo =>
       if (repo =? "library/nginx")%string then Some (HTTPError 503)
       else Some (TagRows [("7", None); ("7.2", None); ("8", None)]) |}.

(** The same world with a compose file that cannot be read, and with a
    registry whose pages never end. *)
Definition unreadable_world : world :=
  {| abspath := abspath example_world;
     join := join example_world;
     relpath := relpath example_world;
     isfile := isfile example_world;
     glob_recursive := glob_recursive example_world;
     extract_images_from_compose_yaml := fun f =>
       Raises (OSError ("[Errno 13] Permission denied: '" +:+ f +:+ "'"));
     dockerhub_list_tags := dockerhub_list_tags example_world |}.

Definition endless_world : world :=
  {| abspath := abspath example_world;
     join := join example_world;
     relpath := relpath example_world;
     isfile := isfile example_world;
     glob_recursive := glob_recursive example_world;
     extract_images_from_compose_yaml :=
       extract_images_from_compose_yaml example_world;
     dockerhub_list_tags := fun _ => None |}.

(** The registry of the example with one more tag for every repository: a
    run of 4301 digits. *)
Definition long_tag : string :=
  string_of_list_ascii (List.repeat "1"%char 4301).

Definition long_tag_world : world :=
  {| abspath := abspath example_world;
     join := join example_world;
     relpath := relpath example_world;
     isfile := isfile example_world;
     glob_recursive := glob_recursive example_world;
     extract_images_from_compose_yaml :=
       extract_images_from_compose_yaml example_world;
     dockerhub_list_tags := fun repo =>
       Some (TagRows [("7", None); (long_tag, None); ("8", None)]) |}.

End Images.

(** ** The heuristic when no conversion raises

    The functions of the heuristic with [int_value] for [int]: what they
    return with the limit on digit strings lifted
    ([sys.set_int_max_str_digits(0)]), and so what the functions of
    [Images] return whenever they return (see [HeuristicFacts]). *)

Module Values.
Import PyStr Images.

Definition parse_semverish_value (s : string) : option version :=
  match SEMVER_RE_match s with
  | None => None
  | Some (g1, g2, g3) =>
      let had_v := startswith "v" s in
      let maj := int_value g1 in
      let minor := match g2 with Some d => int_value d | None => -1 end in
      let patch := match g3 with Some d => int_value d | None => -1 end in
      Some (maj, minor, patch, had_v)
  end.

Fixpoint filter_candidates_value (old_suffix : option string)
    (all_tags : list string) : list candidate :=
  match all_tags with
  | [] => []
  | t :: ts =>
      let '(b, sfx) := split_suffix t in
      if negb (bool_decide (old_suffix = sfx)) then
        filter_candidates_value old_suffix ts
      else
        match parse_semverish_value b with
        | None => filter_candidates_value old_suffix ts
        | Some pv => (t, pv) :: filter_candidates_value old_suffix ts
        end
  end.

Definition choose_newer_tag_value (old_tag : string) (all_tags : list string)
  : option string * string :=
  if (old_tag =? "latest")%string || (old_tag =? "stable")%string then
    (None, "'" +:+ old_tag +:+ "' is not a version tag")
  else
    let '(old_base, old_suffix) := split_suffix old_tag in
    match parse_semverish_value old_base with
    | None => (None, "tag not semver-like; no safe upgrade suggestion")
    | Some old_v =>
        let '(old_maj, old_min, _old_pat, _) := old_v in
        let candidates := filter_candidates_value old_suffix all_tags in
        match candidates with
        | [] => (None, "no semver-like candidate tags found")
        | _ :: _ =>
            let '(preferred, fallback) :=
              split_pools old_maj old_min candidates in
            let pool := choose_pool preferred fallback in
            match pick_best pool with
            | None => (None, "no newer tag found in same major")
            | Some (best_tag, best_v) =>
                if key_leb (semver_sort_key best_v) (semver_sort_key old_v)
                then (None, "already at newest matching tag")
                else (Some best_tag, "newer version available")
            end
        end
    end.

Definition selection_value (old_tag : string) (all_tags : list string)
  : option (version * candidate) :=
  if is_floating old_tag then None
  else
    match parse_semverish_value (base_of old_tag) with
    | None => None
    | Some old_v =>
        let '(preferred, fallback) :=
          split_pools (major_of old_v) (minor_of old_v)
            (filter_candidates_value (suffix_of old_tag) all_tags) in
        match pick_best (choose_pool preferred fallback) with
        | None => None
        | Some best => Some (old_v, best)
        end
    end.

Definition same_but_prefix_value (t t' : string) : Prop :=
  suffix_of t = suffix_of t'
  /\ (fst <$> parse_semverish_value (base_of t))
     = (fst <$> parse_semverish_value (base_of t')).

End Values.

(** ** docker_volume_sync.py: the whitelist filter *)

Module VolumeSync.

Section ShouldIncludeFile.

(** [pathlib.Path] with the two operations the filter uses:
    [relative_to], which raises [ValueError] ([None]) when the file is
    not below the root, and [str]. *)
Context {Path : Type}.
Variable relative_to : Path -> Path -> option Path.
Variable str : Path -> string.

(** [matches_pattern], which is [fnmatch.fnmatch(file_path, pattern)]. *)
Variable matches_pattern : string -> string -> bool.

(** [self.whitelist_patterns]: the [services] table of the whitelist
    file, service name -> ("include" | "exclude") -> patterns. *)
Variable whitelist_patterns : gmap string (gmap string (list string)).

(** The decision and the line sent to [logger.debug]; [None] when
    [relative_to] raises. *)
Definition should_include_file (file_path : Path) (service : string)
    (volume_root : Path) : option (bool * string) :=
  match relative_to file_path volume_root with
  | None => None
  | Some relative_path =>
      let relative_str := str relative_path in
      let patterns := default ∅ (whitelist_patterns !! service) in
      let include_patterns := default [] (patterns !! "include") in
      let exclude_patterns := default [] (patterns !! "exclude") in
      (* exclude patterns first (they take precedence) *)
      match find (matches_pattern relative_str) exclude_patterns with
      | Some pattern =>
          Some (false,
                "Excluding " +:+ relative_str
                  +:+ " (matches exclude pattern: " +:+ pattern +:+ ")")
      | None =>
          match find (matches_pattern relative_str) include_patterns with
          | Some pattern =>
              Some (true,
                    "Including " +:+ relative_str
                      +:+ " (matches include pattern: " +:+ pattern
                      +:+ ")")
          | None =>
              Some (false,
                    "Excluding " +:+ relative_str
                      +:+ " (no include pattern match)")
          end
      end
  end.

(** The patterns of one kind (["include"] or ["exclude"]) that the
    whitelist has for a service; none when the service or the kind is
    missing. *)
Definition patterns_of (service kind : string) : list string :=
  default [] (default ∅ (whitelist_patterns !! service) !! kind).

End ShouldIncludeFile.

(** An instance to run the filter on: paths as lists of components, a
    pattern matching only the path equal to it, and a small whitelist. *)
Definition parts_relative_to (p root : list string) : option (list string) :=
  if bool_decide (List.firstn (length root) p = root)
  then Some (List.skipn (length root) p) else None.

Definition parts_str (p : list string) : string :=
  match p with
  | [] => "."
  | c :: cs => fold_left (fun acc d => acc +:+ "/" +:+ d) cs c
  end.

Definition example_whitelist : gmap string (gmap string (list string)) :=
  {[ "node-red" :=
       {[ "include" := ["flows.json"; "flows_cred.json"; "settings.js"];
          "exclude" := ["flows_cred.json"; ".sessions.json"] ]} ]}.

End VolumeSync.

(** ** Further notions for the heuristic *)

Module HeuristicNotions.
Import PyStr Images Values.

(** The candidates of the old tag's major. *)
Definition major_matching (old_v : version) (candidates : list candidate)
  : list candidate :=
  List.filter (fun c => major_of (snd c) =? major_of old_v) candidates.

(** The candidates the pick is made among: those of the old tag's major
    and minor when the old tag has a minor and some candidate has both,
    and all those of the old tag's major otherwise. *)
Definition rivals (old_v : version) (candidates : list candidate)
  : list candidate :=
  if (minor_of old_v >=? 0)
     && negb (bool_decide (minor_matching old_v candidates = []))
  then minor_matching old_v candidates
  else major_matching old_v candidates.

(** The text matched by [$]: nothing, or one final newline. *)
Definition dollar_text (nl : bool) : string :=
  if nl then String "010"%char EmptyString else EmptyString.

(** The version that the parts of a text of the pattern stand for. *)
Definition version_of (had_v : bool) (major : string)
    (rest : option (string * option string)) : version :=
  (int_value major,
   default (-1) (int_value <$> minor_text rest),
   default (-1) (int_value <$> patch_text rest),
   had_v).

(** Some run of digits among the parts of a text of the pattern is longer
    than [int] converts. *)
Definition rest_exceeds_limit (rest : option (string * option string))
  : bool :=
  match rest with
  | None => false
  | Some (minor, None) => exceeds_limit minor
  | Some (minor, Some patch) => exceeds_limit minor || exceeds_limit patch
  end.

Definition text_exceeds_limit (major : string)
    (rest : option (string * option string)) : bool :=
  exceeds_limit major || rest_exceeds_limit rest.

(** The key of a tag base in the words of the specification, read off the
    text and not off a parsed version: the major number, the minor number
    or 0 when the base has no minor, the patch number or 0 when it has no
    patch.  No key for a base that is not of the pattern. *)
Definition tag_key (base : string) : option (Z * Z * Z) :=
  match SEMVER_RE_match base with
  | None => None
  | Some (major, minor, patch) =>
      Some (int_value major,
            match minor with Some d => int_value d | None => 0 end,
            match patch with Some d => int_value d | None => 0 end)
  end.

(** The sentence on absent parts, read for every base of the pattern:
    [parse_semverish] returns a version, with [-1] for an absent minor and
    for an absent patch. *)
Definition absent_parts_minus_one (had_v : bool) (major : string)
    (rest : option (string * option string)) : Prop :=
  exists maj minor patch flag,
    parse_semverish (semver_text had_v major rest)
    = Returns (Some (maj, minor, patch, flag))
    /\ (minor_text rest = None -> minor = -1)
    /\ (patch_text rest = None -> patch = -1).

End HeuristicNotions.

(** ** Further notions for image references and the table *)

Module ImagesNotions.
Import PyStr Images.

(** A character that [_split_image] strips from the ends of its input:
    white space and the two quotes. *)
Definition stripped_char (a : ascii) : bool :=
  is_space a || Ascii.eqb "034"%char a || Ascii.eqb "'"%char a.

Fixpoint last_char (a : ascii) (s : string) : ascii :=
  match s with
  | EmptyString => a
  | String b s' => last_char b s'
  end.

(** A non-empty text that neither starts nor ends with a character that
    [_split_image] strips. *)
Definition plain_ends (s : string) : bool :=
  match s with
  | EmptyString => false
  | String a s' => negb (stripped_char a) && negb (stripped_char (last_char a s'))
  end.

(** How the columns of a table entry hang together. *)
Definition status_fits (r : row) : Prop :=
  (is_Some (row_new r) <-> row_status r = UPGRADE)
  /\ (row_status r = UNSUPPORTED <-> row_registry r <> "docker.io")
  /\ (row_status r = FLOATING -> is_floating (row_old r) = true)
  /\ (row_status r = UPGRADE \/ row_status r = CURRENT ->
      is_floating (row_old r) = false).

(** The images that the found files refer to. *)
Definition images_of (w : world) (files : list string) : list string :=
  concat
    (map (fun f =>
            match extract_images_from_compose_yaml w f with
            | Returns imgs => imgs
            | Raises _ => []
            end)
       files).

(** Every found file is read: [extract_images_from_compose_yaml] returns
    for it. *)
Definition all_read (w : world) (files : list string) : Prop :=
  forall f, In f files ->
    exists imgs, extract_images_from_compose_yaml w f = Returns imgs.

(** [a] comes before [b], or is [b], in the order of Python's [str]. *)
Definition str_le (a b : string) : Prop := String.ltb b a = false.

End ImagesNotions.

(** ** check_compose_images.py: listing the tags of a repository *)

Module Registry.
Import PyStr.

(** The values [json.loads] returns.  [F] stands for Python's [float]; an
    object is given by its items, whose keys are distinct. *)
Local Unset Elimination Schemes.
Inductive json (F : Type) : Type :=
| JNull
| JBool (b : bool)
| JInt (n : Z)
| JFloat (x : F)
| JStr (s : string)
| JList (items : list (json F))
| JDict (items : list (string * json F)).
Local Set Elimination Schemes.

Arguments JNull {F}.
Arguments JBool {F} b.
Arguments JInt {F} n.
Arguments JFloat {F} x.
Arguments JStr {F} s.
Arguments JList {F} items.
Arguments JDict {F} items.

(** What a call may raise: [urllib.error.HTTPError] with its code, or any
    other exception with its text. *)
Inductive raised : Type :=
| RaisedHTTPError (code : Z)
| RaisedOther (msg : string).

Section ListTags.
Context {F : Type}.

(** Whether a float is not zero. *)
Variable float_nonzero : F -> bool.

(** [_http_json(url)]: the decoded body of the response, or what the
    request, the transfer or the decoding raises.  The argument is the
    value that the loop holds in [url], a text or not. *)
Variable _http_json : json F -> raised + json F.

(** [d.get(key)] on the items of an object: [None] for a missing key. *)
Fixpoint dict_get (key : string) (items : list (string * json F))
  : option (json F) :=
  match items with
  | [] => None
  | (k, v) :: rest => if (k =? key)%string then Some v else dict_get key rest
  end.

(** The truth value of a value, as [while url:] takes it. *)
Definition truthy (v : json F) : bool :=
  match v with
  | JNull => false
  | JBool b => b
  | JInt n => negb (n =? 0)
  | JFloat x => float_nonzero x
  | JStr s => negb (is_empty s)
  | JList items => match items with [] => false | _ :: _ => true end
  | JDict items => match items with [] => false | _ :: _ => true end
  end.

Definition type_name (v : json F) : string :=
  match v with
  | JNull => "NoneType"
  | JBool _ => "bool"
  | JInt _ => "int"
  | JFloat _ => "float"
  | JStr _ => "str"
  | JList _ => "list"
  | JDict _ => "dict"
  end.

(** The rows that the inner loop appends for the results of one page:
    [(r["name"], r.get("last_updated"))] for each result that is an object
    with a text under ["name"]. *)
Fixpoint rows_of (results : list (json F)) : list (string * json F) :=
  match results with
  | [] => []
  | r :: rest =>
      match r with
      | JDict items =>
          match dict_get "name" items with
          | Some (JStr name) =>
              (name, default JNull (dict_get "last_updated" items))
                :: rows_of rest
          | _ => rows_of rest
          end
      | _ => rows_of rest
      end
  end.

(** The rows of one page: those of [j.get("results", [])] when that is a
    list, none otherwise. *)
Definition page_rows (page : list (string * json F))
  : list (string * json F) :=
  match default (JList []) (dict_get "results" page) with
  | JList results => rows_of results
  | _ => []
  end.

(** [j.get("next")]. *)
Definition page_next (page : list (string * json F)) : json F :=
  default JNull (dict_get "next" page).

(** The loop [while url:], with the rows gathered so far.  Each turn
    takes one unit of [fuel]; [None] tells that the fuel did not suffice.
    A response that is not an object has no [get]: [AttributeError]. *)
Fixpoint list_tags_loop (fuel : nat) (url : json F)
    (tags : list (string * json F))
  : option (raised + list (string * json F)) :=
  if truthy url then
    match fuel with
    | O => None
    | S fuel' =>
        match _http_json url with
        | inl e => Some (inl e)
        | inr (JDict page) =>
            list_tags_loop fuel' (page_next page) (tags ++ page_rows page)
        | inr j =>
            Some (inl (RaisedOther
                         ("'" +:+ type_name j
                            +:+ "' object has no attribute 'get'")))
        end
    end
  else Some (inr tags).

(** Returns list of [(tag_name, last_updated)] for Docker Hub public
    repos. *)
Definition dockerhub_list_tags (fuel : nat) (repo : string) (page_size : Z)
  : option (raised + list (string * json F)) :=
  let url :=
    "https://registry.hub.docker.com/v2/repositories/" +:+ repo
      +:+ "/tags?page_size=" +:+ NilZero.string_of_int (Z.to_int page_size) in
  list_tags_loop fuel (JStr url) [].

(** The pages that the loop goes through from [url]: each is the response
    for the [next] of the one before, the first the response for [url], and
    the last has no [next] that counts as true. *)
Inductive pages_from : json F -> list (list (string * json F)) -> Prop :=
| pages_done url : truthy url = false -> pages_from url []
| pages_more url page pages :
    truthy url = true ->
    _http_json url = inr (JDict page) ->
    pages_from (page_next page) pages ->
    pages_from url (page :: pages).

End ListTags.

(** A registry to run the loop on: two pages of tags, the second without
    a [next]. *)
Definition example_http (url : json unit) : raised + json unit :=
  match url with
  | JStr "https://registry.hub.docker.com/v2/repositories/library/redis/tags?page_size=2" =>
      inr (JDict
             [("count", JInt 3);
              ("next", JStr "https://hub.example/page2");
              ("results",
               JList [JDict [("name", JStr "7"); ("last_updated", JStr "2024-01-02")];
                      JDict [("id", JInt 5)];
                      JDict [("name", JStr "7.2")]])])
  | JStr "https://hub.example/page2" =>
      inr (JDict
             [("next", JNull);
              ("results", JList [JStr "noise"; JDict [("name", JStr "8")]])])
  | _ => inl (RaisedHTTPError 404)
  end.

End Registry.

(** ** docker_volume_sync.py: syncing, cleaning and committing *)

Module VolumeOps.
Import PyStr VolumeSync Registry.

Definition DOCKER_VOLUME_PREFIX : string := "home-automation_".
Definition CONFIG_BASE_PATH : string := "/home/cliffm/home-automation/configs".
Definition GIT_REPO_PATH : string := "/home/cliffm/home-automation".

(** Volume to directory mapping, in the order of the dictionary. *)
Definition VOLUME_MAPPINGS : list (string * string) :=
  [("home_assistant_config", "home-assistant");
   ("node_red_data", "node-red");
   ("zwave_data", "zwave-js-ui")].

(** The exception classes that the script tells apart, and one for all
    others.  [OSError] stands for its subclasses too. *)
Inductive exn : Type :=
| CalledProcessError
| JSONDecodeError
| IndexError
| KeyError
| TypeError
| ValueError
| OSError
| OtherException.

(** What the script does to the outside: [p.mkdir(parents=True,
    exist_ok=True)], [shutil.copy2(src, dst)], [p.unlink()],
    [os.chdir(dir)] and [subprocess.run(argv, ..., check=True)]. *)
Inductive action (Path : Type) : Type :=
| Mkdir (p : Path)
| Copy2 (src dst : Path)
| Unlink (p : Path)
| Chdir (dir : string)
| Run (argv : list string).

Arguments Mkdir {Path} p.
Arguments Copy2 {Path} src dst.
Arguments Unlink {Path} p.
Arguments Chdir {Path} dir.
Arguments Run {Path} argv.

(** [s.split()]: the words between runs of white space.  [cur] is the
    word being read, if one has begun. *)
Fixpoint split_ws_go (cur : option string) (s : string) : list string :=
  match s with
  | EmptyString => match cur with Some w => [w] | None => [] end
  | String a s' =>
      if is_space a then
        match cur with
        | Some w => w :: split_ws_go None s'
        | None => split_ws_go None s'
        end
      else
        split_ws_go
          (Some (match cur with
                 | Some w => w +:+ String a EmptyString
                 | None => String a EmptyString
                 end)) s'
  end.

Definition split_ws (s : string) : list string := split_ws_go None s.

Section Ops.
Context {St Path Stat F : Type} `{EqDecision Path}.

(** The whitelist filter, as in [VolumeSync]. *)
Variable relative_to : Path -> Path -> option Path.
Variable str : Path -> string.
Variable matches_pattern : string -> string -> bool.
Variable whitelist_patterns : gmap string (gmap string (list string)).

(** [self.dry_run]. *)
Variable dry_run : bool.

(** Pure paths: [Path(s)], [p / q] for a path [q], [p / s] for a text
    [s], and [p.parent]. *)
Variable Path_of : string -> Path.
Variable div : Path -> Path -> Path.
Variable div_str : Path -> string -> Path.
Variable parent : Path -> Path.

(** What is read from the state of the outside: [p.exists()],
    [p.is_file()], the paths of [p.rglob("*")], [p.stat()] ([None] when it
    raises [OSError]) with the comparison of two [st_mtime] and with
    [st_size], and the text of [datetime.now()] in the format of the
    commit message. *)
Variable exists_ : Path -> St -> bool.
Variable is_file : Path -> St -> bool.
Variable rglob : Path -> St -> list Path.
Variable stat : Path -> St -> option Stat.
Variable same_mtime : Stat -> Stat -> bool.
Variable st_size : Stat -> Z.
Variable now : St -> string.
Variable float_nonzero : F -> bool.

(** [json.loads(text)]; [None] when it raises [JSONDecodeError]. *)
Variable json_loads : string -> option (json F).

(** An action on a state of the outside: the state after it, and the
    standard output of the command (for [Run]; of no use otherwise) or the
    exception that the action raises. *)
Variable perform : action Path -> St -> St * (exn + string).

(** Computations that read and change the state of the outside, add to
    the list of the actions done, and return a value or raise.  Log lines
    are left out. *)
Definition M (A : Type) : Type :=
  St -> list (action Path) -> (exn + A) * St * list (action Path).

Definition ret {A} (x : A) : M A := fun st tr => (inr x, st, tr).

Definition bind {A B} (m : M A) (k : A -> M B) : M B :=
  fun st tr =>
    let '(r, st', tr') := m st tr in
    match r with
    | inl e => (inl e, st', tr')
    | inr x => k x st' tr'
    end.

Definition raise {A} (e : exn) : M A := fun st tr => (inl e, st, tr).

Definition read {A} (f : St -> A) : M A := fun st tr => (inr (f st), st, tr).

Definition act (a : action Path) : M string :=
  fun st tr => let '(st', r) := perform a st in (r, st', tr ++ [a]).

(** [try: m  except (the caught classes): h]. *)
Definition try_except {A} (m : M A) (caught : exn -> bool) (h : M A) : M A :=
  fun st tr =>
    let '(r, st', tr') := m st tr in
    match r with
    | inl e => if caught e then h st' tr' else (inl e, st', tr')
    | inr x => (inr x, st', tr')
    end.

Local Notation "'let*' x ':=' m 'in' k" := (bind m (fun x => k))
  (at level 10, x name, m at level 100, k at level 200).
Local Notation "'do*' m 'in' k" := (bind m (fun _ => k))
  (at level 10, m at level 100, k at level 200).

(** [v[0]] for a decoded value. *)
Definition index_0 (v : json F) : exn + json F :=
  match v with
  | JList [] => inl IndexError
  | JList (x :: _) => inr x
  | JDict _ => inl KeyError
  | JStr EmptyString => inl IndexError
  | JStr (String a _) => inr (JStr (String a EmptyString))
  | _ => inl TypeError
  end.

(** [v[key]] for a decoded value and a text [key]. *)
Definition index_key (key : string) (v : json F) : exn + json F :=
  match v with
  | JDict items =>
      match dict_get key items with
      | Some x => inr x
      | None => inl KeyError
      end
  | _ => inl TypeError
  end.

Definition lift {A} (r : exn + A) : M A :=
  match r with
  | inl e => raise e
  | inr x => ret x
  end.

(** Get the actual filesystem path of a Docker volume; [JNull] is
    [None]. *)
Definition get_docker_volume_path (volume_name : string) : M (json F) :=
  try_except
    (let cmd :=
       "docker volume inspect " +:+ DOCKER_VOLUME_PREFIX +:+ volume_name in
     let* stdout := act (Run (split_ws cmd)) in
     match json_loads stdout with
     | None => raise JSONDecodeError
     | Some volume_info =>
         let* first := lift (index_0 volume_info) in
         lift (index_key "Mountpoint" first)
     end)
    (fun e =>
       match e with
       | CalledProcessError | JSONDecodeError | IndexError | KeyError => true
       | _ => false
       end)
    (ret JNull).

(** Check if two files are identical: by modification time and size. *)
Definition files_identical (file1 file2 : Path) : M bool :=
  read (fun st =>
          match stat file1 st, stat file2 st with
          | Some s1, Some s2 =>
              same_mtime s1 s2 && (st_size s1 =? st_size s2)
          | _, _ => false
          end).

(** [self.should_include_file(...)] as a computation: [ValueError] when
    [relative_to] raises. *)
Definition included (file_path : Path) (service : string)
    (volume_root : Path) : M bool :=
  match should_include_file relative_to str matches_pattern
          whitelist_patterns file_path service volume_root with
  | Some (b, _) => ret b
  | None => raise ValueError
  end.

Definition relative (file_path root : Path) : M Path :=
  match relative_to file_path root with
  | Some p => ret p
  | None => raise ValueError
  end.

(** [Path(v)] for a decoded value: [TypeError] unless it is a text. *)
Definition as_path (v : json F) : M Path :=
  match v with
  | JStr s => ret (Path_of s)
  | _ => raise TypeError
  end.

(** The body of the loop of [sync_volume_to_config] over the paths of
    the volume. *)
Definition sync_file (target_dir : string) (volume_root target_root : Path)
    (file_path : Path) : M unit :=
  let* f := read (is_file file_path) in
  if f : bool then
    let* inc := included file_path target_dir volume_root in
    if inc : bool then
      let* relative_path := relative file_path volume_root in
      let target_path := div target_root relative_path in
      if negb dry_run then
        do* act (Mkdir (parent target_path)) in
        let* e := read (exists_ target_path) in
        let* same := (if e : bool
                      then files_identical file_path target_path
                      else ret false) in
        if negb e || negb same then
          do* act (Copy2 file_path target_path) in ret tt
        else ret tt
      else ret tt
    else
      do* relative file_path volume_root in ret tt
  else ret tt.

Fixpoint for_each {A} (body : A -> M unit) (l : list A) : M unit :=
  match l with
  | [] => ret tt
  | x :: l' => do* body x in for_each body l'
  end.

(** Sync a single Docker volume to config directory.  The paths of
    [rglob] are taken as they are when the loop begins. *)
Definition sync_volume_to_config (volume_name target_dir : string) : M bool :=
  let* volume_path := get_docker_volume_path volume_name in
  if negb (truthy float_nonzero volume_path) then ret false
  else
    let* volume_root := as_path volume_path in
    let target_root := div_str (Path_of CONFIG_BASE_PATH) target_dir in
    let* e := read (exists_ volume_root) in
    if negb e then ret false
    else
      do* (if negb dry_run then do* act (Mkdir target_root) in ret tt
           else ret tt) in
      let* files := read (rglob volume_root) in
      do* for_each (sync_file target_dir volume_root target_root) files in
      ret true.

(** The loop of [clean_orphaned_files] that fills [should_exist]. *)
Fixpoint gather_should_exist (target_dir : string) (volume_root : Path)
    (files : list Path) (should_exist : list Path) : M (list Path) :=
  match files with
  | [] => ret should_exist
  | file_path :: files' =>
      let* f := read (is_file file_path) in
      let* inc := (if f : bool
                   then included file_path target_dir volume_root
                   else ret false) in
      if inc : bool then
        let* relative_path := relative file_path volume_root in
        gather_should_exist target_dir volume_root files'
          (should_exist ++ [relative_path])
      else gather_should_exist target_dir volume_root files' should_exist
  end.

(** The body of its loop over the paths of the target. *)
Definition clean_file (target_root : Path) (should_exist : list Path)
    (file_path : Path) : M unit :=
  let* f := read (is_file file_path) in
  if f : bool then
    let* relative_path := relative file_path target_root in
    if negb (bool_decide (relative_path ∈ should_exist)) then
      if negb dry_run then do* act (Unlink file_path) in ret tt else ret tt
    else ret tt
  else ret tt.

(** The volume of a target directory: the first of [VOLUME_MAPPINGS]
    with it. *)
Fixpoint volume_of (mappings : list (string * string)) (target_dir : string)
  : option string :=
  match mappings with
  | [] => None
  | (vol, tdir) :: rest =>
      if (tdir =? target_dir)%string then Some vol
      else volume_of rest target_dir
  end.

(** Remove files in config that no longer exist in volume (with
    whitelist check). *)
Definition clean_orphaned_files (target_dir : string) : M unit :=
  match volume_of VOLUME_MAPPINGS target_dir with
  | None => ret tt
  | Some volume_name =>
      if is_empty volume_name then ret tt
      else
        let* volume_path := get_docker_volume_path volume_name in
        if negb (truthy float_nonzero volume_path) then ret tt
        else
          let* volume_root := as_path volume_path in
          let target_root := div_str (Path_of CONFIG_BASE_PATH) target_dir in
          let* e := read (exists_ target_root) in
          if negb e then ret tt
          else
            let* files := read (rglob volume_root) in
            let* should_exist :=
              gather_should_exist target_dir volume_root files [] in
            let* targets := read (rglob target_root) in
            for_each (clean_file target_root should_exist) targets
  end.

Definition only_CalledProcessError (e : exn) : bool :=
  match e with CalledProcessError => true | _ => false end.

(** Check git status and show changes. *)
Definition git_status : M bool :=
  try_except
    (do* act (Chdir GIT_REPO_PATH) in
     let* stdout := act (Run ["git"; "status"; "--porcelain"]) in
     ret (negb (is_empty (strip stdout))))
    only_CalledProcessError
    (ret false).

(** Add changes to git and commit; [message] is [None] when the caller
    gives none. *)
Definition git_add_and_commit (message : option string) : M bool :=
  if dry_run then ret true
  else
    try_except
      (do* act (Chdir GIT_REPO_PATH) in
       do* act (Run ["git"; "add"; "configs/"]) in
       let* stdout := act (Run ["git"; "status"; "--porcelain"]) in
       if is_empty (strip stdout) then ret true
       else
         let* message' :=
           (match message with
            | Some m =>
                if is_empty m
                then let* t := read now in
                     ret ("Auto-sync config changes - " +:+ t)
                else ret m
            | None =>
                let* t := read now in
                ret ("Auto-sync config changes - " +:+ t)
            end) in
         do* act (Run ["git"; "commit"; "-m"; message']) in
         ret true)
      only_CalledProcessError
      (ret false).

(** The loop of [sync_all_volumes], with [success_count]. *)
Fixpoint sync_each (mappings : list (string * string)) (success_count : Z)
  : M Z :=
  match mappings with
  | [] => ret success_count
  | (volume_name, target_dir) :: rest =>
      let* ok := sync_volume_to_config volume_name target_dir in
      if ok : bool then
        do* (if negb dry_run then clean_orphaned_files target_dir
             else ret tt) in
        sync_each rest (success_count + 1)
      else sync_each rest success_count
  end.

(** Sync all configured volumes. *)
Definition sync_all_volumes (auto_commit : bool) : M bool :=
  let* success_count := sync_each VOLUME_MAPPINGS 0 in
  let* changes := git_status in
  do* (if changes && auto_commit then do* git_add_and_commit None in ret tt
       else ret tt) in
  ret (success_count =? Z.of_nat (length VOLUME_MAPPINGS)).

End Ops.

(** An action that changes files or the repository: all but changing the
    working directory and running [docker volume inspect] or
    [git status]. *)
Definition changes_things {Path} (a : action Path) : bool :=
  match a with
  | Mkdir _ | Copy2 _ _ | Unlink _ => true
  | Chdir _ => false
  | Run argv =>
      negb (bool_decide (argv = ["git"; "status"; "--porcelain"]))
      && negb (bool_decide
                 (List.firstn 3 argv = ["docker"; "volume"; "inspect"]))
  end.

(** No action of the list changes files or the repository. *)
Definition quiet {Path} (tr : list (action Path)) : Prop :=
  Forall (fun a => changes_things a = false) tr.

(** Every action of a computation has the property [Q], when those done
    before it have. *)
Definition keeps {St Path A} (Q : action Path -> Prop) (m : @M St Path A)
  : Prop :=
  forall st tr, Forall Q tr -> Forall Q (m st tr).2.

(** A small outside to run the operations on.  Paths are lists of
    components, the state of the outside lists the files with their
    modification time and size, a pattern matches only the path equal to
    it. *)
Fixpoint parts_go (cur : string) (s : string) : list string :=
  match s with
  | EmptyString => if is_empty cur then [] else [cur]
  | String a s' =>
      if Ascii.eqb a "/" then
        if is_empty cur then parts_go EmptyString s'
        else cur :: parts_go EmptyString s'
      else parts_go (cur +:+ String a EmptyString) s'
  end.

Definition example_Path_of (s : string) : list string :=
  parts_go EmptyString s.

Definition example_files : Type := list (list string * (Z * Z)).

Definition example_is_file (p : list string) (st : example_files) : bool :=
  bool_decide (p ∈ st.*1).

Definition example_exists (p : list string) (st : example_files) : bool :=
  existsb (fun q => bool_decide (List.firstn (length p) q = p)) (st.*1).

Definition example_rglob (root : list string) (st : example_files)
  : list (list string) :=
  List.filter
    (fun q => bool_decide (List.firstn (length root) q = root)
              && negb (bool_decide (q = root)))
    (st.*1).

Definition example_stat (p : list string) (st : example_files)
  : option (Z * Z) :=
  snd <$> List.find (fun e => bool_decide (e.1 = p)) st.

Definition example_without (p : list string) (st : example_files)
  : example_files :=
  List.filter (fun e => negb (bool_decide (e.1 = p))) st.

(** The output of [docker volume inspect] for the one volume of the
    example is the text [inspect-output], which [example_json_loads] takes
    for a list of one object with the mount point. *)
Definition example_json_loads (s : string) : option (json unit) :=
  if (s =? "inspect-output")%string
  then Some (JList [JDict [("Name", JStr "home-automation_node_red_data");
                           ("Mountpoint", JStr "/var/lib/vol")]])
  else None.

Definition example_perform (a : action (list string)) (st : example_files)
  : example_files * (exn + string) :=
  match a with
  | Mkdir _ | Chdir _ => (st, inr EmptyString)
  | Copy2 src dst =>
      match example_stat src st with
      | Some s => ((dst, s) :: example_without dst st, inr EmptyString)
      | None => (st, inl OSError)
      end
  | Unlink p =>
      if example_is_file p st then (example_without p st, inr EmptyString)
      else (st, inl OSError)
  | Run argv =>
      if bool_decide
           (argv = ["docker"; "volume"; "inspect";
                    "home-automation_node_red_data"])
      then (st, inr "inspect-output")
      else if bool_decide (argv = ["git"; "status"; "--porcelain"])
      then (st, inr " M configs/node-red/settings.js")
      else if bool_decide (List.firstn 1 argv = ["git"])
      then (st, inr EmptyString)
      else (st, inl CalledProcessError)
  end.

Definition example_div_str (p : list string) (s : string) : list string :=
  p ++ example_Path_of s.

Definition example_same_mtime (a b : Z * Z) : bool := a.1 =? b.1.

Definition example_now (st : example_files) : string := "2024-01-02 03:04:05".

Definition example_config : list string := example_Path_of CONFIG_BASE_PATH.

(** Two files in the volume, one of them of the whitelist, and in the
    target an older copy of that one and a file that the volume lacks. *)
Definition example_state : example_files :=
  [(["var"; "lib"; "vol"; "settings.js"], (1700000500, 120));
   (["var"; "lib"; "vol"; ".sessions.json"], (1700000600, 64));
   (example_config ++ ["node-red"; "settings.js"], (1700000100, 100));
   (example_config ++ ["node-red"; "old-flows.json"], (1700000000, 80))].

End VolumeOps.

(** * Properties *)

(** ** Sorting and the order of the keys *)

Module SortFacts.
Import PyStr.

Section Sorted.
Context {A : Type} (lt : A -> A -> bool).
Hypothesis lt_asym : forall a b, lt a b = true -> lt b a = false.
Hypothesis ge_trans :
  forall a b c, lt b a = false -> lt c b = false -> lt c a = false.

Lemma insert_by_perm x l : insert_by lt x l ≡ₚ x :: l.
Proof.
  induction l as [|y l IH]; simpl; [done|].
  destruct (lt y x); [|done].
  rewrite IH. apply Permutation_swap.
Qed.

Lemma sorted_by_perm l : sorted_by lt l ≡ₚ l.
Proof.
  induction l as [|x l IH]; simpl; [done|].
  by rewrite insert_by_perm, IH.
Qed.

Lemma insert_by_sorted x l :
  StronglySorted (not_after lt) l -> StronglySorted (not_after lt) (insert_by lt x l).
Proof.
  induction 1 as [|y l Hs IH Hy]; simpl.
  - repeat constructor.
  - destruct (lt y x) eqn:E.
    + constructor; [done|].
      rewrite insert_by_perm. constructor; [|done].
      by apply lt_asym.
    + constructor; [by constructor|].
      constructor; [done|].
      eapply Forall_impl; [exact Hy|].
      intros z Hz. unfold not_after in *. eauto.
Qed.

Lemma sorted_by_sorted l : StronglySorted (not_after lt) (sorted_by lt l).
Proof.
  induction l; simpl; [constructor | by apply insert_by_sorted].
Qed.

Lemma lt_irrefl a : lt a a = false.
Proof. destruct (lt a a) eqn:E; [by apply lt_asym in E as E'; congruence | done]. Qed.

Lemma sorted_last_max l m :
  StronglySorted (not_after lt) l -> last l = Some m ->
  Forall (fun a => not_after lt a m) l.
Proof.
  induction 1 as [|y l Hs IH Hy]; intros Hl; [done|].
  destruct l as [|z l].
  - simpl in Hl. injection Hl as ->. repeat constructor. apply lt_irrefl.
  - rewrite last_cons_cons in Hl. specialize (IH Hl).
    constructor; [|done].
    rewrite Forall_forall in Hy. apply Hy.
    apply last_Some_elem_of, Hl.
Qed.

(** The last element of the sorted list is an element of the list that
    no element exceeds. *)
Lemma last_sorted_by l m :
  last (sorted_by lt l) = Some m ->
  m ∈ l /\ forall a, a ∈ l -> lt m a = false.
Proof.
  intros Hl. split.
  - rewrite <- (sorted_by_perm l). by apply last_Some_elem_of.
  - intros a Ha. rewrite <- (sorted_by_perm l) in Ha.
    pose proof (sorted_last_max _ _ (sorted_by_sorted l) Hl) as HF.
    rewrite Forall_forall in HF. by apply HF.
Qed.

Lemma last_sorted_by_is_Some l :
  l <> [] -> is_Some (last (sorted_by lt l)).
Proof.
  intros Hne. destruct (last (sorted_by lt l)) eqn:E; [by eexists|].
  apply last_None in E.
  pose proof (sorted_by_perm l) as Hp. rewrite E in Hp.
  apply Permutation_nil in Hp. done.
Qed.
End Sorted.

End SortFacts.

(** ** The values of the version heuristic *)

Module ValuesFacts.
Import PyStr Images Values SortFacts.

(** *** The order of the keys *)

Ltac key_cases :=
  repeat match goal with
    | k : (Z * Z * Z)%type |- _ => destruct k as [[? ?] ?]
    end;
  unfold key_ltb, key_leb, lex_lt in *;
  repeat match goal with
    | |- context [?a =? ?b] => destruct (Z.eqb_spec a b); simpl
    | H : context [?a =? ?b] |- _ => destruct (Z.eqb_spec a b); simpl in H
    end;
  rewrite ?Z.ltb_lt, ?Z.ltb_ge, ?Z.leb_le, ?Z.leb_gt in *;
  try lia.

Lemma key_ltb_lex a b : key_ltb a b = true <-> lex_lt a b.
Proof. key_cases. Qed.

Lemma key_leb_not_lex a b : key_leb a b = false <-> lex_lt b a.
Proof. key_cases. Qed.

Lemma key_leb_ltb a b : key_leb a b = negb (key_ltb b a).
Proof.
  destruct (key_leb a b) eqn:E1, (key_ltb b a) eqn:E2; try done.
  - apply key_ltb_lex in E2. apply key_leb_not_lex in E2. congruence.
  - apply key_leb_not_lex in E1. apply key_ltb_lex in E1. congruence.
Qed.

Lemma key_ltb_asym a b : key_ltb a b = true -> key_ltb b a = false.
Proof.
  intros H. destruct (key_ltb b a) eqn:E; [|done].
  apply key_ltb_lex in H, E. key_cases.
Qed.

Lemma key_ge_trans a b c :
  key_ltb b a = false -> key_ltb c b = false -> key_ltb c a = false.
Proof.
  intros H1 H2. destruct (key_ltb c a) eqn:E; [|done].
  apply key_ltb_lex in E.
  assert (~ lex_lt b a) by (rewrite <- key_ltb_lex; congruence).
  assert (~ lex_lt c b) by (rewrite <- key_ltb_lex; congruence).
  key_cases.
Qed.

Lemma by_key_asym x y : by_key x y = true -> by_key y x = false.
Proof. apply key_ltb_asym. Qed.

Lemma by_key_ge_trans x y z :
  by_key y x = false -> by_key z y = false -> by_key z x = false.
Proof. apply key_ge_trans. Qed.

(** *** The pick of a pool *)

Lemma pick_best_max pool best :
  pick_best pool = Some best ->
  best ∈ pool
  /\ forall c, c ∈ pool ->
       ~ lex_lt (semver_sort_key (snd best)) (semver_sort_key (snd c)).
Proof.
  intros H.
  apply (last_sorted_by by_key by_key_asym by_key_ge_trans) in H as [Hin Hmax].
  split; [done|]. intros c Hc Hlt.
  apply key_ltb_lex in Hlt. specialize (Hmax c Hc).
  unfold by_key in Hmax. congruence.
Qed.

Lemma pick_best_is_Some pool : pool <> [] -> is_Some (pick_best pool).
Proof. apply (last_sorted_by_is_Some by_key). Qed.

Lemma pick_best_None pool : pick_best pool = None <-> pool = [].
Proof.
  split; [|by intros ->].
  intros H. destruct pool as [|c cs]; [done|].
  destruct (pick_best_is_Some (c :: cs)) as [b Hb]; [done|]. congruence.
Qed.

(** *** The two loops *)

Lemma filter_candidates_elem old_suffix all_tags t pv :
  (t, pv) ∈ filter_candidates_value old_suffix all_tags <->
  t ∈ all_tags /\ suffix_of t = old_suffix
  /\ parse_semverish_value (base_of t) = Some pv.
Proof.
  unfold suffix_of, base_of.
  induction all_tags as [|u us IH]; simpl.
  - split; [intros H | intros [H _]]; by apply elem_of_nil in H.
  - destruct (split_suffix u) as [b sfx] eqn:Eu.
    rewrite elem_of_cons.
    destruct (bool_decide_reflect (old_suffix = sfx)) as [->|Hne]; simpl.
    + destruct (parse_semverish_value b) as [v|] eqn:Ev.
      * rewrite elem_of_cons, IH. split.
        -- intros [[= -> ->]|(? & ? & ?)]; [rewrite Eu|]; auto.
        -- intros ([->|Hin] & Hs & Hp).
           ++ rewrite Eu in Hp. simpl in Hp. left. congruence.
           ++ auto.
      * rewrite IH. split; [intros (? & ? & ?); auto|].
        intros ([->|Hin] & Hs & Hp); [|auto].
        rewrite Eu in Hp. simpl in Hp. congruence.
    + rewrite IH. split; [intros (? & ? & ?); auto|].
      intros ([->|Hin] & Hs & Hp); [|auto].
      rewrite Eu in Hs. simpl in Hs. congruence.
Qed.

Lemma split_pools_filter old_maj old_min candidates :
  split_pools old_maj old_min candidates
  = (List.filter (in_preferred old_maj old_min) candidates,
     List.filter (in_fallback old_maj old_min) candidates).
Proof.
  induction candidates as [|[t [[[maj minor] patch] hv]] cs IH]; [done|].
  simpl. rewrite IH. unfold in_preferred, in_fallback. simpl.
  destruct (maj =? old_maj), (old_min >=? 0), (minor =? old_min); done.
Qed.

Lemma choose_pool_major old_maj old_min candidates c :
  c ∈ choose_pool (List.filter (in_preferred old_maj old_min) candidates)
                  (List.filter (in_fallback old_maj old_min) candidates) ->
  c ∈ candidates /\ major_of (snd c) = old_maj.
Proof.
  intros H.
  assert (c ∈ List.filter (in_preferred old_maj old_min) candidates
          \/ c ∈ List.filter (in_fallback old_maj old_min) candidates)
    as [Hc|Hc].
  { unfold choose_pool in H.
    destruct (List.filter (in_preferred old_maj old_min) candidates); auto. }
  all: apply list_elem_of_In, filter_In in Hc as [Hc Hb];
    apply list_elem_of_In in Hc; split; [done|].
  all: unfold in_preferred, in_fallback in Hb;
    destruct (Z.eqb_spec (major_of (snd c)) old_maj); done.
Qed.

(** *** The heuristic through its selection_value *)

Lemma is_floating_spec t :
  is_floating t = true <-> t = "latest" \/ t = "stable".
Proof.
  unfold is_floating. rewrite orb_true_iff, !String.eqb_eq. done.
Qed.

Lemma choose_newer_tag_selected old_tag all_tags old_v best :
  selection_value old_tag all_tags = Some (old_v, best) ->
  choose_newer_tag_value old_tag all_tags = verdict old_v best.
Proof.
  unfold selection_value, choose_newer_tag_value, is_floating, base_of, suffix_of, verdict.
  destruct ((old_tag =? "latest")%string || (old_tag =? "stable")%string);
    [done|].
  destruct (split_suffix old_tag) as [old_base old_suffix]. simpl.
  destruct (parse_semverish_value old_base) as [[[[maj minor] patch] hv]|]; [|done].
  simpl.
  destruct (filter_candidates_value old_suffix all_tags) as [|c cs] eqn:Ec.
  - simpl. done.
  - destruct (split_pools maj minor (c :: cs)) as [preferred fallback].
    destruct (pick_best (choose_pool preferred fallback)) as [[bt bv]|];
      [|done].
    intros [= <- <-]. done.
Qed.

Lemma choose_newer_tag_unselected old_tag all_tags :
  selection_value old_tag all_tags = None ->
  fst (choose_newer_tag_value old_tag all_tags) = None.
Proof.
  unfold selection_value, choose_newer_tag_value, is_floating, base_of, suffix_of.
  destruct ((old_tag =? "latest")%string || (old_tag =? "stable")%string);
    [done|].
  destruct (split_suffix old_tag) as [old_base old_suffix]. simpl.
  destruct (parse_semverish_value old_base) as [[[[maj minor] patch] hv]|]; [|done].
  simpl.
  destruct (filter_candidates_value old_suffix all_tags) as [|c cs] eqn:Ec; [done|].
  destruct (split_pools maj minor (c :: cs)) as [preferred fallback].
  destruct (pick_best (choose_pool preferred fallback)) as [[bt bv]|];
    done.
Qed.

(** What a suggestion tells about the run that made it. *)
Lemma choose_newer_tag_Some old_tag all_tags t note :
  choose_newer_tag_value old_tag all_tags = (Some t, note) ->
  exists old_v best_v,
    selection_value old_tag all_tags = Some (old_v, (t, best_v))
    /\ lex_lt (semver_sort_key old_v) (semver_sort_key best_v)
    /\ note = "newer version available".
Proof.
  intros H.
  destruct (selection_value old_tag all_tags) as [[old_v [bt bv]]|] eqn:Es.
  - rewrite (choose_newer_tag_selected _ _ _ _ Es) in H.
    unfold verdict in H. simpl in H.
    destruct (key_leb _ _) eqn:Ek; [done|].
    injection H as <- <-. exists old_v, bv.
    by rewrite <- key_leb_not_lex.
  - apply choose_newer_tag_unselected in Es. rewrite H in Es. done.
Qed.

(** What the selection_value is made of. *)
Lemma selection_sound old_tag all_tags old_v t best_v :
  selection_value old_tag all_tags = Some (old_v, (t, best_v)) ->
  is_floating old_tag = false
  /\ parse_semverish_value (base_of old_tag) = Some old_v
  /\ t ∈ all_tags
  /\ suffix_of t = suffix_of old_tag
  /\ parse_semverish_value (base_of t) = Some best_v
  /\ major_of best_v = major_of old_v.
Proof.
  unfold selection_value.
  destruct (is_floating old_tag); [done|].
  destruct (parse_semverish_value (base_of old_tag)) as [ov|]; [|done].
  rewrite split_pools_filter.
  destruct (pick_best _) as [best|] eqn:Ep; [|done].
  intros [= -> ->].
  apply pick_best_max in Ep as [Hin _].
  apply choose_pool_major in Hin as [Hin Hmaj].
  apply filter_candidates_elem in Hin as (? & ? & ?).
  done.
Qed.

(** *** Suffixes *)

Lemma split_once_contains c s :
  contains c s = true <-> is_Some (split_once c s).
Proof.
  induction s as [|a s IH]; simpl.
  - split; [done | by intros [? ?]].
  - destruct (Ascii.eqb a c); simpl; [by split; eauto|].
    rewrite IH. destruct (split_once c s) as [[b r]|]; split; eauto;
      by intros [? ?].
Qed.

Lemma span_digits_not_digit a s :
  is_digit a = false -> span_digits (String a s) = (EmptyString, String a s).
Proof. intros H. simpl. by rewrite H. Qed.

Lemma parse_semverish_sha256 t :
  startswith "sha256:" t = true -> parse_semverish_value t = None.
Proof.
  unfold startswith. destruct t as [|a t]; [done|].
  change (String.prefix "sha256:" (String a t))
    with (if ascii_dec "s" a then String.prefix "ha256:" t else false).
  destruct (ascii_dec "s" a) as [<-|]; [|done]. intros _.
  reflexivity.
Qed.

(** For a tag whose base is semver-like the suffix is the part after the
    first hyphen: the digest exemption of [split_suffix] does not apply. *)
Lemma suffix_of_semverish t v :
  parse_semverish_value (base_of t) = Some v ->
  suffix_of t = after_first_hyphen t.
Proof.
  unfold base_of, suffix_of, after_first_hyphen, split_suffix.
  destruct (contains "-" t) eqn:Ec; simpl.
  - destruct (startswith "sha256:" t) eqn:Es; simpl.
    + intros H. by rewrite (parse_semverish_sha256 _ Es) in H.
    + by destruct (split_once "-" t) as [[b r]|].
  - intros _. destruct (split_once "-" t) as [[b r]|] eqn:E; [|done].
    assert (contains "-" t = true) by (apply split_once_contains; eauto).
    congruence.
Qed.

(** *** Parsing the pattern *)

Lemma append_cons a s r : String a s +:+ r = String a (s +:+ r).
Proof. reflexivity. Qed.

Lemma append_empty_l r : EmptyString +:+ r = r.
Proof. reflexivity. Qed.

Lemma append_empty_r s : s +:+ EmptyString = s.
Proof.
  induction s as [|a s IH]; [done|]. by rewrite append_cons, IH.
Qed.

Lemma span_digits_app d r :
  all_digits d = true -> no_digit_head r = true ->
  span_digits (d +:+ r) = (d, r).
Proof.
  intros Hd Hr. induction d as [|a d IH].
  - rewrite append_empty_l. destruct r as [|b r]; [done|]. simpl in *.
    by destruct (is_digit b).
  - simpl in Hd. apply andb_true_iff in Hd as [Ha Hd].
    rewrite append_cons. simpl. by rewrite Ha, IH.
Qed.

Lemma digit_val_bounds a : is_digit a = true -> 0 <= digit_val a <= 9.
Proof.
  unfold is_digit, digit_val. rewrite andb_true_iff, !Z.leb_le. lia.
Qed.

Lemma int_acc_nonneg d acc :
  all_digits d = true -> 0 <= acc -> 0 <= int_acc acc d.
Proof.
  revert acc. induction d as [|a d IH]; simpl; intros acc Hd Hacc; [done|].
  apply andb_true_iff in Hd as [Ha Hd]. apply IH; [done|].
  pose proof (digit_val_bounds _ Ha). lia.
Qed.

Lemma int_nonneg d : digits d = true -> 0 <= int_value d.
Proof.
  unfold digits. rewrite andb_true_iff. intros [_ Hd].
  by apply int_acc_nonneg.
Qed.

Lemma digits_head d :
  digits d = true ->
  exists a d', d = String a d' /\ is_digit a = true /\ all_digits d = true.
Proof.
  unfold digits. destruct d as [|a d]; [done|]. simpl.
  rewrite andb_true_iff. intros [Ha Hd]. exists a, d.
  by rewrite Ha, Hd.
Qed.

Lemma opt_dot_digits_group d r :
  digits d = true -> no_digit_head r = true ->
  opt_dot_digits ("." +:+ d +:+ r) = (Some d, r).
Proof.
  intros Hd Hr. destruct (digits_head _ Hd) as (a & d' & -> & Ha & Hall).
  rewrite append_cons, append_empty_l.
  unfold opt_dot_digits. rewrite (span_digits_app _ _ Hall Hr). done.
Qed.

Lemma opt_dot_digits_end d :
  digits d = true -> opt_dot_digits ("." +:+ d) = (Some d, EmptyString).
Proof.
  intros Hd. rewrite <- (append_empty_r d) at 1.
  by apply opt_dot_digits_group.
Qed.

Lemma strip_v_digit a s :
  is_digit a = true ->
  match String a s with String "v"%char s' => s' | _ => String a s end
  = String a s.
Proof. destruct a as [[] [] [] [] [] [] [] []]; done. Qed.

(** *** The preferred pool *)

Lemma in_preferred_minor old_v c :
  0 <= minor_of old_v ->
  in_preferred (major_of old_v) (minor_of old_v) c
  = (major_of (snd c) =? major_of old_v)
    && (minor_of (snd c) =? minor_of old_v).
Proof.
  intros H. unfold in_preferred.
  replace (minor_of old_v >=? 0) with true; [done|].
  symmetry. rewrite Z.geb_leb. by apply Z.leb_le.
Qed.

Lemma choose_pool_nonempty preferred fallback :
  preferred <> [] -> choose_pool preferred fallback = preferred.
Proof. by destruct preferred. Qed.

Lemma selection_minor_matching old_tag all_tags old_v :
  is_floating old_tag = false ->
  parse_semverish_value (base_of old_tag) = Some old_v ->
  0 <= minor_of old_v ->
  minor_matching old_v (filter_candidates_value (suffix_of old_tag) all_tags) <> [] ->
  exists best,
    pick_best
      (minor_matching old_v (filter_candidates_value (suffix_of old_tag) all_tags))
    = Some best
    /\ selection_value old_tag all_tags = Some (old_v, best).
Proof.
  intros Hfl Hp Hmin Hne.
  destruct (pick_best_is_Some _ Hne) as [best Hbest].
  exists best. split; [done|].
  unfold selection_value. rewrite Hfl, Hp, split_pools_filter.
  rewrite (filter_ext _ _ (fun c => in_preferred_minor old_v c Hmin)).
  change (List.filter _ (filter_candidates_value (suffix_of old_tag) all_tags))
    with (minor_matching old_v
            (filter_candidates_value (suffix_of old_tag) all_tags)) at 1.
  rewrite (choose_pool_nonempty _ _ Hne). by rewrite Hbest.
Qed.

(** *** The prefix flag plays no part *)

Section Related.
Context {A B : Type} (R : A -> B -> Prop).

Lemma Forall2_List_filter (f : A -> bool) (g : B -> bool) l k :
  (forall x y, R x y -> f x = g y) ->
  Forall2 R l k -> Forall2 R (List.filter f l) (List.filter g k).
Proof.
  intros Hfg. induction 1 as [|x y l k Hxy HF IH]; simpl; [constructor|].
  rewrite (Hfg x y Hxy). destruct (g y); [by constructor | done].
Qed.

Context (lt : A -> A -> bool) (lt' : B -> B -> bool).
Hypothesis lt_related :
  forall x x' y y', R x x' -> R y y' -> lt x y = lt' x' y'.

Lemma Forall2_insert_by x x' l l' :
  R x x' -> Forall2 R l l' ->
  Forall2 R (insert_by lt x l) (insert_by lt' x' l').
Proof.
  intros Hx. induction 1 as [|y y' l l' Hy HF IH]; simpl.
  - by repeat constructor.
  - rewrite (lt_related y y' x x' Hy Hx).
    destruct (lt' y' x'); by repeat constructor.
Qed.

Lemma Forall2_sorted_by l l' :
  Forall2 R l l' -> Forall2 R (sorted_by lt l) (sorted_by lt' l').
Proof.
  induction 1; simpl; [constructor | by apply Forall2_insert_by].
Qed.
End Related.

Lemma Forall2_with_zip {A B} (R : A -> B -> Prop) l k :
  Forall2 R l k -> Forall2 (fun x y => (x, y) ∈ zip l k /\ R x y) l k.
Proof.
  induction 1 as [|x y l k Hxy HF IH]; simpl; [constructor|].
  constructor; [split; [left | done]|].
  eapply Forall2_impl; [exact IH|].
  intros a b [Hin Hab]. split; [by right | done].
Qed.

Lemma semver_sort_key_fst v v' :
  fst v = fst v' -> semver_sort_key v = semver_sort_key v'.
Proof.
  destruct v as [[[? ?] ?] ?], v' as [[[? ?] ?] ?]. simpl.
  by intros [= -> -> ->].
Qed.

Section Alike.
Context (P : string -> string -> Prop).

Lemma alike_major c c' :
  alike P c c' -> major_of (snd c) = major_of (snd c').
Proof.
  destruct c as [? [[[? ?] ?] ?]], c' as [? [[[? ?] ?] ?]].
  intros [_ H]. simpl in *. congruence.
Qed.

Lemma alike_minor c c' :
  alike P c c' -> minor_of (snd c) = minor_of (snd c').
Proof.
  destruct c as [? [[[? ?] ?] ?]], c' as [? [[[? ?] ?] ?]].
  intros [_ H]. simpl in *. congruence.
Qed.

Lemma alike_by_key x x' y y' :
  alike P x x' -> alike P y y' -> by_key x y = by_key x' y'.
Proof.
  intros [_ Hx] [_ Hy]. unfold by_key.
  by rewrite (semver_sort_key_fst _ _ Hx), (semver_sort_key_fst _ _ Hy).
Qed.

Lemma alike_filter_candidates sfx tags tags' :
  Forall2 (fun t t' => P t t' /\ same_but_prefix_value t t') tags tags' ->
  Forall2 (alike P) (filter_candidates_value sfx tags)
                    (filter_candidates_value sfx tags').
Proof.
  induction 1 as [|t t' ts ts' [HP [Hs Hp]] HF IH]; simpl; [constructor|].
  unfold suffix_of, base_of in Hs, Hp.
  destruct (split_suffix t) as [b s], (split_suffix t') as [b' s'].
  simpl in Hs, Hp. subst s'.
  destruct (bool_decide (sfx = s)); simpl; [|done].
  destruct (parse_semverish_value b) as [v|], (parse_semverish_value b') as [v'|];
    simpl in Hp; try done.
  constructor; [|done]. split; simpl; congruence.
Qed.

Lemma alike_pick_best pool pool' :
  Forall2 (alike P) pool pool' ->
  option_Forall2 (alike P) (pick_best pool) (pick_best pool').
Proof.
  intros HF. unfold pick_best. apply Forall2_last.
  apply Forall2_sorted_by; [|done].
  intros. by apply alike_by_key.
Qed.

Lemma alike_choose_pool old_maj old_min l l' :
  Forall2 (alike P) l l' ->
  Forall2 (alike P)
    (choose_pool (List.filter (in_preferred old_maj old_min) l)
                 (List.filter (in_fallback old_maj old_min) l))
    (choose_pool (List.filter (in_preferred old_maj old_min) l')
                 (List.filter (in_fallback old_maj old_min) l')).
Proof.
  intros HF.
  assert (Forall2 (alike P)
            (List.filter (in_preferred old_maj old_min) l)
            (List.filter (in_preferred old_maj old_min) l')) as Hp.
  { apply Forall2_List_filter; [|done]. intros x y Hxy.
    unfold in_preferred.
    by rewrite (alike_major _ _ Hxy), (alike_minor _ _ Hxy). }
  assert (Forall2 (alike P)
            (List.filter (in_fallback old_maj old_min) l)
            (List.filter (in_fallback old_maj old_min) l')) as Hf.
  { apply Forall2_List_filter; [|done]. intros x y Hxy.
    unfold in_fallback.
    by rewrite (alike_major _ _ Hxy), (alike_minor _ _ Hxy). }
  unfold choose_pool. destruct Hp; [done | by constructor].
Qed.

(** Old tags and candidate lists that differ at most in prefixes get
    the same note and suggestions related by [P]. *)
Lemma choose_newer_tag_alike old_tag old_tag' all_tags all_tags' :
  is_floating old_tag = false -> is_floating old_tag' = false ->
  same_but_prefix_value old_tag old_tag' ->
  Forall2 (fun t t' => P t t' /\ same_but_prefix_value t t') all_tags all_tags' ->
  option_Forall2 P (fst (choose_newer_tag_value old_tag all_tags))
                   (fst (choose_newer_tag_value old_tag' all_tags'))
  /\ snd (choose_newer_tag_value old_tag all_tags)
     = snd (choose_newer_tag_value old_tag' all_tags').
Proof.
  intros Hfl Hfl' [Hs Hp] HF. unfold choose_newer_tag_value.
  unfold is_floating in Hfl, Hfl'. rewrite Hfl, Hfl'.
  unfold suffix_of, base_of in Hs, Hp.
  destruct (split_suffix old_tag) as [b s],
           (split_suffix old_tag') as [b' s'].
  simpl in Hs, Hp. subst s'.
  destruct (parse_semverish_value b) as [[[[maj minor] patch] hv]|],
           (parse_semverish_value b') as [[[[maj' minor'] patch'] hv']|];
    simpl in Hp; try done; [|by split; [constructor|]].
  injection Hp as <- <- <-.
  pose proof (alike_filter_candidates s _ _ HF) as Hc.
  pose proof (alike_pick_best _ _ (alike_choose_pool maj minor _ _ Hc))
    as Hpool.
  cbv zeta. rewrite !split_pools_filter.
  remember (filter_candidates_value s all_tags) as cands eqn:E.
  remember (filter_candidates_value s all_tags') as cands' eqn:E'.
  clear E E'. revert Hpool.
  destruct Hc as [|c c' cs cs' Hcc Hcs]; intros Hpool;
    [by split; [constructor|]|].
  cbv beta iota.
  destruct Hpool as [[bt bv] [bt' bv'] [HP Hv]|];
    [|by split; [constructor|]].
  simpl in HP, Hv.
  rewrite (semver_sort_key_fst bv bv' Hv).
  rewrite (semver_sort_key_fst (maj, minor, patch, hv)
             (maj, minor, patch, hv') eq_refl).
  destruct (key_leb _ _); split; by try constructor.
Qed.
End Alike.

End ValuesFacts.

(** ** The whitelist filter *)

Module VolumeSyncFacts.
Import VolumeSync.

Section Filter.
Context {Path : Type}.
Variable relative_to : Path -> Path -> option Path.
Variable str : Path -> string.
Variable matches_pattern : string -> string -> bool.
Variable whitelist_patterns : gmap string (gmap string (list string)).

Local Abbreviation decide_file :=
  (should_include_file relative_to str matches_pattern whitelist_patterns).
Local Abbreviation patterns := (patterns_of whitelist_patterns).

Lemma find_is_Some {A} (f : A -> bool) (l : list A) x :
  In x l -> f x = true -> is_Some (find f l).
Proof.
  intros Hin Hf. destruct (find f l) eqn:E; [by eexists|].
  rewrite (find_none _ _ E x Hin) in Hf. done.
Qed.

Lemma find_is_None {A} (f : A -> bool) (l : list A) :
  (forall x, In x l -> f x = false) -> find f l = None.
Proof.
  intros H. destruct (find f l) as [x|] eqn:E; [|done].
  apply find_some in E as [Hin Hf]. rewrite (H x Hin) in Hf. done.
Qed.

(** A path that no exclude pattern matches and some include pattern
    matches is included. *)
Lemma included_when_only_include_matches file_path service volume_root
    relative_path :
  relative_to file_path volume_root = Some relative_path ->
  (forall p, In p (patterns service "exclude") ->
             matches_pattern (str relative_path) p = false) ->
  (exists p, In p (patterns service "include")
             /\ matches_pattern (str relative_path) p = true) ->
  fst <$> decide_file file_path service volume_root = Some true.
Proof.
  intros Hrel Hex (p & Hin & Hp). unfold should_include_file.
  rewrite Hrel. fold (patterns service "exclude").
  fold (patterns service "include").
  rewrite (find_is_None _ _ Hex).
  by destruct (find_is_Some _ _ _ Hin Hp) as [q ->].
Qed.

(** C4: a path that matches an exclude pattern of the service's rule is
    excluded, whichever include patterns it matches as well; and a path
    that matches no pattern at all is excluded. *)
Theorem exclude_wins_and_default_is_excluded (file_path : Path)
    (service : string) (volume_root relative_path : Path) :
  relative_to file_path volume_root = Some relative_path ->
  ((exists p, In p (patterns_of whitelist_patterns service "exclude")
              /\ matches_pattern (str relative_path) p = true) ->
   fst <$> should_include_file relative_to str matches_pattern
             whitelist_patterns file_path service volume_root
   = Some false)
  /\ ((forall p, In p (patterns_of whitelist_patterns service "exclude"
                         ++ patterns_of whitelist_patterns service "include") ->
                 matches_pattern (str relative_path) p = false) ->
      fst <$> should_include_file relative_to str matches_pattern
                whitelist_patterns file_path service volume_root
      = Some false).
Proof.
  intros Hrel. unfold should_include_file. rewrite Hrel.
  fold (patterns service "exclude"). fold (patterns service "include").
  split.
  - intros (p & Hin & Hp).
    by destruct (find_is_Some _ _ _ Hin Hp) as [q ->].
  - intros Hnone.
    rewrite !find_is_None; [done|..];
      intros p Hin; apply Hnone, in_app_iff; auto.
Qed.
End Filter.

Lemma exclude_wins_and_default_is_excluded_witness :
  fst <$> should_include_file parts_relative_to parts_str String.eqb
            example_whitelist
            ["var"; "lib"; "vol"; "flows_cred.json"] "node-red"
            ["var"; "lib"; "vol"]
  = Some false
  /\ fst <$> should_include_file parts_relative_to parts_str String.eqb
               example_whitelist
               ["var"; "lib"; "vol"; "lib"; "x.js"] "node-red"
               ["var"; "lib"; "vol"]
     = Some false.
Proof.
  split.
  - apply (proj1 (exclude_wins_and_default_is_excluded
                    parts_relative_to parts_str String.eqb example_whitelist
                    ["var"; "lib"; "vol"; "flows_cred.json"] "node-red"
                    ["var"; "lib"; "vol"] ["flows_cred.json"] eq_refl)).
    exists "flows_cred.json". split; [|reflexivity].
    vm_compute. auto.
  - apply (proj2 (exclude_wins_and_default_is_excluded
                    parts_relative_to parts_str String.eqb example_whitelist
                    ["var"; "lib"; "vol"; "lib"; "x.js"] "node-red"
                    ["var"; "lib"; "vol"] ["lib"; "x.js"] eq_refl)).
    intros p Hp. vm_compute in Hp.
    repeat (destruct Hp as [<-|Hp]; [reflexivity|]). destruct Hp.
Defined.

End VolumeSyncFacts.

(** ** More on the values of the heuristic *)

Module ValuesMore.
Import PyStr Images Values SortFacts ValuesFacts HeuristicNotions.

(** *** Splitting and joining *)

Lemma split_once_join c s b r :
  split_once c s = Some (b, r) ->
  s = b +:+ String c r /\ contains c b = false.
Proof.
  revert b r. induction s as [|a s IH]; intros b r; simpl; [done|].
  destruct (Ascii.eqb_spec a c) as [->|Hne].
  - intros [= <- <-]. done.
  - destruct (split_once c s) as [[b' r']|]; [|done].
    intros [= <- <-]. destruct (IH b' r' eq_refl) as [-> Hb].
    split; [done|]. simpl. rewrite Hb.
    by destruct (Ascii.eqb_spec a c).
Qed.

(** *** Digest tags *)

Lemma startswith_sha256_not_floating t :
  startswith "sha256:" t = true -> is_floating t = false.
Proof.
  intros H. destruct (is_floating t) eqn:E; [|done].
  apply is_floating_spec in E as [->| ->]; done.
Qed.

(** *** What parses *)

Lemma append_assoc (a b c : string) : (a +:+ b) +:+ c = a +:+ b +:+ c.
Proof.
  induction a as [|x a IH]; [done|]. by rewrite !append_cons, IH.
Qed.

Lemma span_digits_inv s d r :
  span_digits s = (d, r) ->
  s = d +:+ r /\ all_digits d = true /\ no_digit_head r = true.
Proof.
  revert d r. induction s as [|a s IH]; intros d r; simpl.
  - by intros [= <- <-].
  - destruct (is_digit a) eqn:Ea.
    + destruct (span_digits s) as [d' r'].
      intros [= <- <-]. destruct (IH d' r' eq_refl) as (-> & Hd & Hr).
      rewrite append_cons. simpl. by rewrite Ea, Hd.
    + intros [= <- <-]. rewrite append_empty_l. simpl. by rewrite Ea.
Qed.

Lemma opt_dot_digits_inv s g r :
  opt_dot_digits s = (g, r) ->
  match g with
  | Some d => s = "." +:+ d +:+ r /\ digits d = true /\ no_digit_head r = true
  | None => r = s
  end.
Proof.
  unfold opt_dot_digits. destruct s as [|a s]; [by intros [= <- <-]|].
  destruct (Ascii.eqb_spec a ".") as [->|Hne].
  - destruct (span_digits s) as [d r'] eqn:Es.
    apply span_digits_inv in Es as (-> & Hd & Hr).
    destruct d as [|x d]; simpl.
    + by intros [= <- <-].
    + intros [= <- <-]. split; [reflexivity|].
      unfold digits. simpl in *. by rewrite Hd.
  - destruct a as [[] [] [] [] [] [] [] []]; try (by intros [= <- <-]).
    by destruct Hne.
Qed.

Lemma opt_dot_digits_stuck s r :
  opt_dot_digits s = (None, r) -> opt_dot_digits r = (None, r).
Proof.
  intros H. pose proof (opt_dot_digits_inv _ _ _ H) as Hr. simpl in Hr.
  by subst r.
Qed.

Lemma at_dollar_inv r :
  at_dollar r = true -> exists nl, r = dollar_text nl.
Proof.
  destruct r as [|a [|b r]]; simpl.
  - exists false; done.
  - destruct a as [[] [] [] [] [] [] [] []]; try done. exists true; done.
  - by destruct a as [[] [] [] [] [] [] [] []].
Qed.

Lemma strip_v_inv s :
  exists had_v : bool,
    s = (if had_v then "v" else EmptyString)
        +:+ match s with String "v"%char s' => s' | _ => s end
    /\ startswith "v" s = had_v.
Proof.
  destruct s as [|a s]; [exists false; done|].
  destruct (Ascii.eqb_spec a "v") as [->|Hne].
  - exists true. split; [reflexivity|].
    unfold startswith. cbn [String.prefix].
    destruct (ascii_dec "v" "v") as [_|Hne]; [|by destruct Hne].
    by destruct s.
  - exists false. split.
    + by destruct a as [[] [] [] [] [] [] [] []].
    + unfold startswith. cbn [String.prefix].
      by destruct (ascii_dec "v" a) as [<-|].
Qed.

Lemma SEMVER_RE_match_inv s g1 g2 g3 :
  SEMVER_RE_match s = Some (g1, g2, g3) ->
  exists rest nl,
    digits g1 = true /\ rest_digits rest = true
    /\ g2 = minor_text rest /\ g3 = patch_text rest
    /\ s = semver_text (startswith "v" s) g1 rest +:+ dollar_text nl.
Proof.
  unfold SEMVER_RE_match.
  destruct (strip_v_inv s) as (had_v & Hs & Hv).
  set (s1 := match s with String "v"%char s' => s' | _ => s end) in *.
  destruct (span_digits s1) as [d1 r1] eqn:E1.
  apply span_digits_inv in E1 as (Hs1 & Hd1 & _).
  destruct (is_empty d1) eqn:Ee; [done|].
  destruct (opt_dot_digits r1) as [o2 r2] eqn:E2.
  destruct (opt_dot_digits r2) as [o3 r3] eqn:E3.
  destruct (at_dollar r3) eqn:Ed; [|done].
  intros [= <- <- <-].
  apply at_dollar_inv in Ed as [nl ->].
  assert (digits d1 = true) as Hdig by (unfold digits; by rewrite Ee, Hd1).
  rewrite Hv, Hs, Hs1. unfold semver_text.
  destruct o2 as [d2|].
  - apply opt_dot_digits_inv in E2 as (-> & Hd2 & _).
    destruct o3 as [d3|].
    + apply opt_dot_digits_inv in E3 as (-> & Hd3 & _).
      exists (Some (d2, Some d3)), nl. simpl. rewrite Hd2, Hd3.
      repeat split; try done. by rewrite !append_assoc.
    + pose proof (opt_dot_digits_inv _ _ _ E3) as Hr3. simpl in Hr3.
      subst r2. exists (Some (d2, None)), nl. simpl.
      repeat split; try done. by rewrite !append_assoc.
  - pose proof (opt_dot_digits_inv _ _ _ E2) as Hr2. simpl in Hr2. subst r2.
    rewrite E2 in E3. injection E3 as Ho3 Hr1. subst o3 r1.
    exists None, nl. simpl. repeat split; try done.
    by rewrite !append_assoc.
Qed.

Lemma opt_dot_digits_dollar nl :
  opt_dot_digits (dollar_text nl) = (None, dollar_text nl).
Proof. by destruct nl. Qed.

Lemma SEMVER_RE_match_text_dollar had_v major rest nl :
  digits major = true -> rest_digits rest = true ->
  SEMVER_RE_match (semver_text had_v major rest +:+ dollar_text nl)
  = Some (major, minor_text rest, patch_text rest).
Proof.
  intros Hm Hr. destruct (digits_head _ Hm) as (a & m' & -> & Ha & Hall).
  unfold SEMVER_RE_match, semver_text. rewrite !append_assoc.
  set (tail := match rest with
               | None => EmptyString
               | Some (minor, None) => "." +:+ minor
               | Some (minor, Some patch) => "." +:+ minor +:+ "." +:+ patch
               end +:+ dollar_text nl).
  assert (no_digit_head tail = true) as Ht
    by (subst tail; by destruct rest as [[? [?|]]|], nl).
  assert (match (if had_v then "v" else EmptyString)
                  +:+ String a m' +:+ tail with
          | String "v"%char s' => s'
          | _ => (if had_v then "v" else EmptyString)
                   +:+ String a m' +:+ tail
          end = String a m' +:+ tail) as ->.
  { destruct had_v; [done|]. rewrite append_empty_l, append_cons.
    by apply strip_v_digit. }
  rewrite (span_digits_app _ _ Hall Ht). cbn [is_empty].
  subst tail. destruct rest as [[minor [patch|]]|]; simpl in Hr.
  - apply andb_true_iff in Hr as [Hmi Hpa]. rewrite !append_assoc.
    rewrite (opt_dot_digits_group minor ("." +:+ patch +:+ dollar_text nl)
               Hmi eq_refl).
    rewrite (opt_dot_digits_group patch (dollar_text nl) Hpa)
      by (by destruct nl).
    by destruct nl.
  - rewrite !append_assoc.
    rewrite (opt_dot_digits_group minor (dollar_text nl) Hr)
      by (by destruct nl).
    rewrite opt_dot_digits_dollar. by destruct nl.
  - rewrite append_empty_l, !opt_dot_digits_dollar. by destruct nl.
Qed.

Lemma startswith_v_text_dollar had_v major rest nl :
  digits major = true ->
  startswith "v" (semver_text had_v major rest +:+ dollar_text nl) = had_v.
Proof.
  intros Hm. destruct (digits_head _ Hm) as (a & m' & -> & Ha & _).
  unfold startswith, semver_text. rewrite !append_assoc. destruct had_v.
  - rewrite append_cons, append_empty_l.
    cbn [String.prefix]. by destruct (ascii_dec "v" "v").
  - rewrite append_empty_l, append_cons. cbn [String.prefix].
    destruct (ascii_dec "v" a) as [<-|]; done.
Qed.

Lemma parse_semverish_shape s v :
  parse_semverish_value s = Some v ->
  exists (had_v : bool) major rest (nl : bool),
    digits major = true /\ rest_digits rest = true
    /\ s = semver_text had_v major rest +:+ dollar_text nl
    /\ v = version_of had_v major rest.
Proof.
  unfold parse_semverish_value.
  destruct (SEMVER_RE_match s) as [[[g1 g2] g3]|] eqn:E; [|done].
  intros [= <-].
  apply SEMVER_RE_match_inv in E as (rest & nl & Hd & Hr & -> & -> & Hs).
  exists (startswith "v" s), g1, rest, nl.
  repeat split; try done.
  unfold version_of. by destruct rest as [[minor [patch|]]|].
Qed.

Lemma parse_semverish_text_dollar had_v major rest nl :
  digits major = true -> rest_digits rest = true ->
  parse_semverish_value (semver_text had_v major rest +:+ dollar_text nl)
  = Some (version_of had_v major rest).
Proof.
  intros Hd Hr. unfold parse_semverish_value.
  rewrite (SEMVER_RE_match_text_dollar _ _ _ _ Hd Hr).
  rewrite (startswith_v_text_dollar _ _ _ _ Hd).
  unfold version_of. by destruct rest as [[minor [patch|]]|].
Qed.

(** [parse_semverish_value] accepts exactly the texts of the pattern
    [v?MAJOR(.MINOR)?(.PATCH)?], each also with one newline after it (the
    [$] of the expression lets a final newline pass), and returns the
    numbers the digits stand for, [-1] for an absent part, and whether the
    text starts with ["v"]. *)
Lemma parse_semverish_iff_value (s : string) (v : version) :
  parse_semverish_value s = Some v <->
  exists (had_v : bool) major rest (nl : bool),
    digits major = true /\ rest_digits rest = true
    /\ s = semver_text had_v major rest +:+ dollar_text nl
    /\ v = version_of had_v major rest.
Proof.
  split; [apply parse_semverish_shape|].
  intros (had_v & major & rest & nl & Hd & Hr & -> & ->).
  by apply parse_semverish_text_dollar.
Qed.

(** In a parsed version the major is not negative, minor and patch
    are not negative or are [-1], a patch comes only with a minor, and the
    flag tells whether the text starts with ["v"]. *)
Lemma parse_semverish_bounds_value (s : string) (maj minor patch : Z)
    (had_v : bool) :
  parse_semverish_value s = Some (maj, minor, patch, had_v) ->
  0 <= maj /\ -1 <= minor /\ -1 <= patch
  /\ (minor = -1 -> patch = -1)
  /\ had_v = startswith "v" s.
Proof.
  intros H.
  assert (had_v = startswith "v" s) as Hv.
  { unfold parse_semverish_value in H.
    destruct (SEMVER_RE_match s) as [[[g1 g2] g3]|]; [|done].
    by injection H as _ _ _ <-. }
  apply parse_semverish_shape in H
    as (hv & major & rest & nl & Hd & Hr & -> & Hver).
  unfold version_of in Hver. injection Hver as -> -> -> _.
  pose proof (int_nonneg _ Hd).
  destruct rest as [[mi [pa|]]|]; simpl in *.
  - apply andb_true_iff in Hr as [Hmi Hpa].
    pose proof (int_nonneg _ Hmi). pose proof (int_nonneg _ Hpa).
    repeat split; try done; lia.
  - pose proof (int_nonneg _ Hr). repeat split; try done; lia.
  - repeat split; done.
Qed.

(** *** Which of several maxima is picked *)

Section LastOfSorted.
Context {A : Type} (lt : A -> A -> bool).
Hypothesis lt_asym : forall a b, lt a b = true -> lt b a = false.
Hypothesis ge_trans :
  forall a b c, lt b a = false -> lt c b = false -> lt c a = false.

Lemma insert_by_not_nil x l : insert_by lt x l <> [].
Proof. destruct l as [|y l]; simpl; [done|]. by destruct (lt y x). Qed.

Lemma last_insert_by x l m :
  StronglySorted (not_after lt) l -> last l = Some m ->
  last (insert_by lt x l) = Some (if lt m x then x else m).
Proof.
  induction 1 as [|y l Hs IH Hy]; [done|]. intros Hl.
  destruct l as [|z l].
  - injection Hl as ->. simpl. by destruct (lt m x).
  - rewrite last_cons_cons in Hl. specialize (IH Hl).
    change (insert_by lt x (y :: z :: l))
      with (if lt y x then y :: insert_by lt x (z :: l)
            else x :: y :: z :: l).
    destruct (lt y x) eqn:Eyx.
    + pose proof (insert_by_not_nil x (z :: l)) as Hne.
      destruct (insert_by lt x (z :: l)) as [|w ws]; [done|].
      by rewrite last_cons_cons.
    + rewrite !last_cons_cons, Hl.
      assert (lt m x = false) as ->; [|done].
      rewrite Forall_forall in Hy.
      apply (ge_trans x y m); [done|].
      apply Hy. by apply last_Some_elem_of.
Qed.

(** The last element of the sorted list stands in the given list after
    the elements that do not exceed it and before elements that are all
    smaller: of several maxima the one listed last comes last. *)
Lemma last_sorted_by_split l m :
  last (sorted_by lt l) = Some m ->
  exists l1 l2,
    l = l1 ++ m :: l2
    /\ (forall a, a ∈ l1 -> lt m a = false)
    /\ (forall a, a ∈ l2 -> lt a m = true).
Proof.
  revert m. induction l as [|x l IH]; intros m; [done|]. simpl.
  destruct (last (sorted_by lt l)) as [m'|] eqn:El.
  - rewrite (last_insert_by x _ m' (sorted_by_sorted lt lt_asym ge_trans l) El).
    destruct (IH m' eq_refl) as (l1 & l2 & -> & H1 & H2).
    destruct (lt m' x) eqn:Em; intros [= <-].
    + exists [], (l1 ++ m' :: l2). split; [done|].
      split; [intros a Ha; by apply elem_of_nil in Ha|].
      intros a Ha.
      assert (lt m' a = false) as Hma.
      { apply elem_of_app in Ha as [Ha|Ha]; [by apply H1|].
        apply elem_of_cons in Ha as [->|Ha].
        - apply (lt_irrefl lt lt_asym).
        - by apply lt_asym, H2. }
      destruct (lt a x) eqn:Eax; [done|].
      by rewrite (ge_trans x a m' Eax Hma) in Em.
    + exists (x :: l1), l2. split; [done|]. split; [|done].
      intros a Ha. apply elem_of_cons in Ha as [->|Ha]; [done|].
      by apply H1.
  - apply last_None in El. rewrite El. simpl. intros [= <-].
    pose proof (sorted_by_perm lt l) as Hp. rewrite El in Hp.
    apply Permutation_nil in Hp. subst l.
    exists [], []. split; [done|].
    split; intros a Ha; by apply elem_of_nil in Ha.
Qed.
End LastOfSorted.

(** *** The pool, in one *)

Lemma filter_nil_inv {A} (f : A -> bool) l :
  List.filter f l = [] -> forall a, In a l -> f a = false.
Proof.
  intros H a Ha. destruct (f a) eqn:E; [|done].
  assert (In a (List.filter f l)) as Hin by (apply filter_In; auto).
  by rewrite H in Hin.
Qed.

Lemma pool_rivals old_v candidates :
  choose_pool
    (List.filter (in_preferred (major_of old_v) (minor_of old_v)) candidates)
    (List.filter (in_fallback (major_of old_v) (minor_of old_v)) candidates)
  = rivals old_v candidates.
Proof.
  unfold rivals. destruct (Z.leb_spec 0 (minor_of old_v)) as [Hmin|Hmin].
  - assert (List.filter (in_preferred (major_of old_v) (minor_of old_v))
              candidates = minor_matching old_v candidates) as ->.
    { unfold minor_matching. apply filter_ext. intros c.
      by apply in_preferred_minor. }
    replace (minor_of old_v >=? 0) with true
      by (symmetry; rewrite Z.geb_leb; by apply Z.leb_le).
    destruct (bool_decide_reflect (minor_matching old_v candidates = []))
      as [Hnil|Hne]; simpl.
    + rewrite Hnil. simpl. unfold major_matching.
      apply filter_ext_in. intros c Hc.
      pose proof (filter_nil_inv _ _ Hnil c Hc) as Hf. simpl in Hf.
      unfold in_fallback.
      replace (minor_of old_v >=? 0) with true
        by (symmetry; rewrite Z.geb_leb; by apply Z.leb_le).
      destruct (major_of c.2 =? major_of old_v); simpl in *; [|done].
      by rewrite Hf.
    + by apply choose_pool_nonempty.
  - replace (minor_of old_v >=? 0) with false
      by (symmetry; rewrite Z.geb_leb; by apply Z.leb_gt).
    simpl. unfold major_matching.
    assert (List.filter (in_preferred (major_of old_v) (minor_of old_v))
              candidates
            = List.filter (fun c => major_of c.2 =? major_of old_v)
                candidates) as ->.
    { apply filter_ext. intros c. unfold in_preferred.
      replace (minor_of old_v >=? 0) with false
        by (symmetry; rewrite Z.geb_leb; by apply Z.leb_gt).
      simpl. by rewrite andb_true_r. }
    assert (List.filter (in_fallback (major_of old_v) (minor_of old_v))
              candidates = []) as ->.
    { induction candidates as [|c cs IH]; [done|]. simpl.
      unfold in_fallback at 1.
      replace (minor_of old_v >=? 0) with false
        by (symmetry; rewrite Z.geb_leb; by apply Z.leb_gt).
      by rewrite andb_false_r. }
    unfold choose_pool.
    by destruct (List.filter (fun c => major_of c.2 =? major_of old_v)
                   candidates).
Qed.

Lemma selection_rivals old_tag all_tags :
  selection_value old_tag all_tags
  = if is_floating old_tag then None
    else
      match parse_semverish_value (base_of old_tag) with
      | None => None
      | Some old_v =>
          match pick_best
                  (rivals old_v
                     (filter_candidates_value (suffix_of old_tag) all_tags)) with
          | None => None
          | Some best => Some (old_v, best)
          end
      end.
Proof.
  unfold selection_value. destruct (is_floating old_tag); [done|].
  destruct (parse_semverish_value (base_of old_tag)) as [old_v|]; [|done].
  by rewrite split_pools_filter, pool_rivals.
Qed.

Lemma elem_of_rivals old_v candidates c :
  c ∈ rivals old_v candidates ->
  c ∈ candidates /\ major_of (snd c) = major_of old_v.
Proof.
  unfold rivals, minor_matching, major_matching.
  destruct (_ && _); intros H;
    apply list_elem_of_In, filter_In in H as [Hin Hf];
    apply list_elem_of_In in Hin; (split; [done|]).
  - apply andb_true_iff in Hf as [Hf _]. by apply Z.eqb_eq.
  - by apply Z.eqb_eq.
Qed.

(** The suggested tag is one of the rivals (the candidates of the old
    tag's suffix and major, and also of its minor when the old tag has one
    that some such candidate shares), and none of the rivals has a greater
    key. *)
Lemma suggestion_is_maximum_value (old_tag : string) (all_tags : list string)
    (t note : string) :
  choose_newer_tag_value old_tag all_tags = (Some t, note) ->
  exists old_v new_v,
    parse_semverish_value (base_of old_tag) = Some old_v
    /\ (t, new_v)
         ∈ rivals old_v (filter_candidates_value (suffix_of old_tag) all_tags)
    /\ forall c,
         c ∈ rivals old_v (filter_candidates_value (suffix_of old_tag) all_tags) ->
         ~ lex_lt (semver_sort_key new_v) (semver_sort_key (snd c)).
Proof.
  intros H.
  apply choose_newer_tag_Some in H as (old_v & new_v & Hsel & _ & _).
  pose proof (selection_sound _ _ _ _ _ Hsel) as (Hfl & Ho & _).
  rewrite selection_rivals, Hfl, Ho in Hsel.
  destruct (pick_best _) as [best|] eqn:Ep; [|done].
  injection Hsel as ->. apply pick_best_max in Ep as [Hin Hmax].
  exists old_v, new_v. done.
Qed.

(** *** Asking again *)

Lemma semverish_not_floating t v :
  parse_semverish_value (base_of t) = Some v -> is_floating t = false.
Proof.
  intros H. destruct (is_floating t) eqn:E; [|done].
  apply is_floating_spec in E as [->| ->]; done.
Qed.

Lemma rivals_of_rival old_v new_v candidates t c :
  (t, new_v) ∈ rivals old_v candidates ->
  c ∈ rivals new_v candidates -> c ∈ rivals old_v candidates.
Proof.
  intros Ht Hc.
  pose proof (elem_of_rivals _ _ _ Ht) as [Htin Htmaj]. simpl in Htmaj.
  pose proof (elem_of_rivals _ _ _ Hc) as [Hcin Hcmaj].
  unfold rivals in Ht |- *.
  destruct ((minor_of old_v >=? 0)
            && negb (bool_decide (minor_matching old_v candidates = [])))
    eqn:Eo.
  - (* the old tag's minor is shared: the new tag has it too *)
    apply andb_true_iff in Eo as [Hmin _].
    apply list_elem_of_In, filter_In in Ht as [_ Hf]. simpl in Hf.
    apply andb_true_iff in Hf as [_ Hmi]. apply Z.eqb_eq in Hmi.
    assert (In (t, new_v) (minor_matching new_v candidates)) as Hself.
    { apply filter_In. split; [by apply list_elem_of_In|]. simpl.
      by rewrite !Z.eqb_refl. }
    unfold rivals in Hc.
    replace (minor_of new_v >=? 0) with true in Hc by (by rewrite Hmi).
    destruct (bool_decide_reflect (minor_matching new_v candidates = []))
      as [Hnil|_]; [by rewrite Hnil in Hself|].
    simpl in Hc. apply list_elem_of_In, filter_In in Hc as [_ Hf].
    apply list_elem_of_In, filter_In. split; [by apply list_elem_of_In|].
    by rewrite <- Htmaj, <- Hmi.
  - apply list_elem_of_In, filter_In. split; [by apply list_elem_of_In|].
    apply Z.eqb_eq. congruence.
Qed.

(** The suggestion is a fixed point.  When [choose_newer_tag_value] suggests
    a tag, asking again with that tag as the old tag and the same list
    gives no suggestion, with the note of being at the newest matching
    tag. *)
Lemma suggestion_is_current_value (old_tag : string) (all_tags : list string)
    (t note : string) :
  choose_newer_tag_value old_tag all_tags = (Some t, note) ->
  choose_newer_tag_value t all_tags = (None, "already at newest matching tag").
Proof.
  intros H.
  apply choose_newer_tag_Some in H as (old_v & new_v & Hsel & _ & _).
  pose proof (selection_sound _ _ _ _ _ Hsel)
    as (Hfl & Ho & _ & Hsfx & Hn & _).
  rewrite selection_rivals, Hfl, Ho in Hsel.
  destruct (pick_best _) as [best|] eqn:Ep; [|done].
  injection Hsel as ->. apply pick_best_max in Ep as [Hin Hmax].
  set (cands := filter_candidates_value (suffix_of old_tag) all_tags) in *.
  assert ((t, new_v) ∈ rivals new_v cands) as Hself.
  { destruct (elem_of_rivals _ _ _ Hin) as [Hc _].
    unfold rivals, minor_matching, major_matching.
    destruct (_ && _); apply list_elem_of_In, filter_In;
      (split; [by apply list_elem_of_In|]); simpl;
      by rewrite ?Z.eqb_refl. }
  destruct (pick_best_is_Some (rivals new_v cands)) as [best' Hbest'].
  { intros Hnil. rewrite Hnil in Hself. by apply elem_of_nil in Hself. }
  assert (selection_value t all_tags = Some (new_v, best')) as Hsel'.
  { rewrite selection_rivals, (semverish_not_floating _ _ Hn), Hn, Hsfx.
    fold cands. by rewrite Hbest'. }
  rewrite (choose_newer_tag_selected _ _ _ _ Hsel'). unfold verdict.
  destruct (key_leb _ _) eqn:E; [done|].
  apply key_leb_not_lex in E.
  apply pick_best_max in Hbest' as [Hin' _].
  destruct (Hmax best'); [|done].
  by eapply rivals_of_rival.
Qed.

(** *** The note tells the outcome *)

(** A tag is suggested exactly when the note is that a newer version
    is available; the suggested tag is then not the empty text. *)
Lemma suggestion_iff_note_value (old_tag : string) (all_tags : list string) :
  (is_Some (fst (choose_newer_tag_value old_tag all_tags)) <->
   snd (choose_newer_tag_value old_tag all_tags) = "newer version available")
  /\ fst (choose_newer_tag_value old_tag all_tags) <> Some EmptyString.
Proof.
  split.
  - destruct (selection_value old_tag all_tags) as [[old_v best]|] eqn:Es.
    + rewrite (choose_newer_tag_selected _ _ _ _ Es). unfold verdict.
      destruct (key_leb _ _); simpl.
      * split; [by intros [? ?] | done].
      * split; [done | by eexists].
    + pose proof (choose_newer_tag_unselected _ _ Es) as Hn. rewrite Hn.
      split; [by intros [? ?]|]. intros Hnote. exfalso.
      revert Es Hnote. unfold selection_value, choose_newer_tag_value, is_floating.
      unfold base_of, suffix_of.
      destruct (_ || _); [done|].
      destruct (split_suffix old_tag) as [b sfx]. simpl.
      destruct (parse_semverish_value b) as [[[[maj mi] pa] hv]|]; [|done].
      simpl. destruct (filter_candidates_value sfx all_tags) as [|c cs]; [done|].
      destruct (split_pools maj mi (c :: cs)) as [pr fb].
      by destruct (pick_best (choose_pool pr fb)) as [[bt bv]|].
  - intros H.
    destruct (choose_newer_tag_value old_tag all_tags) as [o note] eqn:E.
    simpl in H. subst o.
    apply choose_newer_tag_Some in E as (old_v & new_v & Hsel & _ & _).
    by apply selection_sound in Hsel as (_ & _ & _ & _ & Hn & _).
Qed.

End ValuesMore.

(** ** The version heuristic as it runs *)

Module HeuristicFacts.
Import PyStr Images Values SortFacts ValuesFacts HeuristicNotions ValuesMore.

(** *** What the functions return is their value *)

Lemma int_within_limit d :
  exceeds_limit d = false -> int d = Returns (int_value d).
Proof. intros H. unfold int. by rewrite H. Qed.

Lemma parse_semverish_Returns s r :
  parse_semverish s = Returns r -> r = parse_semverish_value s.
Proof.
  unfold parse_semverish, parse_semverish_value.
  destruct (SEMVER_RE_match s) as [[[g1 g2] g3]|]; [|by intros [= <-]].
  unfold int. destruct (exceeds_limit g1); [done|]. simpl.
  destruct g2 as [d2|]; [destruct (exceeds_limit d2); [done|]|]; simpl.
  all: destruct g3 as [d3|]; [destruct (exceeds_limit d3); [done|]|]; simpl.
  all: by intros [= <-].
Qed.

Lemma parse_semverish_None s :
  parse_semverish_value s = None -> parse_semverish s = Returns None.
Proof.
  unfold parse_semverish, parse_semverish_value.
  by destruct (SEMVER_RE_match s) as [[[g1 g2] g3]|].
Qed.

Lemma parse_semverish_within_limit had_v major rest nl :
  digits major = true -> rest_digits rest = true ->
  text_exceeds_limit major rest = false ->
  parse_semverish (semver_text had_v major rest +:+ dollar_text nl)
  = Returns (Some (version_of had_v major rest)).
Proof.
  intros Hm Hr Hl. unfold parse_semverish.
  rewrite (SEMVER_RE_match_text_dollar _ _ _ nl Hm Hr).
  rewrite (startswith_v_text_dollar _ _ _ nl Hm).
  unfold text_exceeds_limit in Hl. apply orb_false_iff in Hl as [Hl1 Hl2].
  rewrite (int_within_limit _ Hl1). simpl.
  destruct rest as [[minor [patch|]]|]; simpl in *.
  - apply orb_false_iff in Hl2 as [Hl2 Hl3].
    by rewrite (int_within_limit _ Hl2), (int_within_limit _ Hl3).
  - by rewrite (int_within_limit _ Hl2).
  - done.
Qed.

Lemma parse_semverish_beyond_limit had_v major rest nl :
  digits major = true -> rest_digits rest = true ->
  text_exceeds_limit major rest = true ->
  exists d,
    exceeds_limit d = true
    /\ parse_semverish (semver_text had_v major rest +:+ dollar_text nl)
       = Raises (ValueError (limit_message d)).
Proof.
  intros Hm Hr Hl. unfold parse_semverish.
  rewrite (SEMVER_RE_match_text_dollar _ _ _ nl Hm Hr).
  rewrite (startswith_v_text_dollar _ _ _ nl Hm).
  unfold text_exceeds_limit in Hl. unfold int.
  destruct (exceeds_limit major) eqn:E1; [by exists major|]. simpl in *.
  destruct rest as [[minor [patch|]]|]; simpl in *; [| |done].
  - destruct (exceeds_limit minor) eqn:E2; [by exists minor|]. simpl in *.
    rewrite Hl. by exists patch.
  - rewrite Hl. by exists minor.
Qed.

Lemma filter_candidates_Returns sfx all_tags candidates :
  filter_candidates sfx all_tags = Returns candidates ->
  candidates = filter_candidates_value sfx all_tags
  /\ forall t, t ∈ all_tags -> suffix_of t = sfx ->
       parse_semverish (base_of t)
       = Returns (parse_semverish_value (base_of t)).
Proof.
  revert candidates. unfold suffix_of, base_of.
  induction all_tags as [|u us IH]; intros candidates; simpl.
  - intros [= <-]. split; [done|]. intros t Ht. by apply elem_of_nil in Ht.
  - destruct (split_suffix u) as [b s] eqn:Eu.
    destruct (bool_decide_reflect (sfx = s)) as [->|Hne]; simpl.
    + destruct (parse_semverish b) as [pv|e] eqn:Ep; simpl; [|done].
      destruct (filter_candidates s us) as [cs|e] eqn:Ef; simpl; [|done].
      intros [= <-]. destruct (IH cs eq_refl) as [-> Hall].
      pose proof (parse_semverish_Returns _ _ Ep) as Hpv.
      split; [by rewrite <- Hpv|].
      intros t [->|Hin]%elem_of_cons Hs; [|by apply Hall].
      rewrite Eu. simpl. by rewrite Ep, Hpv.
    + intros Hf. destruct (IH _ Hf) as [-> Hall]. split; [done|].
      intros t [->|Hin]%elem_of_cons Hs; [|by apply Hall].
      rewrite Eu in Hs. simpl in Hs. congruence.
Qed.

Lemma filter_candidates_returns sfx all_tags :
  (forall t, t ∈ all_tags -> suffix_of t = sfx ->
     exists r, parse_semverish (base_of t) = Returns r) ->
  filter_candidates sfx all_tags
  = Returns (filter_candidates_value sfx all_tags).
Proof.
  unfold suffix_of, base_of.
  induction all_tags as [|u us IH]; intros Hall; simpl; [done|].
  assert (filter_candidates sfx us
          = Returns (filter_candidates_value sfx us)) as Hus.
  { apply IH. intros t Ht. apply Hall. by right. }
  specialize (Hall u (list_elem_of_here _ _)).
  destruct (split_suffix u) as [b s].
  destruct (bool_decide_reflect (sfx = s)) as [->|Hne]; simpl; [|done].
  destruct (Hall eq_refl) as [r Hr]. simpl in Hr. rewrite Hr, Hus. simpl.
  by rewrite <- (parse_semverish_Returns _ _ Hr).
Qed.

(** [choose_newer_tag] raises what parsing the old base or filling the
    candidates raises, and returns its value otherwise. *)
Lemma choose_newer_tag_unfold old_tag all_tags :
  choose_newer_tag old_tag all_tags
  = if is_floating old_tag
    then Returns (choose_newer_tag_value old_tag all_tags)
    else
      match parse_semverish (base_of old_tag) with
      | Raises e => Raises e
      | Returns None => Returns (choose_newer_tag_value old_tag all_tags)
      | Returns (Some _) =>
          match filter_candidates (suffix_of old_tag) all_tags with
          | Raises e => Raises e
          | Returns _ => Returns (choose_newer_tag_value old_tag all_tags)
          end
      end.
Proof.
  unfold choose_newer_tag, choose_newer_tag_value, is_floating.
  unfold base_of, suffix_of.
  destruct (_ || _); [done|].
  destruct (split_suffix old_tag) as [b s]. simpl.
  destruct (parse_semverish b) as [r|e] eqn:Ep; simpl; [|done].
  apply parse_semverish_Returns in Ep as <-.
  destruct r as [[[[maj mi] pa] hv]|]; [|done].
  destruct (filter_candidates s all_tags) as [cs|e] eqn:Ef; simpl; [|done].
  apply filter_candidates_Returns in Ef as [-> _].
  destruct (filter_candidates_value s all_tags) as [|c cs]; [done|].
  destruct (split_pools maj mi (c :: cs)) as [preferred fallback].
  destruct (pick_best (choose_pool preferred fallback)) as [[bt bv]|];
    [|done].
  by destruct (key_leb _ _).
Qed.

Lemma choose_newer_tag_Returns old_tag all_tags r :
  choose_newer_tag old_tag all_tags = Returns r ->
  r = choose_newer_tag_value old_tag all_tags.
Proof.
  rewrite choose_newer_tag_unfold. repeat case_match; congruence.
Qed.

Lemma selection_values old_tag all_tags old_v best :
  selection old_tag all_tags = Some (old_v, best) ->
  selection_value old_tag all_tags = Some (old_v, best)
  /\ parse_semverish (base_of old_tag) = Returns (Some old_v)
  /\ filter_candidates (suffix_of old_tag) all_tags
     = Returns (filter_candidates_value (suffix_of old_tag) all_tags).
Proof.
  unfold selection, selection_value.
  destruct (is_floating old_tag); [done|].
  destruct (parse_semverish (base_of old_tag)) as [[ov|]|] eqn:Ep; try done.
  rewrite <- (parse_semverish_Returns _ _ Ep).
  destruct (filter_candidates (suffix_of old_tag) all_tags) as [cs|] eqn:Ef;
    [|done].
  destruct (filter_candidates_Returns _ _ _ Ef) as [-> _].
  intros H. split; [done|].
  destruct (split_pools _ _ _) as [preferred fallback].
  destruct (pick_best _); [|done]. by injection H as -> _.
Qed.

Lemma selection_of_values old_tag all_tags old_v best :
  selection_value old_tag all_tags = Some (old_v, best) ->
  parse_semverish (base_of old_tag) = Returns (Some old_v) ->
  filter_candidates (suffix_of old_tag) all_tags
  = Returns (filter_candidates_value (suffix_of old_tag) all_tags) ->
  selection old_tag all_tags = Some (old_v, best).
Proof.
  unfold selection, selection_value. intros H Hp Hf.
  destruct (is_floating old_tag); [done|].
  rewrite Hp, Hf. by rewrite <- (parse_semverish_Returns _ _ Hp) in H.
Qed.

(** *** The heuristic through its selection *)

Lemma chosen_of_selection old_tag all_tags old_v best :
  selection old_tag all_tags = Some (old_v, best) ->
  choose_newer_tag old_tag all_tags = Returns (verdict old_v best).
Proof.
  intros H. apply selection_values in H as (Hv & Hp & Hf).
  rewrite choose_newer_tag_unfold, Hp, Hf.
  rewrite (choose_newer_tag_selected _ _ _ _ Hv).
  by destruct (is_floating old_tag).
Qed.

(** What a suggestion tells about the run that made it. *)
Lemma chosen_Some old_tag all_tags t note :
  choose_newer_tag old_tag all_tags = Returns (Some t, note) ->
  exists old_v best_v,
    selection old_tag all_tags = Some (old_v, (t, best_v))
    /\ lex_lt (semver_sort_key old_v) (semver_sort_key best_v)
    /\ note = "newer version available".
Proof.
  intros H. pose proof (choose_newer_tag_Returns _ _ _ H) as Hv.
  symmetry in Hv.
  apply choose_newer_tag_Some in Hv as (old_v & best_v & Hs & Hlt & Hn).
  exists old_v, best_v. split; [|done].
  pose proof (selection_sound _ _ _ _ _ Hs) as (Hfl & Hp & _).
  rewrite choose_newer_tag_unfold, Hfl in H.
  destruct (parse_semverish (base_of old_tag)) as [r|] eqn:Ep; [|done].
  pose proof (parse_semverish_Returns _ _ Ep) as Hr.
  rewrite Hp in Hr. subst r.
  destruct (filter_candidates (suffix_of old_tag) all_tags) as [cs|] eqn:Ef;
    [|done].
  destruct (filter_candidates_Returns _ _ _ Ef) as [-> _].
  by apply selection_of_values.
Qed.

(** What the selection is made of. *)
Lemma selection_parts old_tag all_tags old_v t best_v :
  selection old_tag all_tags = Some (old_v, (t, best_v)) ->
  is_floating old_tag = false
  /\ parse_semverish (base_of old_tag) = Returns (Some old_v)
  /\ t ∈ all_tags
  /\ suffix_of t = suffix_of old_tag
  /\ parse_semverish (base_of t) = Returns (Some best_v)
  /\ major_of best_v = major_of old_v.
Proof.
  intros H. apply selection_values in H as (Hv & Hp & Hf).
  apply selection_sound in Hv as (Hfl & _ & Hin & Hs & Hb & Hm).
  apply filter_candidates_Returns in Hf as [_ Hall].
  repeat (split; [done|]). split; [|done].
  rewrite <- Hb. by apply Hall.
Qed.

Lemma tag_key_parsed s v :
  parse_semverish_value s = Some v -> tag_key s = Some (semver_sort_key v).
Proof.
  unfold parse_semverish_value, tag_key.
  destruct (SEMVER_RE_match s) as [[[g1 g2] g3]|] eqn:E; [|done].
  intros [= <-].
  apply SEMVER_RE_match_inv in E as (rest & nl & _ & Hr & -> & -> & _).
  unfold semver_sort_key. f_equal.
  destruct rest as [[minor [patch|]]|]; simpl in *.
  - apply andb_true_iff in Hr as [Hmi Hpa].
    pose proof (int_nonneg _ Hmi). pose proof (int_nonneg _ Hpa).
    by rewrite !Z.max_l by lia.
  - pose proof (int_nonneg _ Hr). by rewrite Z.max_l by lia.
  - done.
Qed.

Lemma tag_key_of_parse s v :
  parse_semverish s = Returns (Some v) ->
  tag_key s = Some (semver_sort_key v).
Proof.
  intros H. apply tag_key_parsed. by rewrite <- (parse_semverish_Returns _ _ H).
Qed.

(** ** Claims about the heuristic *)

(** C5: for the old tags [latest] and [stable], whatever the candidate
    list, [choose_newer_tag] returns, suggests no tag and gives the reason
    that the tag is not a version tag. *)
Theorem floating_tag_no_suggestion (old_tag : string) (all_tags : list string) :
  old_tag = "latest" \/ old_tag = "stable" ->
  choose_newer_tag old_tag all_tags
  = Returns (None, "'" +:+ old_tag +:+ "' is not a version tag").
Proof.
  intros H. apply is_floating_spec in H.
  unfold choose_newer_tag. unfold is_floating in H. by rewrite H.
Qed.

Lemma floating_tag_no_suggestion_witness :
  choose_newer_tag "stable" ["1.0"; "stable"; "2.3.4"]
  = Returns (None, "'stable' is not a version tag").
Proof.
  apply (floating_tag_no_suggestion "stable" ["1.0"; "stable"; "2.3.4"]).
  right. reflexivity.
Defined.

(** C6: for the old tag [v1.7.0] and the candidates [v1.7.1], [v1.8.0],
    [v2.0.0] the suggestion is [v1.7.1]: the old tag parses as major 1 and
    minor 7, the candidates of major 1 and minor 7 are just [v1.7.1], and
    its key exceeds the old one. *)
Theorem example_v1_7_0 :
  choose_newer_tag "v1.7.0" ["v1.7.1"; "v1.8.0"; "v2.0.0"]
  = Returns (Some "v1.7.1", "newer version available")
  /\ parse_semverish (base_of "v1.7.0") = Returns (Some (1, 7, 0, true))
  /\ filter_candidates (suffix_of "v1.7.0") ["v1.7.1"; "v1.8.0"; "v2.0.0"]
     = Returns [("v1.7.1", (1, 7, 1, true)); ("v1.8.0", (1, 8, 0, true));
                ("v2.0.0", (2, 0, 0, true))]
  /\ minor_matching (1, 7, 0, true)
       [("v1.7.1", (1, 7, 1, true)); ("v1.8.0", (1, 8, 0, true));
        ("v2.0.0", (2, 0, 0, true))]
     = [("v1.7.1", (1, 7, 1, true))]
  /\ lex_lt (semver_sort_key (1, 7, 0, true))
            (semver_sort_key (1, 7, 1, true)).
Proof.
  split; [vm_compute; reflexivity|].
  split; [vm_compute; reflexivity|].
  split; [vm_compute; reflexivity|].
  split; [vm_compute; reflexivity|].
  unfold lex_lt, semver_sort_key. lia.
Qed.

(** C2: a tag suggested by [choose_newer_tag] has a key (major,
    minor-or-0, patch-or-0) strictly greater than the key of the old tag,
    the keys being read off the two tags by [tag_key]; and when the key of
    the picked candidate is not strictly greater than the key of the old
    tag, the result is no suggestion with the note of being already
    current, and the picked tag with the note of a newer version
    otherwise.  So for the old tag [1.0] the tag [1.0.0], whose key is the
    same, is not suggested. *)
Theorem suggestion_strictly_newer (old_tag : string) (all_tags : list string) :
  (forall t note,
      choose_newer_tag old_tag all_tags = Returns (Some t, note) ->
      exists old_key new_key,
        tag_key (base_of old_tag) = Some old_key
        /\ tag_key (base_of t) = Some new_key
        /\ lex_lt old_key new_key)
  /\ (forall old_v best,
         selection old_tag all_tags = Some (old_v, best) ->
         exists old_key best_key,
           tag_key (base_of old_tag) = Some old_key
           /\ tag_key (base_of (fst best)) = Some best_key
           /\ (~ lex_lt old_key best_key ->
               choose_newer_tag old_tag all_tags
               = Returns (None, "already at newest matching tag"))
           /\ (lex_lt old_key best_key ->
               choose_newer_tag old_tag all_tags
               = Returns (Some (fst best), "newer version available")))
  /\ tag_key "1.0" = Some (1, 0, 0) /\ tag_key "1.0.0" = Some (1, 0, 0)
  /\ choose_newer_tag "1.0" ["1.0.0"]
     = Returns (None, "already at newest matching tag").
Proof.
  split; [|split].
  - intros t note H.
    apply chosen_Some in H as (old_v & new_v & Hs & Hlt & _).
    apply selection_parts in Hs as (_ & Ho & _ & _ & Hn & _).
    exists (semver_sort_key old_v), (semver_sort_key new_v).
    by rewrite (tag_key_of_parse _ _ Ho), (tag_key_of_parse _ _ Hn).
  - intros old_v [bt bv] Hs.
    pose proof (chosen_of_selection _ _ _ _ Hs) as Hc.
    apply selection_parts in Hs as (_ & Ho & _ & _ & Hn & _).
    exists (semver_sort_key old_v), (semver_sort_key bv).
    rewrite (tag_key_of_parse _ _ Ho). simpl.
    rewrite (tag_key_of_parse _ _ Hn).
    do 2 (split; [done|]). rewrite Hc. unfold verdict. simpl.
    destruct (key_leb _ _) eqn:E.
    + split; [done|]. intros Hlt. apply key_leb_not_lex in Hlt. congruence.
    + apply key_leb_not_lex in E. split; [done | done].
  - repeat split; vm_compute; reflexivity.
Qed.

Lemma suggestion_strictly_newer_witness :
  (exists old_key new_key,
      tag_key (base_of "1.0") = Some old_key
      /\ tag_key (base_of "v1.1") = Some new_key
      /\ lex_lt old_key new_key)
  /\ choose_newer_tag "3-alpine" ["3-alpine"; "4-alpine"; "4"]
     = Returns (None, "already at newest matching tag")
  /\ choose_newer_tag "1.0" ["1.0.0"; "1.0.1"]
     = Returns (Some "1.0.1", "newer version available").
Proof.
  split; [|split].
  - apply (proj1 (suggestion_strictly_newer "1.0" ["v1.1"])
             "v1.1" "newer version available").
    vm_compute. reflexivity.
  - destruct (proj1 (proj2 (suggestion_strictly_newer "3-alpine"
                              ["3-alpine"; "4-alpine"; "4"]))
                (3, -1, -1, false) ("3-alpine", (3, -1, -1, false)))
      as (old_key & best_key & Ho & Hb & Hle & _).
    + vm_compute. reflexivity.
    + apply Hle. vm_compute in Ho, Hb.
      injection Ho as <-. injection Hb as <-.
      unfold lex_lt. lia.
  - destruct (proj1 (proj2 (suggestion_strictly_newer "1.0"
                              ["1.0.0"; "1.0.1"]))
                (1, 0, -1, false) ("1.0.1", (1, 0, 1, false)))
      as (old_key & best_key & Ho & Hb & _ & Hlt).
    + vm_compute. reflexivity.
    + apply Hlt. vm_compute in Ho, Hb.
      injection Ho as <-. injection Hb as <-.
      unfold lex_lt. lia.
Defined.

(** C3: a tag suggested by [choose_newer_tag] has the old tag's suffix,
    the part after the first hyphen, both absent included; a candidate
    with another suffix is never suggested. *)
Theorem suggestion_keeps_suffix (old_tag : string) (all_tags : list string)
    (t note : string) :
  choose_newer_tag old_tag all_tags = Returns (Some t, note) ->
  suffix_of t = suffix_of old_tag
  /\ suffix_of t = after_first_hyphen t
  /\ suffix_of old_tag = after_first_hyphen old_tag
  /\ forall c, suffix_of c <> suffix_of old_tag -> t <> c.
Proof.
  intros H.
  apply chosen_Some in H as (old_v & new_v & Hs & _ & _).
  apply selection_parts in Hs as (_ & Ho & _ & Hsfx & Hn & _).
  apply parse_semverish_Returns in Ho, Hn.
  repeat split.
  - done.
  - by eapply suffix_of_semverish.
  - by eapply suffix_of_semverish.
  - intros c Hc ->. done.
Qed.

Lemma suggestion_keeps_suffix_witness :
  suffix_of "2.8-alpine" = suffix_of "2-alpine"
  /\ suffix_of "2.8-alpine" = after_first_hyphen "2.8-alpine"
  /\ suffix_of "2-alpine" = after_first_hyphen "2-alpine"
  /\ forall c, suffix_of c <> suffix_of "2-alpine" -> "2.8-alpine" <> c.
Proof.
  apply (suggestion_keeps_suffix "2-alpine"
           ["2.7-alpine"; "2.9"; "2.8-alpine"; "2.9-slim"]
           "2.8-alpine" "newer version available").
  vm_compute. reflexivity.
Defined.

(** C9: a tag suggested by [choose_newer_tag] is an element of the given
    candidate list, and its base parses with the major number of the old
    tag's base. *)
Theorem suggestion_from_list_same_major (old_tag : string)
    (all_tags : list string) (t note : string) :
  choose_newer_tag old_tag all_tags = Returns (Some t, note) ->
  In t all_tags
  /\ exists old_v new_v,
       parse_semverish (base_of old_tag) = Returns (Some old_v)
       /\ parse_semverish (base_of t) = Returns (Some new_v)
       /\ major_of new_v = major_of old_v.
Proof.
  intros H.
  apply chosen_Some in H as (old_v & new_v & Hs & _ & _).
  apply selection_parts in Hs as (_ & Ho & Hin & _ & Hn & Hmaj).
  split; [by apply list_elem_of_In|]. eauto.
Qed.

Lemma suggestion_from_list_same_major_witness :
  In "1.9.2" ["2.0.0"; "1.9.2"; "1.8.0"]
  /\ exists old_v new_v,
       parse_semverish (base_of "1") = Returns (Some old_v)
       /\ parse_semverish (base_of "1.9.2") = Returns (Some new_v)
       /\ major_of new_v = major_of old_v.
Proof.
  apply (suggestion_from_list_same_major "1" ["2.0.0"; "1.9.2"; "1.8.0"]
           "1.9.2" "newer version available").
  vm_compute. reflexivity.
Defined.

(** C7, as it stands, fails: the base of 4301 digits is of the pattern
    [v?MAJOR(.MINOR)?(.PATCH)?], and [parse_semverish] raises for it, so
    that no absent part is represented at all. *)
Lemma absent_parts_long_major :
  digits long_tag = true
  /\ rest_digits None = true
  /\ parse_semverish (semver_text false long_tag None)
     = Raises (ValueError (limit_message long_tag))
  /\ ~ absent_parts_minus_one false long_tag None.
Proof.
  assert (parse_semverish (semver_text false long_tag None)
          = Raises (ValueError (limit_message long_tag))) as E
    by (vm_compute; reflexivity).
  split; [vm_compute; reflexivity|]. split; [done|]. split; [done|].
  intros (maj & minor & patch & flag & H & _). rewrite E in H. done.
Qed.

(** C7, amended: for a base of the pattern [v?MAJOR(.MINOR)?(.PATCH)?]
    none of whose runs of digits is longer than 4300, [parse_semverish]
    gives [-1] for an absent minor or patch, and [semver_sort_key], the key
    by which candidates are ranked and compared, gives [0] for them; the
    base [2] parses as [(2, -1, -1)] and ranks as [(2, 0, 0)]. *)
Theorem absent_parts_parse_minus_one_rank_zero (had_v : bool)
    (major : string) (rest : option (string * option string)) :
  digits major = true -> rest_digits rest = true ->
  text_exceeds_limit major rest = false ->
  parse_semverish (semver_text had_v major rest)
  = Returns (Some (int_value major,
                   default (-1) (int_value <$> minor_text rest),
                   default (-1) (int_value <$> patch_text rest),
                   had_v))
  /\ absent_parts_minus_one had_v major rest
  /\ semver_sort_key
       (int_value major,
        default (-1) (int_value <$> minor_text rest),
        default (-1) (int_value <$> patch_text rest),
        had_v)
     = (int_value major,
        default 0 (int_value <$> minor_text rest),
        default 0 (int_value <$> patch_text rest))
  /\ parse_semverish "2" = Returns (Some (2, -1, -1, false))
  /\ semver_sort_key (2, -1, -1, false) = (2, 0, 0).
Proof.
  intros Hm Hr Hl.
  pose proof (parse_semverish_within_limit had_v _ _ false Hm Hr Hl) as Hp.
  simpl in Hp. rewrite append_empty_r in Hp. unfold version_of in Hp.
  split; [done|]. split; [|split; [|done]].
  - eexists _, _, _, _. split; [exact Hp|].
    split; by intros ->.
  - unfold semver_sort_key.
    destruct rest as [[minor [patch|]]|]; simpl in *.
    + apply andb_true_iff in Hr as [Hmi Hpa].
      pose proof (int_nonneg _ Hmi). pose proof (int_nonneg _ Hpa).
      by rewrite !Z.max_l by lia.
    + pose proof (int_nonneg _ Hr). by rewrite Z.max_l by lia.
    + done.
Qed.

Lemma absent_parts_parse_minus_one_rank_zero_witness :
  parse_semverish "v12.04" = Returns (Some (12, 4, -1, true))
  /\ semver_sort_key (12, 4, -1, true) = (12, 4, 0).
Proof.
  pose proof (absent_parts_parse_minus_one_rank_zero true "12"
                (Some ("04", None)) eq_refl eq_refl eq_refl)
    as (Hp & _ & Hk & _).
  split; [exact Hp | exact Hk].
Defined.

(** C1: for the old tag [2.7] and the candidates [2.6], [2.7], [2.8],
    [2.9-alpine] there is no suggestion, with the note of being already
    current.  When the old tag has a minor and some candidate of its major
    has that minor, the pick is made among the candidates of that minor
    alone, whatever the other candidates of the major are, and also when
    none of that minor is newer than the old tag. *)
Theorem preferred_pool_only :
  choose_newer_tag "2.7" ["2.6"; "2.7"; "2.8"; "2.9-alpine"]
  = Returns (None, "already at newest matching tag")
  /\ forall old_tag all_tags old_v candidates,
       is_floating old_tag = false ->
       parse_semverish (base_of old_tag) = Returns (Some old_v) ->
       0 <= minor_of old_v ->
       filter_candidates (suffix_of old_tag) all_tags = Returns candidates ->
       let preferred := minor_matching old_v candidates in
       preferred <> [] ->
       (exists best,
           pick_best preferred = Some best
           /\ choose_newer_tag old_tag all_tags
              = Returns (verdict old_v best))
       /\ ((forall c, c ∈ preferred ->
              ~ lex_lt (semver_sort_key old_v) (semver_sort_key (snd c))) ->
           choose_newer_tag old_tag all_tags
           = Returns (None, "already at newest matching tag")).
Proof.
  split; [vm_compute; reflexivity|].
  intros old_tag all_tags old_v candidates Hfl Hp Hmin Hf preferred Hne.
  pose proof (filter_candidates_Returns _ _ _ Hf) as [-> _].
  pose proof (parse_semverish_Returns _ _ Hp) as Hpv. symmetry in Hpv.
  destruct (selection_minor_matching _ _ _ Hfl Hpv Hmin Hne)
    as (best & Hbest & Hsel).
  pose proof (chosen_of_selection _ _ _ _
                (selection_of_values _ _ _ _ Hsel Hp Hf)) as Hc.
  split; [by exists best|].
  intros Hnone. rewrite Hc. unfold verdict.
  destruct (key_leb _ _) eqn:E; [done|].
  apply key_leb_not_lex in E.
  apply pick_best_max in Hbest as [Hin _].
  by apply Hnone in Hin.
Qed.

Lemma preferred_pool_only_witness :
  minor_matching (2, 7, -1, false)
    [("2.6", (2, 6, -1, false)); ("2.7", (2, 7, -1, false));
     ("2.8", (2, 8, -1, false))]
  = [("2.7", (2, 7, -1, false))]
  /\ choose_newer_tag "2.7" ["2.6"; "2.7"; "2.8"; "2.9-alpine"]
     = Returns (None, "already at newest matching tag").
Proof.
  split; [vm_compute; reflexivity|].
  apply (proj2 preferred_pool_only "2.7" ["2.6"; "2.7"; "2.8"; "2.9-alpine"]
           (2, 7, -1, false)
           [("2.6", (2, 6, -1, false)); ("2.7", (2, 7, -1, false));
            ("2.8", (2, 8, -1, false))]).
  - reflexivity.
  - vm_compute. reflexivity.
  - simpl. lia.
  - vm_compute. reflexivity.
  - vm_compute. discriminate.
  - intros c Hc.
    assert (c = ("2.7", (2, 7, -1, false))) as ->.
    { vm_compute in Hc. by apply list_elem_of_singleton in Hc. }
    unfold lex_lt, semver_sort_key. cbn. lia.
Defined.

(** *** The prefix flag plays no part *)

Lemma same_but_prefix_values t t' :
  same_but_prefix t t' -> same_but_prefix_value t t'.
Proof.
  intros (Hs & v & v' & Hv & Hv' & Hfst). split; [done|].
  by rewrite <- (parse_semverish_Returns _ _ Hv),
             <- (parse_semverish_Returns _ _ Hv').
Qed.

Lemma Forall2_elem_l {A B} (R : A -> B -> Prop) l k x :
  Forall2 R l k -> x ∈ l -> exists y, y ∈ k /\ R x y.
Proof.
  induction 1 as [|a b l k Hab HF IH]; intros Hx.
  - by apply elem_of_nil in Hx.
  - apply elem_of_cons in Hx as [->|Hx].
    + exists b. split; [left | done].
    + destruct (IH Hx) as (y & Hy & Hxy). exists y. split; [by right | done].
Qed.

Lemma Forall2_elem_r {A B} (R : A -> B -> Prop) l k y :
  Forall2 R l k -> y ∈ k -> exists x, x ∈ l /\ R x y.
Proof.
  induction 1 as [|a b l k Hab HF IH]; intros Hy.
  - by apply elem_of_nil in Hy.
  - apply elem_of_cons in Hy as [->|Hy].
    + exists a. split; [left | done].
    + destruct (IH Hy) as (x & Hx & Hxy). exists x. split; [by right | done].
Qed.

Lemma chosen_of_same_but_prefix old_tag old_tag' all_tags all_tags' :
  same_but_prefix old_tag old_tag' ->
  Forall2 same_but_prefix all_tags all_tags' ->
  choose_newer_tag old_tag all_tags
  = Returns (choose_newer_tag_value old_tag all_tags)
  /\ choose_newer_tag old_tag' all_tags'
     = Returns (choose_newer_tag_value old_tag' all_tags').
Proof.
  intros (_ & v & v' & Hv & Hv' & _) HF.
  assert (filter_candidates (suffix_of old_tag) all_tags
          = Returns (filter_candidates_value (suffix_of old_tag) all_tags))
    as Hf.
  { apply filter_candidates_returns. intros t Ht _.
    destruct (Forall2_elem_l _ _ _ _ HF Ht)
      as (t' & _ & _ & r & r' & Hr & _).
    eauto. }
  assert (filter_candidates (suffix_of old_tag') all_tags'
          = Returns (filter_candidates_value (suffix_of old_tag') all_tags'))
    as Hf'.
  { apply filter_candidates_returns. intros t' Ht' _.
    destruct (Forall2_elem_r _ _ _ _ HF Ht')
      as (t & _ & _ & r & r' & _ & Hr' & _).
    eauto. }
  rewrite !choose_newer_tag_unfold, Hv, Hv', Hf, Hf'.
  by destruct (is_floating old_tag), (is_floating old_tag'), v, v'.
Qed.

(** C10: the prefix flag that [parse_semverish] returns takes no part in
    filtering, pooling or ranking: old tags and candidate lists that
    differ at most in the ["v"] in front of bases lead to the same note
    and to suggestions at the same place of the two lists; so a suggestion
    may have another prefix than the old tag, as [v1.1] for the old tag
    [1.0] and the candidate list [[v1.1]]. *)
Theorem had_v_prefix_ignored :
  choose_newer_tag "1.0" ["v1.1"]
  = Returns (Some "v1.1", "newer version available")
  /\ forall old_tag old_tag' all_tags all_tags',
       is_floating old_tag = false -> is_floating old_tag' = false ->
       same_but_prefix old_tag old_tag' ->
       Forall2 same_but_prefix all_tags all_tags' ->
       exists r r',
         choose_newer_tag old_tag all_tags = Returns r
         /\ choose_newer_tag old_tag' all_tags' = Returns r'
         /\ option_Forall2 (fun t t' => (t, t') ∈ zip all_tags all_tags')
              (fst r) (fst r')
         /\ snd r = snd r'.
Proof.
  split; [vm_compute; reflexivity|].
  intros old_tag old_tag' all_tags all_tags' Hfl Hfl' Ho HF.
  destruct (chosen_of_same_but_prefix _ _ _ _ Ho HF) as [Hc Hc'].
  eexists _, _. split; [exact Hc|]. split; [exact Hc'|].
  apply choose_newer_tag_alike; try done.
  - by apply same_but_prefix_values.
  - apply Forall2_with_zip.
    eapply Forall2_impl; [exact HF|]. apply same_but_prefix_values.
Qed.

Lemma had_v_prefix_ignored_witness :
  exists r r',
    choose_newer_tag "1.0" ["v1.1"; "1.2-rc"; "v1.3"] = Returns r
    /\ choose_newer_tag "v1.0" ["1.1"; "v1.2-rc"; "1.3"] = Returns r'
    /\ option_Forall2
         (fun t t' => (t, t') ∈ zip ["v1.1"; "1.2-rc"; "v1.3"]
                                    ["1.1"; "v1.2-rc"; "1.3"])
         (fst r) (fst r')
    /\ snd r = snd r'.
Proof.
  apply (proj2 had_v_prefix_ignored "1.0" "v1.0"
           ["v1.1"; "1.2-rc"; "v1.3"] ["1.1"; "v1.2-rc"; "1.3"]).
  - reflexivity.
  - reflexivity.
  - split; [vm_compute; reflexivity|]. eexists _, _.
    split; [vm_compute; reflexivity|]. split; vm_compute; reflexivity.
  - repeat constructor; try (vm_compute; reflexivity).
    all: eexists _, _; split; [vm_compute; reflexivity|];
      split; vm_compute; reflexivity.
Defined.

End HeuristicFacts.

(** ** The entry point *)

Module MainFacts.
Import PyStr Images.

Lemma check_ref_entry w usage hub_cache ref hub_cache' r :
  cache_sound w hub_cache ->
  check_ref w usage hub_cache ref = Some (hub_cache', r) ->
  cache_sound w hub_cache' /\ entry_of w ref r.
Proof.
  intros Hc. unfold check_ref, entry_of, listing_fails.
  destruct (String.eqb_spec (registry ref) "docker.io") as [Hreg|Hreg].
  - destruct (hub_cache !! repo ref) as [tags|] eqn:Ecache.
    + (* cached: the registry answered earlier in the run *)
      assert (forall P : Prop,
                 (exists reply,
                     dockerhub_list_tags w (repo ref) = Some reply
                     /\ forall tag_rows, reply <> TagRows tag_rows) -> P)
        as Hnot.
      { intros P (reply & Hr & Hfail).
        destruct (Hc _ _ Ecache) as [rows Hrows].
        rewrite Hrows in Hr. injection Hr as <-. by destruct (Hfail rows). }
      destruct (choose_newer_tag (tag ref) tags) as [[new_tag note]|e];
        intros [= <- <-]; simpl.
      * split; [done|]. do 3 (split; [done|]). intros _. apply Hnot.
      * split; [done|]. by do 3 (split; [done|]).
    + destruct (dockerhub_list_tags w (repo ref)) as [[rows|code|msg]|] eqn:Er;
        [| | |done].
      * (* the registry answers: the tag names are cached *)
        assert (cache_sound w (<[repo ref := map fst rows]> hub_cache))
          as Hc'.
        { intros repository tags.
          destruct (decide (repo ref = repository)) as [<-|Hne].
          - eauto.
          - rewrite lookup_insert_ne by done. apply Hc. }
        destruct (choose_newer_tag (tag ref) (map fst rows))
          as [[new_tag note]|e]; intros [= <- <-]; simpl.
        -- split; [done|]. do 3 (split; [done|]).
           intros _ (reply & [= <-] & Hfail). by destruct (Hfail rows).
        -- split; [done|]. by do 3 (split; [done|]).
      * (* urllib.error.HTTPError *)
        intros [= <- <-]. simpl. by repeat (split; [done|]).
      * (* any other exception *)
        intros [= <- <-]. simpl. by repeat (split; [done|]).
  - (* another registry *)
    intros [= <- <-]. simpl. do 4 (split; [done|]). intros Hio.
    by destruct Hreg.
Qed.

Lemma check_refs_entries w usage hub_cache refs rows :
  cache_sound w hub_cache ->
  check_refs w usage hub_cache refs = Some rows ->
  Forall2 (entry_of w) refs rows.
Proof.
  revert hub_cache rows.
  induction refs as [|ref refs IH]; intros hub_cache rows Hc; simpl.
  - intros [= <-]. constructor.
  - destruct (check_ref w usage hub_cache ref) as [[hub_cache' r]|] eqn:Er;
      [|done].
    destruct (check_ref_entry _ _ _ _ _ _ Hc Er) as [Hc' He].
    destruct (check_refs w usage hub_cache' refs) as [rows'|] eqn:Ers;
      [|done].
    intros [= <-]. constructor; [done|]. by eapply IH.
Qed.

Lemma cache_sound_empty w : cache_sound w ∅.
Proof. intros r tags H. by rewrite lookup_empty in H. Qed.

(** An entry is printed whenever the listing, if one is asked for, ends:
    what the registry answers and what the heuristic raises is handled. *)
Lemma check_ref_ends w usage hub_cache ref :
  (registry ref = "docker.io" ->
   is_Some (dockerhub_list_tags w (repo ref))) ->
  is_Some (check_ref w usage hub_cache ref).
Proof.
  intros Hend. unfold check_ref.
  destruct (String.eqb_spec (registry ref) "docker.io") as [Hreg|Hreg];
    [|by eexists].
  destruct (hub_cache !! repo ref) as [tags|].
  - by destruct (choose_newer_tag (tag ref) tags) as [[new_tag note]|e].
  - destruct (Hend Hreg) as [[rows|code|msg] ->]; [|by eexists..].
    by destruct (choose_newer_tag (tag ref) (map fst rows))
      as [[new_tag note]|e].
Qed.

Lemma check_refs_ends w usage hub_cache refs :
  listings_end w refs -> is_Some (check_refs w usage hub_cache refs).
Proof.
  revert hub_cache. induction refs as [|ref refs IH]; intros hub_cache Hend.
  - by eexists.
  - simpl.
    destruct (check_ref_ends w usage hub_cache ref) as [[hub_cache' r] ->].
    { apply Hend. by left. }
    destruct (IH hub_cache') as [rows ->]; [|by eexists].
    intros ref' Hin. apply Hend. by right.
Qed.

Lemma collect_usage_returns w root files usage :
  (forall f, In f files ->
     exists imgs, extract_images_from_compose_yaml w f = Returns imgs) ->
  exists usage', collect_usage w root files usage = Returns usage'.
Proof.
  revert usage. induction files as [|f files IH]; intros usage Hall; simpl.
  - by eexists.
  - destruct (Hall f) as [imgs ->]; [by left|]. simpl.
    apply IH. intros f' Hf'. apply Hall. by right.
Qed.




(** The runs of the examples: one image on a registry that fails and the
    run ends with exit code 0 and an [ERROR] entry for it; a tag of 4301
    digits and the heuristic raises, which gives [ERROR] entries as
    well. *)
Lemma main_exit_code_example :
  (exists r,
      main "/srv/stacks" "**/docker-compose*.yml" example_world = Exits r
      /\ exit_code r = 0
      /\ map (fun r => (row_image r, row_status r, row_new r)) (table r)
         = [("foo/bar", UNSUPPORTED, None);
            ("library/nginx", ERROR, None);
            ("library/redis", UPGRADE, Some "7.2")])
  /\ (exists r,
         main "/srv/stacks" "**/docker-compose*.yml" long_tag_world = Exits r
         /\ exit_code r = 0
         /\ map (fun r => (row_image r, row_status r, row_note r)) (table r)
            = [("foo/bar", UNSUPPORTED,
                "non-Docker Hub registry; tag listing not implemented");
               ("library/nginx", ERROR,
                "Docker Hub error: " +:+ limit_message long_tag);
               ("library/redis", ERROR,
                "Docker Hub error: " +:+ limit_message long_tag)]).
Proof.
  split.
  - eexists. split; [vm_compute; reflexivity|].
    split; vm_compute; reflexivity.
  - eexists. split; [vm_compute; reflexivity|].
    split; vm_compute; reflexivity.
Qed.

End MainFacts.

(** ** More on the heuristic *)

Module HeuristicMore.
Import PyStr Images Values SortFacts ValuesFacts HeuristicNotions ValuesMore.
Import HeuristicFacts.

(** *** Suffixes and digests *)

(** X1: [split_suffix] loses nothing: the tag is the base, followed by a
    hyphen and the suffix when there is one.  There is a suffix exactly for
    the tags with a hyphen that do not start with [sha256:], and then the
    base has no hyphen. *)
Theorem split_suffix_join (tag base : string) (suffix : option string) :
  split_suffix tag = (base, suffix) ->
  tag = base +:+ match suffix with
                 | Some sfx => String "-" sfx
                 | None => EmptyString
                 end
  /\ (is_Some suffix <->
      contains "-" tag = true /\ startswith "sha256:" tag = false)
  /\ (is_Some suffix -> contains "-" base = false).
Proof.
  unfold split_suffix.
  destruct (contains "-" tag) eqn:Ec; simpl.
  - destruct (startswith "sha256:" tag) eqn:Es; simpl.
    + intros [= <- <-]. rewrite append_empty_r.
      split; [done|]. split; [|by intros [? ?]].
      split; [by intros [? ?] | by intros [_ ?]].
    + apply split_once_contains in Ec as [[b r] Hbr]. rewrite Hbr.
      intros [= <- <-]. apply split_once_join in Hbr as [-> Hb].
      split; [done|]. split; [|done]. split; [done | by eexists].
  - intros [= <- <-]. rewrite append_empty_r.
    split; [done|]. split; [|by intros [? ?]].
    split; [by intros [? ?] | by intros [? _]].
Qed.

Lemma split_suffix_join_witness :
  "2.7-alpine-slim" = "2.7" +:+ String "-" "alpine-slim"
  /\ (is_Some (Some "alpine-slim") <->
      contains "-" "2.7-alpine-slim" = true
      /\ startswith "sha256:" "2.7-alpine-slim" = false)
  /\ (is_Some (Some "alpine-slim") -> contains "-" "2.7" = false).
Proof.
  apply (split_suffix_join "2.7-alpine-slim" "2.7" (Some "alpine-slim")).
  vm_compute. reflexivity.
Defined.

(** X2: a tag that starts with [sha256:] is never split, so an old tag of
    that form gets no suggestion, being not semver-like, and no tag of that
    form is ever suggested. *)
Theorem digest_tag_no_suggestion (old_tag : string) (all_tags : list string) :
  (startswith "sha256:" old_tag = true ->
   split_suffix old_tag = (old_tag, None)
   /\ choose_newer_tag old_tag all_tags
      = Returns (None, "tag not semver-like; no safe upgrade suggestion"))
  /\ (forall t note,
         choose_newer_tag old_tag all_tags = Returns (Some t, note) ->
         startswith "sha256:" t = false).
Proof.
  split.
  - intros Hs.
    assert (split_suffix old_tag = (old_tag, None)) as Hsplit.
    { unfold split_suffix. rewrite Hs. simpl. by rewrite andb_false_r. }
    split; [done|].
    pose proof (startswith_sha256_not_floating _ Hs) as Hfl.
    unfold choose_newer_tag. unfold is_floating in Hfl.
    rewrite Hfl, Hsplit.
    by rewrite (parse_semverish_None _ (parse_semverish_sha256 _ Hs)).
  - intros t note H.
    apply chosen_Some in H as (old_v & new_v & Hsel & _ & _).
    apply selection_parts in Hsel as (_ & _ & _ & _ & Hn & _).
    destruct (startswith "sha256:" t) eqn:Es; [|done].
    assert (base_of t = t) as Hb.
    { unfold base_of, split_suffix. rewrite Es. simpl.
      by rewrite andb_false_r. }
    rewrite Hb, (parse_semverish_None _ (parse_semverish_sha256 _ Es)) in Hn.
    done.
Qed.

Lemma digest_tag_no_suggestion_witness :
  split_suffix "sha256:0a-1b" = ("sha256:0a-1b", None)
  /\ choose_newer_tag "sha256:0a-1b" ["1.0"; "sha256:0a-2c"]
     = Returns (None, "tag not semver-like; no safe upgrade suggestion").
Proof.
  apply (proj1 (digest_tag_no_suggestion "sha256:0a-1b"
                  ["1.0"; "sha256:0a-2c"])).
  reflexivity.
Defined.

(** *** What parses *)

(** X3: what [parse_semverish] comes to for a text of code points below
    256, as the texts of [string] are.  It returns a version exactly for
    the texts of the pattern [v?MAJOR(.MINOR)?(.PATCH)?], each also with
    one newline after it (the [$] of the expression lets a final newline
    pass), in which no run of digits is longer than 4300: the version has
    the numbers the digits stand for, [-1] for an absent part, and whether
    the text starts with ["v"].  It raises exactly for the texts of the
    pattern with a run of more than 4300 digits, and then the [ValueError]
    of [int] for such a run.  It returns [None] exactly for the other
    texts. *)
Theorem parse_semverish_iff (s : string) :
  (forall v,
      parse_semverish s = Returns (Some v) <->
      exists (had_v : bool) major rest (nl : bool),
        digits major = true /\ rest_digits rest = true
        /\ s = semver_text had_v major rest +:+ dollar_text nl
        /\ text_exceeds_limit major rest = false
        /\ v = version_of had_v major rest)
  /\ ((exists e, parse_semverish s = Raises e) <->
      exists (had_v : bool) major rest (nl : bool),
        digits major = true /\ rest_digits rest = true
        /\ s = semver_text had_v major rest +:+ dollar_text nl
        /\ text_exceeds_limit major rest = true)
  /\ (forall e,
         parse_semverish s = Raises e ->
         exists d,
           exceeds_limit d = true /\ e = ValueError (limit_message d))
  /\ (parse_semverish s = Returns None <->
      ~ exists (had_v : bool) major rest (nl : bool),
          digits major = true /\ rest_digits rest = true
          /\ s = semver_text had_v major rest +:+ dollar_text nl).
Proof.
  assert (forall e, parse_semverish s = Raises e ->
            exists (had_v : bool) major rest (nl : bool),
              digits major = true /\ rest_digits rest = true
              /\ s = semver_text had_v major rest +:+ dollar_text nl
              /\ text_exceeds_limit major rest = true) as Hraises.
  { intros e He.
    destruct (parse_semverish_value s) as [v|] eqn:Ev.
    - apply parse_semverish_iff_value in Ev
        as (had_v & major & rest & nl & Hm & Hr & -> & _).
      exists had_v, major, rest, nl. do 3 (split; [done|]).
      destruct (text_exceeds_limit major rest) eqn:El; [done|].
      rewrite (parse_semverish_within_limit _ _ _ nl Hm Hr El) in He. done.
    - rewrite (parse_semverish_None _ Ev) in He. done. }
  split; [|split; [|split]].
  - intros v. split.
    + intros H. pose proof (parse_semverish_Returns _ _ H) as Hv.
      symmetry in Hv.
      apply parse_semverish_iff_value in Hv
        as (had_v & major & rest & nl & Hm & Hr & -> & ->).
      exists had_v, major, rest, nl. do 3 (split; [done|]).
      split; [|done].
      destruct (text_exceeds_limit major rest) eqn:El; [|done].
      destruct (parse_semverish_beyond_limit had_v _ _ nl Hm Hr El)
        as (d & _ & Hd).
      rewrite Hd in H. done.
    + intros (had_v & major & rest & nl & Hm & Hr & -> & Hl & ->).
      by apply parse_semverish_within_limit.
  - split.
    + intros [e He]. by eapply Hraises.
    + intros (had_v & major & rest & nl & Hm & Hr & -> & Hl).
      destruct (parse_semverish_beyond_limit had_v _ _ nl Hm Hr Hl)
        as (d & _ & Hd).
      by eexists.
  - intros e He.
    destruct (Hraises e He) as (had_v & major & rest & nl & Hm & Hr & -> & Hl).
    destruct (parse_semverish_beyond_limit had_v _ _ nl Hm Hr Hl)
      as (d & Hd & Hp).
    exists d. split; [done|]. rewrite Hp in He. by injection He as <-.
  - split.
    + intros H (had_v & major & rest & nl & Hm & Hr & ->).
      destruct (text_exceeds_limit major rest) eqn:El.
      * destruct (parse_semverish_beyond_limit had_v _ _ nl Hm Hr El)
          as (d & _ & Hd).
        rewrite Hd in H. done.
      * rewrite (parse_semverish_within_limit _ _ _ nl Hm Hr El) in H. done.
    + intros Hno. apply parse_semverish_None.
      destruct (parse_semverish_value s) as [v|] eqn:Ev; [|done].
      destruct Hno.
      apply parse_semverish_iff_value in Ev
        as (had_v & major & rest & nl & Hm & Hr & -> & _).
      by exists had_v, major, rest, nl.
Qed.

Lemma parse_semverish_iff_witness :
  parse_semverish long_tag = Raises (ValueError (limit_message long_tag))
  /\ exists d,
       exceeds_limit d = true
       /\ ValueError (limit_message long_tag) = ValueError (limit_message d).
Proof.
  assert (parse_semverish long_tag
          = Raises (ValueError (limit_message long_tag))) as E
    by (vm_compute; reflexivity).
  split; [exact E|].
  exact (proj1 (proj2 (proj2 (parse_semverish_iff long_tag))) _ E).
Defined.

(** X4: in a parsed version the major is not negative, minor and patch
    are not negative or are [-1], a patch comes only with a minor, and the
    flag tells whether the text starts with ["v"]. *)
Theorem parse_semverish_bounds (s : string) (maj minor patch : Z)
    (had_v : bool) :
  parse_semverish s = Returns (Some (maj, minor, patch, had_v)) ->
  0 <= maj /\ -1 <= minor /\ -1 <= patch
  /\ (minor = -1 -> patch = -1)
  /\ had_v = startswith "v" s.
Proof.
  intros H. apply parse_semverish_Returns in H. symmetry in H.
  by apply parse_semverish_bounds_value.
Qed.

Lemma parse_semverish_bounds_witness :
  0 <= 1 /\ -1 <= 20 /\ -1 <= -1 /\ (20 = -1 -> -1 = -1)
  /\ true = startswith "v" "v1.20".
Proof.
  apply (parse_semverish_bounds "v1.20" 1 20 (-1) true).
  vm_compute. reflexivity.
Defined.

(** *** Which of several maxima is picked *)

(** X7: ties are broken by the order of the list.  [pick_best] returns an
    element of the pool such that no earlier element has a greater key and
    every later element has a smaller key: among several tags with the
    greatest key, as [1.2], [v1.2] and [1.2.0], it is the one listed
    last. *)
Theorem pick_best_last_maximum (pool : list candidate) (best : candidate) :
  pick_best pool = Some best ->
  exists before after,
    pool = before ++ best :: after
    /\ (forall c, c ∈ before ->
          ~ lex_lt (semver_sort_key (snd best)) (semver_sort_key (snd c)))
    /\ (forall c, c ∈ after ->
          lex_lt (semver_sort_key (snd c)) (semver_sort_key (snd best))).
Proof.
  intros H.
  apply (last_sorted_by_split by_key by_key_asym by_key_ge_trans) in H
    as (l1 & l2 & -> & H1 & H2).
  exists l1, l2. split; [done|]. split.
  - intros c Hc Hlt. apply key_ltb_lex in Hlt.
    specialize (H1 c Hc). unfold by_key in H1. congruence.
  - intros c Hc. apply key_ltb_lex. by apply H2.
Qed.

Lemma pick_best_last_maximum_witness :
  exists before after,
    [("1.2", (1, 2, -1, false)); ("1.1", (1, 1, -1, false));
     ("v1.2", (1, 2, -1, true)); ("1.0.9", (1, 0, 9, false))]
    = before ++ ("v1.2", (1, 2, -1, true)) :: after
    /\ (forall c, c ∈ before ->
          ~ lex_lt (semver_sort_key (1, 2, -1, true))
                   (semver_sort_key (snd c)))
    /\ (forall c, c ∈ after ->
          lex_lt (semver_sort_key (snd c))
                 (semver_sort_key (1, 2, -1, true))).
Proof.
  apply (pick_best_last_maximum
           [("1.2", (1, 2, -1, false)); ("1.1", (1, 1, -1, false));
            ("v1.2", (1, 2, -1, true)); ("1.0.9", (1, 0, 9, false))]
           ("v1.2", (1, 2, -1, true))).
  vm_compute. reflexivity.
Defined.

(** X6: the suggested tag is one of the rivals (the candidates of the old
    tag's suffix and major, and also of its minor when the old tag has one
    that some such candidate shares), and none of the rivals has a greater
    key. *)
Theorem suggestion_is_maximum (old_tag : string) (all_tags : list string)
    (t note : string) :
  choose_newer_tag old_tag all_tags = Returns (Some t, note) ->
  exists old_v new_v candidates,
    parse_semverish (base_of old_tag) = Returns (Some old_v)
    /\ filter_candidates (suffix_of old_tag) all_tags = Returns candidates
    /\ (t, new_v) ∈ rivals old_v candidates
    /\ forall c,
         c ∈ rivals old_v candidates ->
         ~ lex_lt (semver_sort_key new_v) (semver_sort_key (snd c)).
Proof.
  intros H. pose proof (choose_newer_tag_Returns _ _ _ H) as Hv.
  symmetry in Hv.
  apply suggestion_is_maximum_value in Hv as (old_v & new_v & Ho & Hin & Hmax).
  apply chosen_Some in H as (old_v' & new_v' & Hs & _ & _).
  apply selection_values in Hs as (_ & Hp & Hf).
  pose proof (parse_semverish_Returns _ _ Hp) as Hp'.
  rewrite Ho in Hp'. injection Hp' as ->.
  by exists old_v, new_v,
    (filter_candidates_value (suffix_of old_tag) all_tags).
Qed.

Lemma suggestion_is_maximum_witness :
  exists old_v new_v candidates,
    parse_semverish (base_of "1.4") = Returns (Some old_v)
    /\ filter_candidates (suffix_of "1.4")
         ["1.5"; "1.6.1"; "2.0"; "1.6"; "1.7-rc"]
       = Returns candidates
    /\ ("1.6.1", new_v) ∈ rivals old_v candidates
    /\ forall c,
         c ∈ rivals old_v candidates ->
         ~ lex_lt (semver_sort_key new_v) (semver_sort_key (snd c)).
Proof.
  apply (suggestion_is_maximum "1.4"
           ["1.5"; "1.6.1"; "2.0"; "1.6"; "1.7-rc"]
           "1.6.1" "newer version available").
  vm_compute. reflexivity.
Defined.

(** *** Asking again *)

(** X8: the suggestion is a fixed point.  When [choose_newer_tag] suggests
    a tag, asking again with that tag as the old tag and the same list
    gives no suggestion, with the note of being at the newest matching
    tag. *)
Theorem suggestion_is_current (old_tag : string) (all_tags : list string)
    (t note : string) :
  choose_newer_tag old_tag all_tags = Returns (Some t, note) ->
  choose_newer_tag t all_tags
  = Returns (None, "already at newest matching tag").
Proof.
  intros H. pose proof (choose_newer_tag_Returns _ _ _ H) as Hv.
  symmetry in Hv. apply suggestion_is_current_value in Hv.
  apply chosen_Some in H as (old_v & new_v & Hs & _ & _).
  pose proof (selection_parts _ _ _ _ _ Hs) as (_ & _ & _ & Hsfx & Hn & _).
  apply selection_values in Hs as (_ & _ & Hf).
  rewrite choose_newer_tag_unfold, Hn, Hsfx, Hf, Hv.
  by destruct (is_floating t).
Qed.

Lemma suggestion_is_current_witness :
  choose_newer_tag "1.6.1" ["1.5"; "1.6.1"; "2.0"; "1.6"; "1.7-rc"]
  = Returns (None, "already at newest matching tag").
Proof.
  apply (suggestion_is_current "1.4"
           ["1.5"; "1.6.1"; "2.0"; "1.6"; "1.7-rc"]
           "1.6.1" "newer version available").
  vm_compute. reflexivity.
Defined.

(** *** Tags that do not count *)

Lemma filter_candidates_skip old_suffix before u after :
  suffix_of u <> old_suffix \/ parse_semverish (base_of u) = Returns None ->
  filter_candidates old_suffix (before ++ u :: after)
  = filter_candidates old_suffix (before ++ after).
Proof.
  intros Hu. induction before as [|t ts IH]; simpl.
  - unfold suffix_of, base_of in Hu.
    destruct (split_suffix u) as [b s]. simpl in Hu.
    destruct (bool_decide_reflect (old_suffix = s)) as [->|Hne];
      simpl; [|done].
    destruct Hu as [Hu|Hu]; [done|]. rewrite Hu. simpl.
    by destruct (filter_candidates s after).
  - by rewrite IH.
Qed.

(** X9: a tag whose suffix is not the old tag's, or whose base is not
    semver-like, does not count: with it or without it in the list, at
    whatever place, [choose_newer_tag] comes to the same. *)
Theorem other_tags_do_not_count (old_tag : string) (before : list string)
    (u : string) (after : list string) :
  suffix_of u <> suffix_of old_tag
  \/ parse_semverish (base_of u) = Returns None ->
  choose_newer_tag old_tag (before ++ u :: after)
  = choose_newer_tag old_tag (before ++ after).
Proof.
  intros Hu. unfold choose_newer_tag.
  destruct (_ || _); [done|].
  unfold suffix_of at 2 in Hu.
  destruct (split_suffix old_tag) as [b s]. simpl in Hu.
  destruct (parse_semverish b) as [[[[[maj mi] pa] hv]|]|e]; simpl; try done.
  by rewrite (filter_candidates_skip s before u after Hu).
Qed.

Lemma other_tags_do_not_count_witness :
  choose_newer_tag "3.18" (["3.18.2"; "edge"] ++ "3.18.9-rc1" :: ["3.18.4"])
  = choose_newer_tag "3.18" (["3.18.2"; "edge"] ++ ["3.18.4"]).
Proof.
  apply (other_tags_do_not_count "3.18" ["3.18.2"; "edge"] "3.18.9-rc1"
           ["3.18.4"]).
  left. vm_compute. discriminate.
Defined.

(** *** The note tells the outcome *)

(** X5: when [choose_newer_tag] returns, a tag is suggested exactly when
    the note is that a newer version is available; the suggested tag is
    then not the empty text. *)
Theorem suggestion_iff_note (old_tag : string) (all_tags : list string)
    (r : option string * string) :
  choose_newer_tag old_tag all_tags = Returns r ->
  (is_Some (fst r) <-> snd r = "newer version available")
  /\ fst r <> Some EmptyString.
Proof.
  intros H. apply choose_newer_tag_Returns in H as ->.
  apply suggestion_iff_note_value.
Qed.

Lemma suggestion_iff_note_witness :
  (is_Some (fst (Some "1.6.1", "newer version available"))
   <-> snd (Some "1.6.1", "newer version available")
       = "newer version available")
  /\ fst (Some "1.6.1", "newer version available") <> Some EmptyString.
Proof.
  apply (suggestion_iff_note "1.4" ["1.5"; "1.6.1"; "2.0"; "1.6"; "1.7-rc"]).
  vm_compute. reflexivity.
Defined.

End HeuristicMore.

(** ** More on the whitelist filter *)

Module VolumeSyncMore.
Import VolumeSync VolumeSyncFacts.

Section Filter.
Context {Path : Type}.
Variable relative_to : Path -> Path -> option Path.
Variable str : Path -> string.
Variable matches_pattern : string -> string -> bool.
Variable whitelist_patterns : gmap string (gmap string (list string)).

Lemma find_first {A} (f : A -> bool) l1 x l2 :
  (forall y, In y l1 -> f y = false) -> f x = true ->
  find f (l1 ++ x :: l2) = Some x.
Proof.
  intros Hl1 Hx. induction l1 as [|y l1 IH]; simpl.
  - by rewrite Hx.
  - rewrite (Hl1 y) by (by left). apply IH. intros z Hz. apply Hl1.
    by right.
Qed.

(** X10: a file is included exactly when none of the service's exclude
    patterns matches its relative path and one of the include patterns
    does. *)
Theorem included_iff (file_path : Path) (service : string)
    (volume_root relative_path : Path) :
  relative_to file_path volume_root = Some relative_path ->
  (fst <$> should_include_file relative_to str matches_pattern
             whitelist_patterns file_path service volume_root
   = Some true
   <->
   (forall p, In p (patterns_of whitelist_patterns service "exclude") ->
              matches_pattern (str relative_path) p = false)
   /\ (exists p, In p (patterns_of whitelist_patterns service "include")
                 /\ matches_pattern (str relative_path) p = true)).
Proof.
  intros Hrel. unfold should_include_file. rewrite Hrel.
  fold (patterns_of whitelist_patterns service "exclude").
  fold (patterns_of whitelist_patterns service "include").
  destruct (find _ (patterns_of whitelist_patterns service "exclude"))
    as [p|] eqn:Ex.
  - apply find_some in Ex as [Hin Hp]. simpl.
    split; [done|]. intros [Hnone _]. by rewrite (Hnone p Hin) in Hp.
  - pose proof (find_none _ _ Ex) as Hnone.
    destruct (find _ (patterns_of whitelist_patterns service "include"))
      as [q|] eqn:Ei; simpl.
    + apply find_some in Ei as [Hin Hq]. split; [|done].
      intros _. split; [done | by exists q].
    + pose proof (find_none _ _ Ei) as Hni.
      split; [done|]. intros [_ (q & Hin & Hq)].
      by rewrite (Hni q Hin) in Hq.
Qed.

(** X11: a service without include patterns syncs nothing: when the
    whitelist has no entry for the service, or the entry has no include
    list or an empty one, every file is excluded. *)
Theorem no_include_patterns_excludes_all (file_path : Path)
    (service : string) (volume_root relative_path : Path) :
  relative_to file_path volume_root = Some relative_path ->
  (whitelist_patterns !! service = None ->
   patterns_of whitelist_patterns service "include" = []
   /\ patterns_of whitelist_patterns service "exclude" = [])
  /\ (patterns_of whitelist_patterns service "include" = [] ->
      fst <$> should_include_file relative_to str matches_pattern
                whitelist_patterns file_path service volume_root
      = Some false).
Proof.
  intros Hrel. split.
  - intros Hnone. unfold patterns_of. rewrite Hnone. simpl.
    by rewrite !lookup_empty.
  - intros Hinc. unfold should_include_file. rewrite Hrel.
    fold (patterns_of whitelist_patterns service "exclude").
    fold (patterns_of whitelist_patterns service "include").
    rewrite Hinc. simpl.
    by destruct (find _ (patterns_of whitelist_patterns service "exclude")).
Qed.

(** X12: the first match wins, and the log line names it: when an exclude
    pattern matches and none before it in the exclude list does, the
    result is exclusion with that pattern in the line for the log. *)
Theorem first_exclude_match_is_logged (file_path : Path) (service : string)
    (volume_root relative_path : Path) (before : list string)
    (pattern : string) (after : list string) :
  relative_to file_path volume_root = Some relative_path ->
  patterns_of whitelist_patterns service "exclude"
  = before ++ pattern :: after ->
  (forall p, In p before -> matches_pattern (str relative_path) p = false) ->
  matches_pattern (str relative_path) pattern = true ->
  should_include_file relative_to str matches_pattern whitelist_patterns
    file_path service volume_root
  = Some (false,
          "Excluding " +:+ str relative_path
            +:+ " (matches exclude pattern: " +:+ pattern +:+ ")").
Proof.
  intros Hrel Hex Hbefore Hp. unfold should_include_file. rewrite Hrel.
  fold (patterns_of whitelist_patterns service "exclude").
  rewrite Hex. by rewrite (find_first _ _ _ _ Hbefore Hp).
Qed.
End Filter.

Lemma included_iff_witness :
  fst <$> should_include_file parts_relative_to parts_str String.eqb
            example_whitelist
            ["var"; "lib"; "vol"; "settings.js"] "node-red"
            ["var"; "lib"; "vol"]
  = Some true
  <->
  (forall p, In p (patterns_of example_whitelist "node-red" "exclude") ->
             String.eqb (parts_str ["settings.js"]) p = false)
  /\ (exists p, In p (patterns_of example_whitelist "node-red" "include")
                /\ String.eqb (parts_str ["settings.js"]) p = true).
Proof.
  apply (included_iff parts_relative_to parts_str String.eqb
           example_whitelist ["var"; "lib"; "vol"; "settings.js"]
           "node-red" ["var"; "lib"; "vol"] ["settings.js"]).
  reflexivity.
Defined.

Lemma no_include_patterns_excludes_all_witness :
  fst <$> should_include_file parts_relative_to parts_str String.eqb
            example_whitelist
            ["var"; "lib"; "vol"; "settings.json"] "zwave-js-ui"
            ["var"; "lib"; "vol"]
  = Some false.
Proof.
  apply (proj2 (no_include_patterns_excludes_all parts_relative_to parts_str
                  String.eqb example_whitelist
                  ["var"; "lib"; "vol"; "settings.json"] "zwave-js-ui"
                  ["var"; "lib"; "vol"] ["settings.json"] eq_refl)).
  vm_compute. reflexivity.
Defined.

Lemma first_exclude_match_is_logged_witness :
  should_include_file parts_relative_to parts_str String.eqb
    example_whitelist
    ["var"; "lib"; "vol"; ".sessions.json"] "node-red"
    ["var"; "lib"; "vol"]
  = Some (false,
          "Excluding " +:+ parts_str [".sessions.json"]
            +:+ " (matches exclude pattern: " +:+ ".sessions.json" +:+ ")").
Proof.
  apply (first_exclude_match_is_logged parts_relative_to parts_str String.eqb
           example_whitelist ["var"; "lib"; "vol"; ".sessions.json"]
           "node-red" ["var"; "lib"; "vol"] [".sessions.json"]
           ["flows_cred.json"] ".sessions.json" []).
  - reflexivity.
  - vm_compute. reflexivity.
  - intros p [<-|[]]. reflexivity.
  - reflexivity.
Defined.

End VolumeSyncMore.

(** ** More on image references and the entry point *)

Module ImagesMore.
Import PyStr Images SortFacts ValuesFacts HeuristicNotions ValuesMore
  ImagesNotions HeuristicFacts MainFacts.

(** *** Stripping *)

Lemma lstrip_head p a s : p a = false -> lstrip p (String a s) = String a s.
Proof. intros H. simpl. by rewrite H. Qed.

Lemma rstrip_last p a s :
  p (last_char a s) = false -> rstrip p (String a s) = String a s.
Proof.
  revert a. induction s as [|b s IH]; intros a H; simpl in *.
  - by rewrite H.
  - specialize (IH b H). simpl in IH.
    destruct (is_empty (rstrip p s) && p b) eqn:E; [done|].
    injection IH as ->. done.
Qed.

Lemma is_empty_app_r s r : is_empty r = false -> is_empty (s +:+ r) = false.
Proof. by destruct s. Qed.

Lemma rstrip_app_keep p s r :
  is_empty (rstrip p r) = false ->
  rstrip p (s +:+ r) = s +:+ rstrip p r.
Proof.
  intros Hr. induction s as [|b s IH]; [done|].
  rewrite !append_cons. cbn [rstrip]. rewrite IH.
  by rewrite (is_empty_app_r s _ Hr).
Qed.

Lemma rstrip_keeps_head p a s :
  p a = false -> is_empty (rstrip p (String a s)) = false.
Proof. intros H. simpl. rewrite H. by rewrite andb_false_r. Qed.

Lemma strip_keeps_front p a s d :
  p a = false -> p "@"%char = false ->
  rstrip p (lstrip p (String a s +:+ String "@" d))
  = String a s +:+ String "@" (rstrip p d).
Proof.
  intros Ha Hat. rewrite append_cons, (lstrip_head p a _ Ha).
  rewrite <- append_cons.
  rewrite rstrip_app_keep by (by apply rstrip_keeps_head).
  f_equal. simpl. rewrite Hat. by rewrite andb_false_r.
Qed.

Lemma strip_plain p a s :
  p a = false -> p (last_char a s) = false ->
  rstrip p (lstrip p (String a s)) = String a s.
Proof.
  intros Ha Hl. rewrite (lstrip_head p a s Ha). by apply rstrip_last.
Qed.

Lemma split_once_app c s r :
  contains c s = false -> split_once c (s +:+ String c r) = Some (s, r).
Proof.
  intros H. induction s as [|a s IH].
  - rewrite append_empty_l. simpl. by rewrite Ascii.eqb_refl.
  - simpl in H. apply orb_false_iff in H as [Ha Hs].
    rewrite append_cons. simpl. by rewrite Ha, (IH Hs).
Qed.

Lemma contains_app_char c s r : contains c (s +:+ String c r) = true.
Proof.
  induction s as [|a s IH].
  - rewrite append_empty_l. simpl. by rewrite Ascii.eqb_refl.
  - rewrite append_cons. simpl. rewrite IH. by rewrite orb_true_r.
Qed.

Lemma stripped_char_false a :
  stripped_char a = false ->
  is_space a = false /\ Ascii.eqb "034" a = false /\ Ascii.eqb "'" a = false.
Proof.
  unfold stripped_char. intros H.
  apply orb_false_iff in H as [H H3]. apply orb_false_iff in H as [H1 H2].
  done.
Qed.

(** X13: a digest is ignored.  For an image text that has no ["@"] and
    neither starts nor ends with white space or a quote, [_split_image]
    gives the same registry, repository and tag whether or not an ["@"] and
    any digest text follow it. *)
Theorem digest_is_ignored (s digest : string) :
  plain_ends s = true -> contains "@" s = false ->
  _split_image (s +:+ String "@" digest) = _split_image s.
Proof.
  intros Hplain Hat. destruct s as [|a s]; [done|].
  simpl in Hplain. apply andb_true_iff in Hplain as [Ha Hl].
  apply negb_true_iff, stripped_char_false in Ha as (Ha1 & Ha2 & Ha3).
  apply negb_true_iff, stripped_char_false in Hl as (Hl1 & Hl2 & Hl3).
  unfold _split_image, strip, strip_char. cbv zeta.
  rewrite (strip_keeps_front is_space a s digest Ha1 eq_refl).
  rewrite (strip_keeps_front (Ascii.eqb "034") a s _ Ha2 eq_refl).
  rewrite (strip_keeps_front (Ascii.eqb "'") a s _ Ha3 eq_refl).
  rewrite contains_app_char, (split_once_app _ _ _ Hat).
  rewrite !(strip_plain is_space a s Ha1 Hl1).
  rewrite !(strip_plain (Ascii.eqb "034") a s Ha2 Hl2).
  rewrite !(strip_plain (Ascii.eqb "'") a s Ha3 Hl3).
  by rewrite Hat.
Qed.

Lemma digest_is_ignored_witness :
  _split_image ("ghcr.io/foo/bar:1.2" +:+ String "@" "sha256:0123abcd ")
  = _split_image "ghcr.io/foo/bar:1.2".
Proof.
  apply (digest_is_ignored "ghcr.io/foo/bar:1.2" "sha256:0123abcd ");
    reflexivity.
Defined.

(** *** The last colon and the last slash *)

Lemma rfind_from_spec c s i :
  0 <= i ->
  (rfind_from i c s = -1 /\ contains c s = false)
  \/ (exists n : nat, rfind_from i c s = i + Z.of_nat n
                      /\ contains c (drop (S n) s) = false).
Proof.
  revert i. induction s as [|a s IH]; intros i Hi; [by left|].
  simpl. destruct (IH (i + 1) ltac:(lia)) as [[Hr Hc]|(n & Hr & Hc)].
  - rewrite Hr. simpl. destruct (Ascii.eqb a c) eqn:Ea.
    + right. exists 0%nat. split; [lia|]. by destruct s.
    + by left.
  - rewrite Hr. replace (i + 1 + Z.of_nat n >=? 0) with true
      by (symmetry; rewrite Z.geb_leb; apply Z.leb_le; lia).
    right. exists (S n). split; [lia | done].
Qed.

Lemma contains_drop c k s :
  contains c s = false -> contains c (drop k s) = false.
Proof.
  revert s. induction k as [|k IH]; intros s H; [by destruct s|].
  destruct s as [|a s]; [done|]. simpl in *.
  apply orb_false_iff in H as [_ H]. by apply IH.
Qed.

Lemma drop_drop j k s : drop k (drop j s) = drop (j + k) s.
Proof.
  revert s. induction j as [|j IH]; intros s; simpl.
  - by destruct s, k.
  - destruct s as [|a s]; [by destruct k|]. apply IH.
Qed.

Lemma contains_lstrip c p s :
  contains c s = false -> contains c (lstrip p s) = false.
Proof.
  induction s as [|a s IH]; [done|]. intros H. simpl.
  destruct (p a); [|done]. simpl in H.
  apply orb_false_iff in H as [_ H]. by apply IH.
Qed.

Lemma contains_rstrip c p s :
  contains c s = false -> contains c (rstrip p s) = false.
Proof.
  induction s as [|a s IH]; [done|]. intros H. simpl in *.
  apply orb_false_iff in H as [Ha H].
  destruct (is_empty (rstrip p s) && p a); [done|].
  simpl. by rewrite Ha, IH.
Qed.

Lemma contains_strip c s : contains c s = false -> contains c (strip s) = false.
Proof. intros H. by apply contains_rstrip, contains_lstrip. Qed.

(** After the last colon there is no colon, and no slash either when the
    last slash is before it. *)
Lemma after_last_colon s :
  (rfind ":" s >? rfind "/" s) = true ->
  contains ":" (drop (Z.to_nat (rfind ":" s + 1)) s) = false
  /\ contains "/" (drop (Z.to_nat (rfind ":" s + 1)) s) = false.
Proof.
  unfold rfind. intros H. apply Z.gtb_lt in H.
  destruct (rfind_from_spec ":" s 0 ltac:(lia)) as [[Hc _]|(n & Hc & Hcn)];
    destruct (rfind_from_spec "/" s 0 ltac:(lia)) as [[Hs Hsn]|(m & Hs & Hsm)];
    rewrite Hc, Hs in H; try lia; rewrite Hc.
  - replace (Z.to_nat (0 + Z.of_nat n + 1)) with (S n) by lia.
    split; [done | by apply contains_drop].
  - replace (Z.to_nat (0 + Z.of_nat n + 1)) with (S n) by lia.
    split; [done|].
    replace (S n) with (S m + (n - m))%nat by lia.
    rewrite <- drop_drop. by apply contains_drop.
Qed.

Lemma split_once_first c s b r :
  split_once c s = Some (b, r) -> contains c b = false.
Proof. intros H. by apply split_once_join in H as [_ ?]. Qed.

(** X14: a registry port is never taken for a tag.  The tag that
    [_split_image] returns has no slash and no colon in it, whatever the
    input; and the registry has no slash, and is [docker.io], or has a dot
    or a colon in it, or is [localhost]. *)
Theorem split_image_tag_and_registry (raw : string) :
  let '(registry, repo, tag) := _split_image raw in
  contains "/" tag = false /\ contains ":" tag = false
  /\ contains "/" registry = false
  /\ (registry = "docker.io" \/ contains "." registry = true
      \/ contains ":" registry = true \/ registry = "localhost").
Proof.
  unfold _split_image. cbv zeta.
  set (s0 := strip_char "'" (strip_char "034" (strip raw))).
  set (s := if contains "@" s0
            then match split_once "@" s0 with
                 | Some (before, _) => strip before
                 | None => s0
                 end
            else s0).
  assert (forall tag name : string,
             contains "/" tag = false -> contains ":" tag = false ->
             let '(registry, repo, tag) :=
               match split_once "/" name with
               | Some (first, rest) =>
                   if contains "." first || contains ":" first
                      || (first =? "localhost")%string
                   then (first, rest, tag)
                   else ("docker.io", name, tag)
               | None => ("docker.io", "library/" +:+ name, tag)
               end in
             contains "/" tag = false /\ contains ":" tag = false
             /\ contains "/" registry = false
             /\ (registry = "docker.io" \/ contains "." registry = true
                 \/ contains ":" registry = true \/ registry = "localhost"))
    as Hname.
  { intros tag name Ht1 Ht2.
    destruct (split_once "/" name) as [[first rest]|] eqn:Esp.
    - apply split_once_first in Esp.
      destruct (contains "." first) eqn:E1; simpl.
      { do 3 (split; [done|]). right. by left. }
      destruct (contains ":" first) eqn:E2; simpl.
      { do 3 (split; [done|]). right. right. by left. }
      destruct (String.eqb_spec first "localhost") as [->|Hne].
      + do 3 (split; [done|]). by do 3 right.
      + do 3 (split; [done|]). by left.
    - do 3 (split; [done|]). by left. }
  destruct (rfind ":" s >? rfind "/" s) eqn:E.
  - destruct (after_last_colon s E) as [Hc Hs].
    apply Hname; by apply contains_strip.
  - by apply Hname.
Qed.

(** *** The order of texts *)

Lemma str_ltb_asym a b : String.ltb a b = true -> String.ltb b a = false.
Proof.
  unfold String.ltb. rewrite (String.compare_antisym a b).
  by destruct (String.compare b a).
Qed.

Lemma str_ltb_leb a b : String.ltb b a = negb (String.leb a b).
Proof.
  unfold String.ltb, String.leb. rewrite (String.compare_antisym a b).
  by destruct (String.compare b a).
Qed.

Lemma str_ge_trans a b c :
  String.ltb b a = false -> String.ltb c b = false -> String.ltb c a = false.
Proof.
  rewrite !str_ltb_leb, !negb_false_iff. intros Hab Hbc.
  apply Is_true_true. apply Is_true_true in Hab, Hbc.
  exact (transitivity (R := String.le) Hab Hbc).
Qed.

Lemma sorted_by_str l :
  sorted_by String.ltb l ≡ₚ l
  /\ StronglySorted str_le (sorted_by String.ltb l).
Proof.
  split; [apply sorted_by_perm|].
  apply (sorted_by_sorted String.ltb str_ltb_asym str_ge_trans).
Qed.

(** X15: [find_compose_files] returns the regular files among the paths
    that the glob gives, each as often as the glob gives it, in the
    ascending order of texts. *)
Theorem find_compose_files_sorted (w : world) (root pattern : string) :
  find_compose_files w root pattern
  ≡ₚ List.filter (isfile w) (glob_recursive w (join w root pattern))
  /\ StronglySorted str_le (find_compose_files w root pattern)
  /\ forall f, In f (find_compose_files w root pattern) <->
               In f (glob_recursive w (join w root pattern))
               /\ isfile w f = true.
Proof.
  unfold find_compose_files. cbv zeta.
  destruct (sorted_by_str
              (List.filter (isfile w) (glob_recursive w (join w root pattern))))
    as [Hp Hs].
  split; [done|]. split; [done|].
  intros f. rewrite <- filter_In, <- !list_elem_of_In. by rewrite Hp.
Qed.

(** *** The images of the found files *)

Lemma raw_normalize_image img : raw (normalize_image img) = img.
Proof.
  unfold normalize_image. by destruct (_split_image img) as [[? ?] ?].
Qed.

Lemma add_usage_lookup rel usage img img' :
  default ∅ (add_usage rel usage img !! img')
  = if decide (img = img') then default ∅ (usage !! img) ∪ {[rel]}
    else default ∅ (usage !! img').
Proof.
  unfold add_usage. destruct (decide (img = img')) as [<-|Hne].
  - by rewrite lookup_insert_eq.
  - by rewrite lookup_insert_ne.
Qed.

Lemma add_usage_fold rel imgs usage img' rel' :
  rel' ∈ default ∅ (fold_left (add_usage rel) imgs usage !! img') <->
  rel' ∈ default ∅ (usage !! img') \/ (In img' imgs /\ rel' = rel).
Proof.
  revert usage. induction imgs as [|img imgs IH]; intros usage; simpl.
  - split; [by left | by intros [?|[[] _]]].
  - rewrite IH, add_usage_lookup.
    destruct (decide (img = img')) as [<-|Hne].
    + rewrite elem_of_union, elem_of_singleton. intuition auto.
    + intuition auto.
Qed.

Lemma add_usage_fold_dom rel imgs usage img' :
  is_Some (fold_left (add_usage rel) imgs usage !! img') <->
  is_Some (usage !! img') \/ In img' imgs.
Proof.
  revert usage. induction imgs as [|img imgs IH]; intros usage; simpl.
  - split; [by left | by intros [?|[]]].
  - rewrite IH. unfold add_usage.
    destruct (decide (img = img')) as [<-|Hne].
    + rewrite lookup_insert_eq. split; [by auto|]. intros _. left.
      by eexists.
    + rewrite lookup_insert_ne by done. intuition auto.
Qed.

Lemma collect_usage_fold w root files usage usage' img rel :
  collect_usage w root files usage = Returns usage' ->
  rel ∈ default ∅ (usage' !! img) <->
  rel ∈ default ∅ (usage !! img)
  \/ exists f imgs,
       In f files
       /\ extract_images_from_compose_yaml w f = Returns imgs
       /\ In img imgs
       /\ relpath w f root = rel.
Proof.
  revert usage. induction files as [|f files IH]; intros usage; simpl.
  - intros [= <-]. split; [by left | by intros [?|(? & ? & [] & _)]].
  - destruct (extract_images_from_compose_yaml w f) as [imgs|e] eqn:E;
      simpl; [|done].
    intros H. rewrite (IH _ H), add_usage_fold. split.
    + intros [[?|[? ->]]|(f' & imgs' & ? & ? & ? & ?)]; [by left|..].
      * right. exists f, imgs. auto.
      * right. exists f', imgs'. auto.
    + intros [?|(f' & imgs' & [->|?] & Hx & ? & ?)]; [by auto| |].
      * rewrite E in Hx. injection Hx as <-. auto.
      * right. exists f', imgs'. auto.
Qed.

Lemma collect_usage_fold_dom w root files usage usage' img :
  collect_usage w root files usage = Returns usage' ->
  is_Some (usage' !! img) <->
  is_Some (usage !! img) \/ In img (images_of w files).
Proof.
  revert usage. induction files as [|f files IH]; intros usage; simpl.
  - intros [= <-]. split; [by left | by intros [?|[]]].
  - destruct (extract_images_from_compose_yaml w f) as [imgs|e] eqn:E;
      simpl; [|done].
    intros H. rewrite (IH _ H), add_usage_fold_dom. unfold images_of.
    simpl. rewrite E, in_app_iff. fold (images_of w files). tauto.
Qed.

(** X16: the table has one entry for each image of the found files.
    When the found files are read, the image references that [main] goes
    through are those of the distinct images that the found files refer
    to, each once, in the ascending order of the image texts. *)
Theorem image_refs_of_usage (w : world) (root : string)
    (files : list string) (usage : gmap string (gset string)) :
  collect_usage w root files ∅ = Returns usage ->
  let refs := image_refs usage in
  (forall img, In img (map raw refs) <-> In img (images_of w files))
  /\ NoDup (map raw refs)
  /\ StronglySorted str_le (map raw refs)
  /\ refs = map normalize_image (map raw refs).
Proof.
  intros Hu. cbv zeta. unfold image_refs.
  set (keys := elements (dom usage)).
  assert (map raw (map normalize_image (sorted_by String.ltb keys))
          = sorted_by String.ltb keys) as Hraw.
  { rewrite map_map. rewrite <- (map_id (sorted_by String.ltb keys)) at 2.
    apply map_ext. apply raw_normalize_image. }
  rewrite Hraw. destruct (sorted_by_str keys) as [Hp Hs].
  split; [|split; [|split; [done|done]]].
  - intros img. rewrite <- list_elem_of_In, Hp. subst keys.
    rewrite elem_of_elements, elem_of_dom.
    rewrite (collect_usage_fold_dom _ _ _ _ _ _ Hu).
    rewrite lookup_empty. split; [by intros [[? ?]|?] | by right].
  - rewrite Hp. subst keys. apply NoDup_elements.
Qed.

Lemma image_refs_of_usage_witness :
  exists usage,
    collect_usage example_world "/srv/stacks"
      ["/srv/stacks/web/docker-compose.yml"] ∅
    = Returns usage
    /\ (forall img,
           In img (map raw (image_refs usage)) <->
           In img (images_of example_world
                     ["/srv/stacks/web/docker-compose.yml"]))
    /\ NoDup (map raw (image_refs usage))
    /\ StronglySorted str_le (map raw (image_refs usage))
    /\ image_refs usage
       = map normalize_image (map raw (image_refs usage)).
Proof.
  destruct (collect_usage_returns example_world "/srv/stacks"
              ["/srv/stacks/web/docker-compose.yml"] ∅) as [usage Hu].
  { intros f _. by eexists. }
  exists usage. split; [exact Hu|].
  apply (image_refs_of_usage example_world "/srv/stacks"
           ["/srv/stacks/web/docker-compose.yml"] usage Hu).
Defined.

Lemma check_ref_used_in w usage hub_cache ref hub_cache' r :
  check_ref w usage hub_cache ref = Some (hub_cache', r) ->
  row_used_in r
  = sorted_by String.ltb (elements (default ∅ (usage !! raw ref))).
Proof.
  unfold check_ref. destruct (_ =? _)%string; [|by intros [= <- <-]].
  destruct (hub_cache !! repo ref) as [tags|].
  - by destruct (choose_newer_tag (tag ref) tags) as [[new note]|e];
      intros [= <- <-].
  - destruct (dockerhub_list_tags w (repo ref)) as [[rows|code|msg]|];
      [| | |done]; [|by intros [= <- <-]..].
    by destruct (choose_newer_tag (tag ref) (map fst rows))
      as [[new note]|e]; intros [= <- <-].
Qed.

(** X17: the "used in" line of an entry lists the files that refer to the
    image: the paths, relative to the root, of exactly the found files
    among whose images the image of the entry is, in ascending order. *)
Theorem used_in_lists_the_files (w : world) (root : string)
    (files : list string) (usage : gmap string (gset string))
    (hub_cache hub_cache' : gmap string (list string))
    (ref : ImageRef) (r : row) :
  collect_usage w root files ∅ = Returns usage ->
  check_ref w usage hub_cache ref = Some (hub_cache', r) ->
  (forall rel, In rel (row_used_in r) <->
               exists f imgs,
                 In f files
                 /\ extract_images_from_compose_yaml w f = Returns imgs
                 /\ In (raw ref) imgs
                 /\ relpath w f root = rel)
  /\ NoDup (row_used_in r)
  /\ StronglySorted str_le (row_used_in r).
Proof.
  intros Hu Hr. rewrite (check_ref_used_in _ _ _ _ _ _ Hr).
  set (rels := elements (default ∅ (usage !! raw ref))).
  destruct (sorted_by_str rels) as [Hp Hs].
  split; [|split; [|done]].
  - intros rel. rewrite <- list_elem_of_In, Hp. subst rels.
    rewrite elem_of_elements.
    rewrite (collect_usage_fold _ _ _ _ _ _ _ Hu), lookup_empty. simpl.
    split; [intros [H|H]; [by apply not_elem_of_empty in H | done]|].
    by right.
  - rewrite Hp. subst rels. apply NoDup_elements.
Qed.

Lemma used_in_lists_the_files_witness :
  exists usage,
    collect_usage example_world "/srv/stacks"
      ["/srv/stacks/web/docker-compose.yml"] ∅
    = Returns usage
    /\ exists hub_cache' r,
    check_ref example_world usage ∅ (normalize_image "redis:7")
    = Some (hub_cache', r)
    /\ (forall rel, In rel (row_used_in r) <->
                    exists f imgs,
                      In f ["/srv/stacks/web/docker-compose.yml"]
                      /\ extract_images_from_compose_yaml example_world f
                         = Returns imgs
                      /\ In (raw (normalize_image "redis:7")) imgs
                      /\ relpath example_world f "/srv/stacks" = rel)
    /\ NoDup (row_used_in r)
    /\ StronglySorted str_le (row_used_in r).
Proof.
  destruct (collect_usage_returns example_world "/srv/stacks"
              ["/srv/stacks/web/docker-compose.yml"] ∅) as [usage Hu].
  { intros f _. by eexists. }
  destruct (check_ref_ends example_world usage ∅ (normalize_image "redis:7"))
    as [[hub_cache' r] Hr].
  { intros _. by eexists. }
  exists usage. split; [exact Hu|].
  exists hub_cache', r. split; [exact Hr|].
  apply (used_in_lists_the_files example_world "/srv/stacks"
           ["/srv/stacks/web/docker-compose.yml"] usage ∅ hub_cache'
           (normalize_image "redis:7") r Hu Hr).
Defined.

(** *** The columns of the table *)

Lemma chosen_floating old_tag all_tags new note :
  is_floating old_tag = true ->
  choose_newer_tag old_tag all_tags = Returns (new, note) -> new = None.
Proof.
  intros H. unfold choose_newer_tag. unfold is_floating in H. rewrite H.
  by intros [= <- _].
Qed.

Lemma suggestion_not_empty old_tag all_tags t note :
  choose_newer_tag old_tag all_tags = Returns (Some t, note) ->
  is_empty t = false.
Proof.
  intros H.
  apply chosen_Some in H as (old_v & new_v & Hsel & _ & _).
  apply selection_parts in Hsel as (_ & _ & _ & _ & Hn & _).
  by destruct t.
Qed.

Ltac status_cases :=
  unfold status_fits; simpl; repeat split;
  try done; try (by intros [? ?]); try (by intros [?|?]); try (by eexists).

Lemma status_fits_checked registry' image old tags note' used :
  forall new note,
    choose_newer_tag old tags = Returns (new, note) ->
    registry' = "docker.io" ->
    status_fits
      {| row_status :=
           if is_floating old then FLOATING
           else match new with
                | Some t => if is_empty t then CURRENT else UPGRADE
                | None => CURRENT
                end;
         row_registry := registry'; row_image := image; row_old := old;
         row_new := new; row_note := note'; row_used_in := used |}.
Proof.
  intros new note Hc ->.
  destruct (is_floating old) eqn:Efl.
  - pose proof (chosen_floating old tags _ _ Efl Hc) as ->.
    unfold status_fits. simpl. rewrite Efl. status_cases.
  - destruct new as [t|].
    + pose proof (suggestion_not_empty _ _ _ _ Hc) as Ht.
      unfold status_fits. simpl. rewrite Efl, Ht. status_cases.
    + unfold status_fits. simpl. rewrite Efl. status_cases.
Qed.

Lemma check_ref_status_fits w usage hub_cache ref hub_cache' r :
  check_ref w usage hub_cache ref = Some (hub_cache', r) -> status_fits r.
Proof.
  unfold check_ref.
  destruct (String.eqb_spec (registry ref) "docker.io") as [Hreg|Hreg].
  - destruct (hub_cache !! repo ref) as [tags|].
    + destruct (choose_newer_tag (tag ref) tags) as [[new note]|e] eqn:Ec;
        intros [= <- <-].
      * by eapply status_fits_checked.
      * status_cases.
    + destruct (dockerhub_list_tags w (repo ref)) as [[rows|code|msg]|];
        [| | |done].
      * destruct (choose_newer_tag (tag ref) (map fst rows))
          as [[new note]|e] eqn:Ec; intros [= <- <-].
        -- by eapply status_fits_checked.
        -- status_cases.
      * intros [= <- <-]. status_cases.
      * intros [= <- <-]. status_cases.
  - intros [= <- <-]. status_cases.
Qed.

Lemma check_refs_status_fits w usage hub_cache refs rows :
  check_refs w usage hub_cache refs = Some rows -> Forall status_fits rows.
Proof.
  revert hub_cache rows.
  induction refs as [|ref refs IH]; intros hub_cache rows; simpl.
  - intros [= <-]. constructor.
  - destruct (check_ref w usage hub_cache ref) as [[hub_cache' r]|] eqn:Er;
      [|done].
    destruct (check_refs w usage hub_cache' refs) as [rows'|] eqn:Ers;
      [|done].
    intros [= <-]. constructor.
    + by eapply check_ref_status_fits.
    + by eapply IH.
Qed.



(** *** Official images *)

Lemma rfind_from_none c s i :
  contains c s = false -> rfind_from i c s = -1.
Proof.
  revert i. induction s as [|a s IH]; intros i H; [done|].
  simpl in H. apply orb_false_iff in H as [Ha Hs].
  simpl. by rewrite (IH (i + 1) Hs), Ha.
Qed.

Lemma rfind_none c s : contains c s = false -> rfind c s = -1.
Proof. apply rfind_from_none. Qed.

Lemma split_once_none c s : contains c s = false -> split_once c s = None.
Proof.
  intros H. destruct (split_once c s) as [p|] eqn:E; [|done].
  assert (contains c s = true) by (apply split_once_contains; eauto).
  congruence.
Qed.

(** X19: a bare name is an official image of Docker Hub: for a name with
    no slash, colon or ["@"] that neither starts nor ends with white space
    or a quote, [_split_image] gives the registry [docker.io], the
    repository [library/] followed by the name, and the tag [latest]. *)
Theorem bare_name_is_official (name : string) :
  plain_ends name = true ->
  contains "/" name = false -> contains ":" name = false ->
  contains "@" name = false ->
  _split_image name = ("docker.io", "library/" +:+ name, "latest").
Proof.
  intros Hplain Hslash Hcolon Hat. destruct name as [|a s]; [done|].
  simpl in Hplain. apply andb_true_iff in Hplain as [Ha Hl].
  apply negb_true_iff, stripped_char_false in Ha as (Ha1 & Ha2 & Ha3).
  apply negb_true_iff, stripped_char_false in Hl as (Hl1 & Hl2 & Hl3).
  unfold _split_image, strip, strip_char. cbv zeta.
  rewrite !(strip_plain is_space a s Ha1 Hl1).
  rewrite !(strip_plain (Ascii.eqb "034") a s Ha2 Hl2).
  rewrite !(strip_plain (Ascii.eqb "'") a s Ha3 Hl3).
  rewrite Hat, (rfind_none _ _ Hslash), (rfind_none _ _ Hcolon).
  change (-1 >? -1) with false. cbv beta iota.
  by rewrite (split_once_none _ _ Hslash).
Qed.

Lemma bare_name_is_official_witness :
  _split_image "nginx" = ("docker.io", "library/" +:+ "nginx", "latest").
Proof. apply (bare_name_is_official "nginx"); reflexivity. Defined.

End ImagesMore.

(** ** Listing the tags of a repository *)

Module RegistryFacts.
Import PyStr Registry.

Section ListTags.
Context {F : Type}.
Variable float_nonzero : F -> bool.
Variable _http_json : json F -> raised + json F.

Local Abbreviation loop := (list_tags_loop float_nonzero _http_json).
Local Abbreviation chain := (pages_from float_nonzero _http_json).

Lemma loop_pages fuel url pages tags :
  chain url pages -> (length pages <= fuel)%nat ->
  loop fuel url tags = Some (inr (tags ++ concat (map page_rows pages))).
Proof.
  intros Hc. revert fuel tags.
  induction Hc as [url Hf|url page pages Ht Hj Hc IH]; intros fuel tags Hlen.
  - destruct fuel; simpl; rewrite Hf; by rewrite app_nil_r.
  - destruct fuel as [|fuel]; [simpl in Hlen; lia|].
    simpl. rewrite Ht, Hj. rewrite IH by (simpl in Hlen; lia).
    by rewrite <- app_assoc.
Qed.

Lemma loop_rows_inv fuel url tags rows :
  loop fuel url tags = Some (inr rows) ->
  exists pages,
    chain url pages /\ (length pages <= fuel)%nat
    /\ rows = tags ++ concat (map page_rows pages).
Proof.
  revert url tags. induction fuel as [|fuel IH]; intros url tags.
  - simpl. destruct (truthy float_nonzero url) eqn:Ht; [done|].
    intros [= <-]. exists []. split; [by constructor|].
    split; [done | by rewrite app_nil_r].
  - simpl. destruct (truthy float_nonzero url) eqn:Ht.
    + destruct (_http_json url) as [e|j] eqn:Hj; [done|].
      destruct j as [| | | | |items|page]; try done.
      intros H. apply IH in H as (pages & Hc & Hlen & ->).
      exists (page :: pages). split; [by constructor|].
      split; [simpl; lia|]. simpl. by rewrite <- app_assoc.
    + intros [= <-]. exists []. split; [by constructor|].
      split; [simpl; lia | by rewrite app_nil_r].
Qed.

(** X20: [dockerhub_list_tags] returns a list exactly when the pages from
    the first address on, each reached by the [next] of the one before, all
    arrive as objects and end in one whose [next] is missing or counts as
    false; the list then holds the rows of all these pages, in the order of
    the pages. *)
Theorem dockerhub_list_tags_all_pages (fuel : nat) (repo : string)
    (page_size : Z) (rows : list (string * json F)) :
  dockerhub_list_tags float_nonzero _http_json fuel repo page_size
  = Some (inr rows)
  <->
  exists pages,
    pages_from float_nonzero _http_json
      (JStr ("https://registry.hub.docker.com/v2/repositories/" +:+ repo
               +:+ "/tags?page_size="
               +:+ NilZero.string_of_int (Z.to_int page_size)))
      pages
    /\ (length pages <= fuel)%nat
    /\ rows = concat (map page_rows pages).
Proof.
  unfold dockerhub_list_tags. cbv zeta. split.
  - intros H. apply loop_rows_inv in H as (pages & Hc & Hlen & ->).
    by exists pages.
  - intros (pages & Hc & Hlen & ->).
    by rewrite (loop_pages _ _ _ [] Hc Hlen).
Qed.

(** X21: a page whose [next] is its own address keeps the loop going for
    ever: whatever the fuel, there is no result. *)
Theorem next_to_itself_never_returns (url : json F)
    (page : list (string * json F)) :
  truthy float_nonzero url = true ->
  _http_json url = inr (JDict page) ->
  page_next page = url ->
  forall fuel tags,
    list_tags_loop float_nonzero _http_json fuel url tags = None.
Proof.
  intros Ht Hj Hn fuel. induction fuel as [|fuel IH]; intros tags; simpl.
  - by rewrite Ht.
  - rewrite Ht, Hj, Hn. apply IH.
Qed.

Lemma rows_of_app (l1 l2 : list (json F)) :
  rows_of (l1 ++ l2) = rows_of l1 ++ rows_of l2.
Proof.
  induction l1 as [|r l1 IH]; [done|]. simpl.
  destruct r as [| | | | | |items]; try done.
  destruct (dict_get "name" items) as [[| | | |name| |]|]; try done.
  simpl. by rewrite IH.
Qed.

Lemma rows_of_elem (results : list (json F)) (name : string)
    (last_updated : json F) :
  In (name, last_updated) (rows_of results) <->
  exists items,
    In (JDict items) results
    /\ dict_get "name" items = Some (JStr name)
    /\ last_updated = default JNull (dict_get "last_updated" items).
Proof.
  induction results as [|r results IH]; simpl.
  - split; [done | by intros (? & [] & _)].
  - destruct r as [| | | | | |items];
      try (rewrite IH; split;
           [intros (i & ? & ?); exists i; auto
           |intros (i & [?|?] & ?); [done | exists i; auto]]).
    destruct (dict_get "name" items) as [v|] eqn:Hn.
    + destruct v as [| | | |n| |];
        try (rewrite IH; split;
             [intros (i & ? & ?); exists i; auto
             |intros (i & [[= <-]|?] & Hi & ?);
              [rewrite Hn in Hi; done | exists i; auto]]).
      simpl. rewrite IH. split.
      * intros [[= <- <-]|(i & ? & ?)]; [exists items; auto|].
        exists i. auto.
      * intros (i & [[= <-]|?] & Hi & ->).
        -- left. rewrite Hn in Hi. by injection Hi as ->.
        -- right. exists i. auto.
    + rewrite IH. split.
      * intros (i & ? & ?). exists i. auto.
      * intros (i & [[= <-]|?] & Hi & ?);
          [rewrite Hn in Hi; done | exists i; auto].
Qed.

(** X22: the rows of a page are those of its results that are objects
    with a text under ["name"], in their order and each once; every other
    result is passed over, and a missing ["last_updated"] gives [None].
    A result in the middle of the list gives its row, if it has one,
    between the rows of the results before it and the rows of those after
    it; it has a row, and just one, exactly when it is an object with a
    text under ["name"]. *)
Theorem rows_of_results (before : list (json F)) (r : json F)
    (after : list (json F)) :
  rows_of (before ++ r :: after)
  = rows_of before ++ rows_of [r] ++ rows_of after
  /\ (forall name last_updated,
         rows_of [r] = [(name, last_updated)] <->
         exists items,
           r = JDict items
           /\ dict_get "name" items = Some (JStr name)
           /\ last_updated = default JNull (dict_get "last_updated" items))
  /\ (rows_of [r] = [] <->
      ~ exists items name,
          r = JDict items /\ dict_get "name" items = Some (JStr name))
  /\ (forall name last_updated,
         In (name, last_updated) (rows_of (before ++ r :: after)) <->
         exists items,
           In (JDict items) (before ++ r :: after)
           /\ dict_get "name" items = Some (JStr name)
           /\ last_updated = default JNull (dict_get "last_updated" items)).
Proof.
  split; [|split; [|split]].
  - change (r :: after) with ([r] ++ after). by rewrite !rows_of_app.
  - intros name last_updated. split.
    + destruct r as [| | | | | |items]; try done. simpl.
      destruct (dict_get "name" items) as [[| | | |n| |]|] eqn:Hn;
        try done.
      intros [= -> <-]. by exists items.
    + intros (items & -> & Hn & ->). simpl. by rewrite Hn.
  - split.
    + intros H (items & name & -> & Hn). simpl in H. by rewrite Hn in H.
    + intros H. destruct r as [| | | | | |items]; try done. simpl.
      destruct (dict_get "name" items) as [[| | | |n| |]|] eqn:Hn; try done.
      destruct H. by exists items, n.
  - intros name last_updated. apply rows_of_elem.
Qed.
End ListTags.

Lemma dockerhub_list_tags_all_pages_witness :
  dockerhub_list_tags (fun _ : unit => true) example_http 5 "library/redis" 2
  = Some (inr [("7", JStr "2024-01-02"); ("7.2", JNull); ("8", JNull)]).
Proof.
  apply (dockerhub_list_tags_all_pages (fun _ : unit => true) example_http
           5 "library/redis" 2).
  exists [[("count", JInt 3);
           ("next", JStr "https://hub.example/page2");
           ("results",
            JList [JDict [("name", JStr "7");
                          ("last_updated", JStr "2024-01-02")];
                   JDict [("id", JInt 5)];
                   JDict [("name", JStr "7.2")]])];
          [("next", JNull);
           ("results", JList [JStr "noise"; JDict [("name", JStr "8")]])]].
  split; [|split; [simpl; lia | reflexivity]].
  apply pages_more; [reflexivity | reflexivity |].
  apply pages_more; [reflexivity | reflexivity |].
  apply pages_done. reflexivity.
Defined.

Lemma next_to_itself_never_returns_witness :
  list_tags_loop (fun _ : unit => true)
    (fun _ => inr (JDict [("next", JStr "https://hub.example/loop")]))
    1000 (JStr "https://hub.example/loop") []
  = None.
Proof.
  apply (next_to_itself_never_returns (fun _ : unit => true)
           (fun _ => inr (JDict [("next", JStr "https://hub.example/loop")]))
           (JStr "https://hub.example/loop")
           [("next", JStr "https://hub.example/loop")]);
    reflexivity.
Defined.

End RegistryFacts.

(** ** Syncing, cleaning and committing *)

Module VolumeOpsFacts.
Import PyStr VolumeSync Registry VolumeOps.

Section Monad.
Context {St Path : Type}.
Variable perform : action Path -> St -> St * (exn + string).
Variable Q : action Path -> Prop.

Lemma keeps_ret {A} (x : A) : keeps Q (@ret St Path A x).
Proof. by intros st tr H. Qed.

Lemma keeps_raise {A} (e : exn) : keeps Q (@raise St Path A e).
Proof. by intros st tr H. Qed.

Lemma keeps_read {A} (f : St -> A) : keeps Q (@read St Path A f).
Proof. by intros st tr H. Qed.

Lemma keeps_lift {A} (r : exn + A) : keeps Q (@lift St Path A r).
Proof. destruct r; [apply keeps_raise | apply keeps_ret]. Qed.

Lemma keeps_act (a : action Path) : Q a -> keeps Q (act perform a).
Proof.
  intros Ha st tr H. unfold act. destruct (perform a st) as [st' r]. simpl.
  apply Forall_app. split; [done | by constructor].
Qed.

Lemma keeps_bind {A B} (m : @M St Path A) (k : A -> @M St Path B) :
  keeps Q m -> (forall x, keeps Q (k x)) -> keeps Q (bind m k).
Proof.
  intros Hm Hk st tr H. unfold bind. specialize (Hm st tr H).
  destruct (m st tr) as [[r st'] tr']. simpl in Hm.
  destruct r; [done|]. by apply Hk.
Qed.

Lemma keeps_try_except {A} (m : @M St Path A) (caught : exn -> bool)
    (h : @M St Path A) :
  keeps Q m -> keeps Q h -> keeps Q (try_except m caught h).
Proof.
  intros Hm Hh st tr H. unfold try_except. specialize (Hm st tr H).
  destruct (m st tr) as [[r st'] tr']. simpl in Hm.
  destruct r as [e|x]; [|done]. destruct (caught e); [by apply Hh | done].
Qed.

Lemma keeps_for_each {A} (body : A -> @M St Path unit) (l : list A) :
  (forall x, x ∈ l -> keeps Q (body x)) -> keeps Q (for_each body l).
Proof.
  induction l as [|x l IH]; intros Hb; simpl.
  - apply keeps_ret.
  - apply keeps_bind; [apply Hb; left|].
    intros _. apply IH. intros y Hy. apply Hb. by right.
Qed.

Lemma keeps_get_docker_volume_path {F} (json_loads : string -> option (json F))
    (volume_name : string) :
  Q (Run (split_ws ("docker volume inspect " +:+ DOCKER_VOLUME_PREFIX
                      +:+ volume_name))) ->
  keeps Q (get_docker_volume_path json_loads perform volume_name).
Proof.
  intros HQ. unfold get_docker_volume_path.
  apply keeps_try_except; [|apply keeps_ret].
  apply keeps_bind; [by apply keeps_act|]. intros stdout.
  destruct (json_loads stdout); [|apply keeps_raise].
  apply keeps_bind; [apply keeps_lift|]. intros first. apply keeps_lift.
Qed.

Lemma keeps_as_path {F} (Path_of : string -> Path) (v : json F) :
  keeps Q (@as_path St Path F Path_of v).
Proof. destruct v; first [apply keeps_ret | apply keeps_raise]. Qed.

Lemma keeps_relative (relative_to : Path -> Path -> option Path)
    (p root : Path) :
  keeps Q (@relative St Path relative_to p root).
Proof.
  unfold relative. destruct (relative_to p root);
    [apply keeps_ret | apply keeps_raise].
Qed.

Lemma keeps_included relative_to str matches_pattern whitelist_patterns
    (p : Path) (service : string) (root : Path) :
  keeps Q (@included St Path relative_to str matches_pattern
             whitelist_patterns p service root).
Proof.
  unfold included. destruct (should_include_file _ _ _ _ _ _ _) as [[b m]|];
    [apply keeps_ret | apply keeps_raise].
Qed.

End Monad.

Lemma inspect_argv (volume_name : string) :
  exists rest,
    split_ws ("docker volume inspect " +:+ DOCKER_VOLUME_PREFIX
                +:+ volume_name)
    = "docker" :: "volume" :: "inspect" :: rest.
Proof.
  exists (split_ws_go None (DOCKER_VOLUME_PREFIX +:+ volume_name)).
  unfold split_ws. generalize (DOCKER_VOLUME_PREFIX +:+ volume_name) as rest.
  intros rest. vm_compute. reflexivity.
Qed.

Lemma inspect_is_quiet {Path} (volume_name : string) :
  changes_things
    (@Run Path (split_ws ("docker volume inspect " +:+ DOCKER_VOLUME_PREFIX
                            +:+ volume_name)))
  = false.
Proof.
  destruct (inspect_argv volume_name) as [rest ->]. unfold changes_things.
  apply andb_false_iff. right. apply negb_false_iff.
  by apply bool_decide_eq_true_2.
Qed.

Section Steps.
Context {St Path A B : Type}.

Lemma bind_value (m : @M St Path A) (k : A -> @M St Path B) st tr x st' tr' :
  m st tr = (inr x, st', tr') -> bind m k st tr = k x st' tr'.
Proof. intros Hm. unfold bind. by rewrite Hm. Qed.

Lemma bind_raised (m : @M St Path A) (k : A -> @M St Path B) st tr e st' tr' :
  m st tr = (inl e, st', tr') -> bind m k st tr = (inl e, st', tr').
Proof. intros Hm. unfold bind. by rewrite Hm. Qed.

Lemma keeps_bind_ret (Q : action Path -> Prop) (x : A)
    (k : A -> @M St Path B) :
  keeps Q (k x) -> keeps Q (bind (ret x) k).
Proof. intros Hk st tr H. by apply Hk. Qed.

Lemma keeps_bind_raise (Q : action Path -> Prop) (e : exn)
    (k : A -> @M St Path B) :
  keeps Q (bind (raise e) k).
Proof. by intros st tr H. Qed.

End Steps.

Lemma try_except_escapes {St Path A} (m : @M St Path A) caught h st tr e :
  (try_except m caught h st tr).1.1 = inl e ->
  (forall st' tr', (h st' tr').1.1 <> inl e) ->
  caught e = false.
Proof.
  unfold try_except. destruct (m st tr) as [[[e'|x] st'] tr']; simpl.
  - destruct (caught e') eqn:Hc.
    + intros He Hh. by apply Hh in He.
    + intros [= <-] _. done.
  - done.
Qed.

Section Ops.
Context {St Path Stat F : Type} `{EqDecision Path}.
Variable relative_to : Path -> Path -> option Path.
Variable str : Path -> string.
Variable matches_pattern : string -> string -> bool.
Variable whitelist_patterns : gmap string (gmap string (list string)).
Variable dry_run : bool.
Variable Path_of : string -> Path.
Variable div : Path -> Path -> Path.
Variable div_str : Path -> string -> Path.
Variable parent : Path -> Path.
Variable exists_ : Path -> St -> bool.
Variable is_file : Path -> St -> bool.
Variable rglob : Path -> St -> list Path.
Variable stat : Path -> St -> option Stat.
Variable same_mtime : Stat -> Stat -> bool.
Variable st_size : Stat -> Z.
Variable now : St -> string.
Variable float_nonzero : F -> bool.
Variable json_loads : string -> option (json F).
Variable perform : action Path -> St -> St * (exn + string).

Local Abbreviation inspect volume_name :=
  (@Run Path (split_ws ("docker volume inspect " +:+ DOCKER_VOLUME_PREFIX
                          +:+ volume_name))).
Local Abbreviation includes :=
  (should_include_file relative_to str matches_pattern whitelist_patterns).
Local Abbreviation sync_volume dry :=
  (sync_volume_to_config relative_to str matches_pattern whitelist_patterns
     dry Path_of div div_str parent exists_ is_file rglob stat same_mtime
     st_size float_nonzero json_loads perform).
Local Abbreviation clean dry :=
  (clean_orphaned_files relative_to str matches_pattern whitelist_patterns
     dry Path_of div_str exists_ is_file rglob float_nonzero json_loads
     perform).
Local Abbreviation no_change :=
  (fun a : action Path => changes_things a = false).

(** *** The mount point of a volume *)

(** X23: a mount point is returned exactly when the command succeeds and
    prints a list whose first element is an object with a value other than
    [None] under ["Mountpoint"]; that value is the result. *)
Theorem mountpoint_iff (volume_name : string) (st : St)
    (tr : list (action Path)) (v : json F) :
  ((get_docker_volume_path json_loads perform volume_name st tr).1.1 = inr v
   /\ v <> JNull)
  <->
  exists stdout items rest,
    (perform
       (Run (split_ws ("docker volume inspect " +:+ DOCKER_VOLUME_PREFIX
                         +:+ volume_name))) st).2 = inr stdout
    /\ json_loads stdout = Some (JList (JDict items :: rest))
    /\ dict_get "Mountpoint" items = Some v
    /\ v <> JNull.
Proof.
  unfold get_docker_volume_path, try_except, bind, act.
  destruct (perform (inspect volume_name) st) as [st' [e|stdout]]; simpl.
  { split.
    - destruct e; simpl; intros [Hr Hv]; congruence.
    - intros (? & ? & ? & ? & _). done. }
  destruct (json_loads stdout) as [j|] eqn:Hj; simpl.
  2:{ split.
      - intros [Hr Hv]. congruence.
      - intros (? & ? & ? & [= <-] & ? & _). congruence. }
  split.
  - intros Hr. exists stdout.
    destruct j as [| | | |s|items|items]; simpl in Hr;
      try (destruct Hr; congruence).
    + destruct s; simpl in Hr; destruct Hr; congruence.
    + destruct items as [|first rest]; simpl in Hr;
        [destruct Hr; congruence|].
      destruct first as [| | | | | |items]; simpl in Hr;
        try (destruct Hr; congruence).
      destruct (dict_get "Mountpoint" items) as [x|] eqn:Hd; simpl in Hr;
        [|destruct Hr; congruence].
      destruct Hr as [[= ->] Hv]. by exists items, rest.
  - intros (so & items & rest & [= <-] & Hl & Hd & Hv).
    rewrite Hj in Hl. injection Hl as ->. simpl. rewrite Hd. by simpl.
Qed.

(** X24: of the exceptions that [get_docker_volume_path] names in its
    [except] clause none leaves it, and [CalledProcessError] leaves neither
    [git_status] nor [git_add_and_commit]. *)
Theorem listed_exceptions_do_not_escape (st : St) (tr : list (action Path)) :
  (forall volume_name e,
      (get_docker_volume_path json_loads perform volume_name st tr).1.1
      = inl e ->
      e ∉ [CalledProcessError; JSONDecodeError; IndexError; KeyError])
  /\ (git_status perform st tr).1.1 <> inl CalledProcessError
  /\ forall message,
       (git_add_and_commit dry_run now perform message st tr).1.1
       <> inl CalledProcessError.
Proof.
  split; [|split].
  - intros volume_name e He. unfold get_docker_volume_path in He.
    apply try_except_escapes in He; [|done].
    intros Hin. repeat (apply elem_of_cons in Hin as [->|Hin]; [done|]).
    by apply elem_of_nil in Hin.
  - intros He. unfold git_status in He.
    by apply try_except_escapes in He.
  - intros message He. unfold git_add_and_commit in He.
    destruct dry_run; [done|]. by apply try_except_escapes in He.
Qed.


(** *** Dry runs *)

Lemma keeps_gather (Q : action Path -> Prop) target_dir volume_root files
    should_exist :
  keeps Q (@gather_should_exist St Path relative_to str matches_pattern
             whitelist_patterns is_file target_dir volume_root files
             should_exist).
Proof.
  revert should_exist.
  induction files as [|file_path files IH]; intros should_exist; simpl.
  - apply keeps_ret.
  - apply keeps_bind; [apply keeps_read|]. intros f.
    apply keeps_bind;
      [destruct f; [apply keeps_included | apply keeps_ret]|].
    intros [|]; [|apply IH].
    apply keeps_bind; [apply keeps_relative|]. intros rel. apply IH.
Qed.

Lemma quiet_sync_file target_dir volume_root target_root file_path :
  keeps no_change
    (sync_file relative_to str matches_pattern whitelist_patterns true div
       parent exists_ is_file stat same_mtime st_size perform target_dir
       volume_root target_root file_path).
Proof.
  unfold sync_file. apply keeps_bind; [apply keeps_read|].
  intros [|]; [|apply keeps_ret].
  apply keeps_bind; [apply keeps_included|].
  intros [|]; (apply keeps_bind; [apply keeps_relative|]); intros rel;
    apply keeps_ret.
Qed.

Lemma quiet_sync_volume volume_name target_dir :
  keeps no_change (sync_volume true volume_name target_dir).
Proof.
  unfold sync_volume_to_config.
  apply keeps_bind;
    [apply keeps_get_docker_volume_path, inspect_is_quiet|].
  intros v. destruct (negb (truthy float_nonzero v)); [apply keeps_ret|].
  apply keeps_bind; [apply keeps_as_path|]. intros volume_root.
  apply keeps_bind; [apply keeps_read|]. intros e.
  destruct (negb e); [apply keeps_ret|].
  apply keeps_bind; [apply keeps_ret|]. intros _.
  apply keeps_bind; [apply keeps_read|]. intros files.
  apply keeps_bind; [|intros _; apply keeps_ret].
  apply keeps_for_each. intros file_path _. apply quiet_sync_file.
Qed.

Lemma quiet_clean target_dir : keeps no_change (clean true target_dir).
Proof.
  unfold clean_orphaned_files.
  destruct (volume_of VOLUME_MAPPINGS target_dir) as [volume_name|];
    [|apply keeps_ret].
  destruct (is_empty volume_name); [apply keeps_ret|].
  apply keeps_bind;
    [apply keeps_get_docker_volume_path, inspect_is_quiet|].
  intros v. destruct (negb (truthy float_nonzero v)); [apply keeps_ret|].
  apply keeps_bind; [apply keeps_as_path|]. intros volume_root.
  apply keeps_bind; [apply keeps_read|]. intros e.
  destruct (negb e); [apply keeps_ret|].
  apply keeps_bind; [apply keeps_read|]. intros files.
  apply keeps_bind; [apply keeps_gather|]. intros should_exist.
  apply keeps_bind; [apply keeps_read|]. intros targets.
  apply keeps_for_each. intros file_path _. unfold clean_file.
  apply keeps_bind; [apply keeps_read|]. intros [|]; [|apply keeps_ret].
  apply keeps_bind; [apply keeps_relative|]. intros rel.
  destruct (negb (bool_decide (rel ∈ should_exist))); apply keeps_ret.
Qed.

Lemma quiet_git_status : keeps no_change (git_status perform).
Proof.
  unfold git_status. apply keeps_try_except; [|apply keeps_ret].
  apply keeps_bind; [by apply keeps_act|]. intros _.
  apply keeps_bind; [by apply keeps_act|]. intros stdout. apply keeps_ret.
Qed.

Lemma quiet_sync_each mappings success_count :
  keeps no_change
    (sync_each relative_to str matches_pattern whitelist_patterns true
       Path_of div div_str parent exists_ is_file rglob stat same_mtime
       st_size float_nonzero json_loads perform mappings success_count).
Proof.
  revert success_count.
  induction mappings as [|[volume_name target_dir] rest IH];
    intros success_count; simpl.
  - apply keeps_ret.
  - apply keeps_bind; [apply quiet_sync_volume|]. intros [|]; [|apply IH].
    apply keeps_bind; [apply keeps_ret|]. intros _. apply IH.
Qed.


(** *** What is copied and what is removed *)

Local Abbreviation copied_right volume_root target_dir :=
  (fun a : action Path =>
     forall src dst, a = Copy2 src dst ->
       dry_run = false
       /\ exists rel msg,
            includes src target_dir volume_root = Some (true, msg)
            /\ relative_to src volume_root = Some rel
            /\ dst = div (div_str (Path_of CONFIG_BASE_PATH) target_dir) rel).

Local Abbreviation no_copy :=
  (fun a : action Path => forall src dst, a <> Copy2 src dst).

Lemma sync_file_copies target_dir volume_root file_path :
  keeps (copied_right volume_root target_dir)
    (sync_file relative_to str matches_pattern whitelist_patterns dry_run div
       parent exists_ is_file stat same_mtime st_size perform target_dir
       volume_root (div_str (Path_of CONFIG_BASE_PATH) target_dir) file_path).
Proof.
  unfold sync_file. apply keeps_bind; [apply keeps_read|].
  intros [|]; [|apply keeps_ret]. unfold included.
  destruct (includes file_path target_dir volume_root) as [[b msg]|] eqn:Hi;
    [|apply keeps_bind_raise].
  apply keeps_bind_ret. unfold relative.
  destruct (relative_to file_path volume_root) as [rel|] eqn:Hrel;
    [|destruct b; apply keeps_bind_raise].
  destruct b; apply keeps_bind_ret; [|apply keeps_ret].
  destruct dry_run eqn:Hdry; simpl; [apply keeps_ret|].
  apply keeps_bind; [by apply keeps_act|]. intros _.
  apply keeps_bind; [apply keeps_read|]. intros e.
  apply keeps_bind; [destruct e; [apply keeps_read | apply keeps_ret]|].
  intros same. destruct (negb e || negb same); [|apply keeps_ret].
  apply keeps_bind; [|intros _; apply keeps_ret].
  apply keeps_act. intros src dst [= <- <-]. split; [done|].
  by exists rel, msg.
Qed.

(** X27: every file that [sync_volume_to_config] copies is one that the
    whitelist includes, taken from below the mount point that
    [get_docker_volume_path] returned, and it is copied to the same
    relative path below the target directory; a dry run copies nothing. *)
Theorem copies_are_whitelisted (volume_name target_dir : string) (st : St)
    (src dst : Path) :
  Copy2 src dst
    ∈ (sync_volume_to_config relative_to str matches_pattern
         whitelist_patterns dry_run Path_of div div_str parent exists_ is_file
         rglob stat same_mtime st_size float_nonzero json_loads perform
         volume_name target_dir st []).2 ->
  dry_run = false
  /\ exists mountpoint rel msg,
       (get_docker_volume_path json_loads perform volume_name st []).1.1
       = inr (JStr mountpoint)
       /\ should_include_file relative_to str matches_pattern
            whitelist_patterns src target_dir (Path_of mountpoint)
          = Some (true, msg)
       /\ relative_to src (Path_of mountpoint) = Some rel
       /\ dst = div (div_str (Path_of CONFIG_BASE_PATH) target_dir) rel.
Proof.
  intros Hin. unfold sync_volume_to_config in Hin.
  assert (Forall no_copy
            (get_docker_volume_path json_loads perform volume_name st []).2)
    as Hno.
  { apply keeps_get_docker_volume_path; [done | constructor]. }
  assert (forall tr : list (action Path),
             Forall no_copy tr -> Copy2 src dst ∈ tr -> False) as Hnone.
  { intros tr Htr Hc. rewrite Forall_forall in Htr.
    by apply (Htr _ Hc src dst). }
  destruct (get_docker_volume_path json_loads perform volume_name st [])
    as [[[e|v] st1] tr1] eqn:Hg; simpl in Hno.
  { rewrite (bind_raised _ _ _ _ _ _ _ Hg) in Hin. by apply Hnone in Hin. }
  rewrite (bind_value _ _ _ _ _ _ _ Hg) in Hin.
  destruct (negb (truthy float_nonzero v)); [by apply Hnone in Hin|].
  destruct v as [| | | |mountpoint| |]; try by apply Hnone in Hin.
  change (bind (as_path Path_of (JStr mountpoint)) ?k st1 tr1)
    with (k (Path_of mountpoint) st1 tr1) in Hin. cbv beta in Hin.
  match type of Hin with
  | _ ∈ (?m st1 tr1).2 =>
      assert (keeps (copied_right (Path_of mountpoint) target_dir) m) as Hk
  end.
  { apply keeps_bind; [apply keeps_read|]. intros e.
    destruct (negb e); [apply keeps_ret|].
    apply keeps_bind.
    { destruct (negb dry_run); [|apply keeps_ret].
      apply keeps_bind; [by apply keeps_act | intros _; apply keeps_ret]. }
    intros _. apply keeps_bind; [apply keeps_read|]. intros files.
    apply keeps_bind; [|intros _; apply keeps_ret].
    apply keeps_for_each. intros file_path _. apply sync_file_copies. }
  assert (Forall (copied_right (Path_of mountpoint) target_dir) tr1) as Hq.
  { apply (Forall_impl _ _ _ Hno). intros a Ha s d ->. by destruct (Ha s d). }
  specialize (Hk st1 tr1 Hq). rewrite Forall_forall in Hk.
  destruct (Hk _ Hin src dst eq_refl) as (Hdry & rel & msg & Hi & Hrel & ->).
  split; [done|]. by exists mountpoint, rel, msg.
Qed.

Lemma gather_spec target_dir volume_root files should_exist st tr r st' tr' :
  @gather_should_exist St Path relative_to str matches_pattern
    whitelist_patterns is_file target_dir volume_root files should_exist
    st tr = (r, st', tr') ->
  st' = st /\ tr' = tr
  /\ forall l, r = inr l ->
       (forall rel, rel ∈ should_exist -> rel ∈ l)
       /\ forall src msg rel,
            src ∈ files -> is_file src st = true ->
            includes src target_dir volume_root = Some (true, msg) ->
            relative_to src volume_root = Some rel ->
            rel ∈ l.
Proof.
  revert should_exist.
  induction files as [|file_path files IH]; intros should_exist; simpl.
  - intros [= <- <- <-]. split; [done|]. split; [done|].
    intros l [= <-]. split; [done|].
    intros src msg rel Hsrc. by apply elem_of_nil in Hsrc.
  - erewrite bind_value by reflexivity.
    destruct (is_file file_path st) eqn:Hf.
    + unfold included.
      destruct (includes file_path target_dir volume_root)
        as [[b msg']|] eqn:Hi.
      * erewrite bind_value by reflexivity. destruct b.
        -- unfold relative.
           destruct (relative_to file_path volume_root) as [rel'|] eqn:Hr.
           ++ erewrite bind_value by reflexivity.
              intros Hrun. apply IH in Hrun as (-> & -> & Hl).
              split; [done|]. split; [done|]. intros l Hres.
              destruct (Hl l Hres) as [Hacc Hfiles]. split.
              ** intros rel Hrel. apply Hacc. apply elem_of_app. by left.
              ** intros src msg rel Hsrc Hfile Hinc Hrel.
                 apply elem_of_cons in Hsrc as [->|Hsrc].
                 --- apply Hacc. apply elem_of_app. right.
                     rewrite Hr in Hrel. injection Hrel as ->. by left.
                 --- by apply (Hfiles src msg).
           ++ erewrite bind_raised by reflexivity.
              intros [= <- <- <-]. split; [done|]. split; [done|].
              intros l Hres. discriminate.
        -- intros Hrun. apply IH in Hrun as (-> & -> & Hl).
           split; [done|]. split; [done|]. intros l Hres.
           destruct (Hl l Hres) as [Hacc Hfiles]. split; [done|].
           intros src msg rel Hsrc Hfile Hinc Hrel.
           apply elem_of_cons in Hsrc as [->|Hsrc]; [congruence|].
           by apply (Hfiles src msg).
      * erewrite bind_raised by reflexivity.
        intros [= <- <- <-]. split; [done|]. split; [done|].
        intros l Hres. discriminate.
    + erewrite bind_value by reflexivity.
      intros Hrun. apply IH in Hrun as (-> & -> & Hl).
      split; [done|]. split; [done|]. intros l Hres.
      destruct (Hl l Hres) as [Hacc Hfiles]. split; [done|].
      intros src msg rel Hsrc Hfile Hinc Hrel.
      apply elem_of_cons in Hsrc as [->|Hsrc]; [congruence|].
      by apply (Hfiles src msg).
Qed.

Local Abbreviation removed_right target_root targets should_exist :=
  (fun a : action Path =>
     forall p, a = Unlink p ->
       dry_run = false /\ p ∈ targets
       /\ exists rel, relative_to p target_root = Some rel
                      /\ rel ∉ should_exist).

Local Abbreviation no_unlink :=
  (fun a : action Path => forall p, a <> Unlink p).

Lemma clean_file_removes (target_root : Path) (targets should_exist : list Path)
    (file_path : Path) :
  file_path ∈ targets ->
  keeps (removed_right target_root targets should_exist)
    (clean_file relative_to dry_run is_file perform target_root should_exist
       file_path).
Proof.
  intros Hin. unfold clean_file. apply keeps_bind; [apply keeps_read|].
  intros [|]; [|apply keeps_ret]. unfold relative.
  destruct (relative_to file_path target_root) as [rel|] eqn:Hrel;
    [|apply keeps_bind_raise].
  apply keeps_bind_ret.
  destruct (bool_decide (rel ∈ should_exist)) eqn:Hd; simpl;
    [apply keeps_ret|].
  destruct dry_run eqn:Hdry; simpl; [apply keeps_ret|].
  apply keeps_bind; [|intros _; apply keeps_ret].
  apply keeps_act. intros p [= <-]. split; [done|]. split; [done|].
  exists rel. split; [done|]. by apply bool_decide_eq_false in Hd.
Qed.

(** X28: [clean_orphaned_files] removes only orphans: a file it removes
    is one of the target directory whose relative path is that of no file
    of the volume that the whitelist includes; a dry run removes
    nothing. *)
Theorem clean_keeps_whitelisted (target_dir : string) (st : St) (p : Path) :
  Unlink p
    ∈ (clean_orphaned_files relative_to str matches_pattern
         whitelist_patterns dry_run Path_of div_str exists_ is_file rglob
         float_nonzero json_loads perform target_dir st []).2 ->
  dry_run = false
  /\ exists volume_name mountpoint st1 rel,
       volume_of VOLUME_MAPPINGS target_dir = Some volume_name
       /\ (get_docker_volume_path json_loads perform volume_name st []).1
          = (inr (JStr mountpoint), st1)
       /\ p ∈ rglob (div_str (Path_of CONFIG_BASE_PATH) target_dir) st1
       /\ relative_to p (div_str (Path_of CONFIG_BASE_PATH) target_dir)
          = Some rel
       /\ forall src msg,
            src ∈ rglob (Path_of mountpoint) st1 ->
            is_file src st1 = true ->
            should_include_file relative_to str matches_pattern
              whitelist_patterns src target_dir (Path_of mountpoint)
            = Some (true, msg) ->
            relative_to src (Path_of mountpoint) <> Some rel.
Proof.
  intros Hin. unfold clean_orphaned_files in Hin.
  assert (forall tr : list (action Path),
             Forall no_unlink tr -> Unlink p ∈ tr -> False) as Hnone.
  { intros tr Htr Hc. rewrite Forall_forall in Htr.
    by apply (Htr _ Hc p). }
  destruct (volume_of VOLUME_MAPPINGS target_dir) as [volume_name|] eqn:Hv;
    [|by apply elem_of_nil in Hin].
  destruct (is_empty volume_name); [by apply elem_of_nil in Hin|].
  assert (Forall no_unlink
            (get_docker_volume_path json_loads perform volume_name st []).2)
    as Hno.
  { apply keeps_get_docker_volume_path; [done | constructor]. }
  destruct (get_docker_volume_path json_loads perform volume_name st [])
    as [[[e|v] st1] tr1] eqn:Hg; simpl in Hno.
  { rewrite (bind_raised _ _ _ _ _ _ _ Hg) in Hin. by apply Hnone in Hin. }
  rewrite (bind_value _ _ _ _ _ _ _ Hg) in Hin.
  destruct (negb (truthy float_nonzero v)); [by apply Hnone in Hin|].
  destruct v as [| | | |mountpoint| |]; try by apply Hnone in Hin.
  change (bind (as_path Path_of (JStr mountpoint)) ?k st1 tr1)
    with (k (Path_of mountpoint) st1 tr1) in Hin. cbv beta in Hin.
  unfold bind at 1, read at 1 in Hin.
  destruct (negb (exists_ _ st1)); [by apply Hnone in Hin|].
  unfold bind at 1, read at 1 in Hin.
  destruct (gather_should_exist relative_to str matches_pattern
              whitelist_patterns is_file target_dir (Path_of mountpoint)
              (rglob (Path_of mountpoint) st1) [] st1 tr1)
    as [[[e|should_exist] st2] tr2] eqn:Hgather;
    apply gather_spec in Hgather as Hspec;
    destruct Hspec as (-> & -> & Hl).
  { rewrite (bind_raised _ _ _ _ _ _ _ Hgather) in Hin.
    by apply Hnone in Hin. }
  rewrite (bind_value _ _ _ _ _ _ _ Hgather) in Hin.
  unfold bind at 1, read at 1 in Hin.
  destruct (Hl should_exist eq_refl) as [_ Hall].
  pose proof
    (keeps_for_each
       (removed_right (div_str (Path_of CONFIG_BASE_PATH) target_dir)
          (rglob (div_str (Path_of CONFIG_BASE_PATH) target_dir) st1)
          should_exist)
       (clean_file relative_to dry_run is_file perform
          (div_str (Path_of CONFIG_BASE_PATH) target_dir) should_exist)
       (rglob (div_str (Path_of CONFIG_BASE_PATH) target_dir) st1)
       (fun x Hx => clean_file_removes _ _ _ x Hx) st1 tr1) as Hk.
  assert (Forall
            (removed_right (div_str (Path_of CONFIG_BASE_PATH) target_dir)
               (rglob (div_str (Path_of CONFIG_BASE_PATH) target_dir) st1)
               should_exist) tr1) as Hq.
  { apply (Forall_impl _ _ _ Hno). intros a Ha q ->. by destruct (Ha q). }
  specialize (Hk Hq). rewrite Forall_forall in Hk.
  specialize (Hk _ Hin). cbv beta in Hk.
  destruct (Hk p eq_refl) as (Hdry & Hp & rel & Hrel & Hnot).
  split; [done|]. exists volume_name, mountpoint, st1, rel.
  split; [done|]. split; [by rewrite ?Hg|]. split; [done|]. split; [done|].
  intros src msg Hsrc Hfile Hinc Hsame. apply Hnot.
  by apply (Hall src msg rel).
Qed.

(** *** Committing *)

Ltac trace_cases H Hargv :=
  repeat (apply elem_of_cons in H as [H|H];
          [try discriminate H;
           try (injection H as ->; discriminate Hargv)|]);
  try (by apply elem_of_nil in H).


End Ops.


Lemma copies_are_whitelisted_witness :
  exists mountpoint rel msg,
    should_include_file parts_relative_to parts_str String.eqb
      example_whitelist ["var"; "lib"; "vol"; "settings.js"] "node-red"
      (example_Path_of mountpoint)
    = Some (true, msg)
    /\ parts_relative_to ["var"; "lib"; "vol"; "settings.js"]
         (example_Path_of mountpoint) = Some rel
    /\ example_config ++ ["node-red"; "settings.js"]
       = example_div_str (example_Path_of CONFIG_BASE_PATH) "node-red" ++ rel.
Proof.
  destruct (copies_are_whitelisted parts_relative_to parts_str String.eqb
              example_whitelist false example_Path_of (@app string)
              example_div_str (@removelast string) example_exists
              example_is_file example_rglob example_stat example_same_mtime
              snd (fun _ : unit => true) example_json_loads example_perform
              "node_red_data" "node-red" example_state
              ["var"; "lib"; "vol"; "settings.js"]
              (example_config ++ ["node-red"; "settings.js"]))
    as (_ & mountpoint & rel & msg & _ & Hi & Hrel & Hdst).
  - vm_compute. repeat constructor.
  - by exists mountpoint, rel, msg.
Defined.

Lemma clean_keeps_whitelisted_witness :
  exists rel,
    parts_relative_to (example_config ++ ["node-red"; "old-flows.json"])
      (example_div_str (example_Path_of CONFIG_BASE_PATH) "node-red")
    = Some rel.
Proof.
  destruct (clean_keeps_whitelisted parts_relative_to parts_str String.eqb
              example_whitelist false example_Path_of example_div_str
              example_exists example_is_file example_rglob
              (fun _ : unit => true) example_json_loads example_perform
              "node-red" example_state
              (example_config ++ ["node-red"; "old-flows.json"]))
    as (_ & volume_name & mountpoint & st1 & rel & _ & _ & _ & Hrel & _).
  - vm_compute. repeat constructor.
  - by exists rel.
Defined.


End VolumeOpsFacts.
